(** * peach-math-field: the editor core, embedded and verified

    A shallow embedding of the expression tree ([src/core/ast.ts]), the
    path cursor ([src/core/cursor.ts]), selections, the editor state and
    its undo history ([src/core/model.ts]), the LaTeX tokenizer, parser
    and serializer, and the insert, navigate and delete commands.

    Conventions.  A JavaScript string is a [string] of code units; a
    path index and a cursor offset are natural numbers (the data model
    makes both non-negative integers).  A function returning
    [T | null] returns an [option]; a function that can raise or fail to
    terminate returns an [outcome]. *)

From Stdlib Require Import String Ascii List ZArith Lia Bool Arith PeanoNat.
Import ListNotations.
Open Scope string_scope.
Open Scope nat_scope.
Open Scope list_scope.

(* ================================================================== *)
(** ** JavaScript array helpers *)
(* ================================================================== *)

Module Js.

(** [arr.slice(from)] and [arr.slice(from, to)] for non-negative
    integer bounds. *)
Definition sliceFrom {A} (from : nat) (l : list A) : list A := skipn from l.

Definition slice {A} (from to : nat) (l : list A) : list A :=
  firstn (to - from) (skipn from l).

(** [arr[i] = v] on a copy, for [i] inside the array.  Outside it the
    JavaScript array would grow holes; every caller below resolves the
    index first, and the model leaves the array as it is there. *)
Fixpoint setAt {A} (i : nat) (v : A) (l : list A) {struct l} : list A :=
  match l with
  | [] => []
  | h :: t => match i with
              | 0 => v :: t
              | S i' => h :: setAt i' v t
              end
  end.

(** [arr.splice(i, 0, v)]: insert [v] before index [i] (at the end when
    [i] is past it). *)
Definition spliceIn {A} (i : nat) (v : A) (l : list A) : list A :=
  firstn i l ++ v :: skipn i l.

Lemma setAt_length {A} (i : nat) (v : A) l : length (setAt i v l) = length l.
Proof.
  revert i; induction l as [|h t IH]; intros [|i]; simpl; auto.
Qed.

Lemma setAt_nth {A} (i : nat) (v : A) l :
  i < length l -> nth_error (setAt i v l) i = Some v.
Proof.
  revert i; induction l as [|h t IH]; intros [|i] H; simpl in *; try lia; auto.
  apply IH; lia.
Qed.

Lemma setAt_Forall {A} (P : A -> Prop) (i : nat) (v : A) l :
  P v -> Forall P l -> Forall P (setAt i v l).
Proof.
  intros Hv; revert i; induction l as [|h t IH]; intros i Hl; simpl.
  - constructor.
  - inversion Hl; subst. destruct i; constructor; auto.
Qed.

Lemma Forall_firstn {A} (P : A -> Prop) n l : Forall P l -> Forall P (firstn n l).
Proof.
  revert n; induction l as [|h t IH]; intros [|n] H; simpl; auto.
  inversion H; subst; constructor; auto.
Qed.

Lemma Forall_skipn {A} (P : A -> Prop) n l : Forall P l -> Forall P (skipn n l).
Proof.
  revert n; induction l as [|h t IH]; intros [|n] H; simpl; auto.
  inversion H; subst; auto.
Qed.

Lemma Forall_slice {A} (P : A -> Prop) a b l : Forall P l -> Forall P (slice a b l).
Proof. intros; unfold slice; auto using Forall_firstn, Forall_skipn. Qed.

End Js.

(* ================================================================== *)
(** ** The expression tree ([src/core/ast.ts]) *)
(* ================================================================== *)

Module Ast.

Inductive SpaceSize := thin | medium | thick | quad | qquad.

Inductive ParensSize := auto | big | Big | bigg | Bigg.

Unset Elimination Schemes.
(** The tagged union of node kinds.  An optional field is an [option];
    [limits] carries the optional lower and upper limit. *)
Inductive MathNode : Type :=
| NumberNode (value : string)
| SymbolNode (value : string)
| OperatorNode (value : string)
| TextNode (value : string)
| SpaceNode (size : SpaceSize)
| PlaceholderNode
| RowNode (children : list MathNode)
| FractionNode (numerator denominator : MathNode)
| PowerNode (base exponent : MathNode)
| SubscriptNode (base subscript : MathNode)
| SubSupNode (base subscript superscript : MathNode)
| SqrtNode (radicand : MathNode) (index : option MathNode)
| ParensNode (open close : string) (content : MathNode)
             (size : option ParensSize)
| FunctionNode (name : string) (argument : option MathNode)
               (limits : option (option MathNode * option MathNode))
| MatrixNode (rows : list (list MathNode)) (style : string)
             (colSpec : option string).
Set Elimination Schemes.

Inductive MathNodeKind :=
| row | number | symbol | operator | fraction | power | subscript | subsup
| sqrt | parens | matrix | text | function | space | placeholder.

Definition kind (n : MathNode) : MathNodeKind :=
  match n with
  | NumberNode _ => number
  | SymbolNode _ => symbol
  | OperatorNode _ => operator
  | TextNode _ => text
  | SpaceNode _ => space
  | PlaceholderNode => placeholder
  | RowNode _ => row
  | FractionNode _ _ => fraction
  | PowerNode _ _ => power
  | SubscriptNode _ _ => subscript
  | SubSupNode _ _ _ => subsup
  | SqrtNode _ _ => sqrt
  | ParensNode _ _ _ _ => parens
  | FunctionNode _ _ _ => function
  | MatrixNode _ _ _ => matrix
  end.

Definition isRow (n : MathNode) : bool :=
  match n with RowNode _ => true | _ => false end.

(** The node builders.  [matrix] drops an empty (falsy) column
    specification, as [if (colSpec)] does. *)
Module node.
Definition number := NumberNode.
Definition symbol := SymbolNode.
Definition operator := OperatorNode.
Definition text := TextNode.
Definition space := SpaceNode.
Definition placeholder := PlaceholderNode.
Definition row := RowNode.
Definition fraction := FractionNode.
Definition power := PowerNode.
Definition subscript := SubscriptNode.
Definition subsup := SubSupNode.
Definition sqrt := SqrtNode.
Definition parens (content : MathNode) (open close : string)
           (size : option ParensSize) : MathNode :=
  ParensNode open close content size.
Definition function := FunctionNode.
Definition matrix (rows : list (list MathNode)) (style : string)
           (colSpec : option string) : MathNode :=
  MatrixNode rows style
             (match colSpec with
              | Some "" => None
              | c => c
              end).
End node.

(** [getChildren], and [getChildNodes] of the cursor module, which is
    the same function. *)
Definition getChildren (n : MathNode) : list MathNode :=
  match n with
  | RowNode children => children
  | FractionNode numerator denominator => [numerator; denominator]
  | PowerNode base exponent => [base; exponent]
  | SubscriptNode base sub => [base; sub]
  | SubSupNode base sub sup => [base; sub; sup]
  | SqrtNode radicand (Some index) => [radicand; index]
  | SqrtNode radicand None => [radicand]
  | ParensNode _ _ content _ => [content]
  | FunctionNode _ argument limits =>
      (match argument with Some a => [a] | None => [] end)
        ++ (match limits with Some (Some lo, _) => [lo] | _ => [] end)
        ++ (match limits with Some (_, Some up) => [up] | _ => [] end)
  | MatrixNode rows _ _ => concat rows
  | _ => []
  end.

End Ast.

(* ================================================================== *)
(** ** Cursor positions ([src/core/cursor.ts]) *)
(* ================================================================== *)

Module Cursor.
Import Ast.

Record CursorPosition := cursor { path : list nat; offset : nat }.

Definition cursorAtStart (path : list nat) : CursorPosition := cursor path 0.

Definition getChildNodes : MathNode -> list MathNode := getChildren.

(** [getNodeAtPath]: [None] is the source's [null]. *)
Fixpoint getNodeAtPath (root : MathNode) (path : list nat) : option MathNode :=
  match path with
  | [] => Some root
  | index :: rest =>
      match nth_error (getChildNodes root) index with
      | None => None
      | Some child => getNodeAtPath child rest
      end
  end.

Definition parentPath (path : list nat) : list nat := removelast path.

Definition indexInParent (path : list nat) : Z :=
  match path with
  | [] => (-1)%Z
  | _ => Z.of_nat (last path 0)
  end.

(** The loop over the common path elements of [compareCursors];
    [None] when it runs to its end without returning. *)
Fixpoint compareCommon (a b : list nat) : option Z :=
  match a, b with
  | x :: a', y :: b' =>
      if x <? y then Some (-1)%Z
      else if y <? x then Some 1%Z
      else compareCommon a' b'
  | _, _ => None
  end.

Definition compareCursors (a b : CursorPosition) : Z :=
  match compareCommon (path a) (path b) with
  | Some r => r
  | None =>
      if length (path a) =? length (path b) then
        if offset a <? offset b then (-1)%Z
        else if offset b <? offset a then 1%Z
        else 0%Z
      else if length (path a) <? length (path b) then
        let nextIdx := nth (length (path a)) (path b) 0 in
        if offset a <=? nextIdx then (-1)%Z else 1%Z
      else
        let nextIdx := nth (length (path b)) (path a) 0 in
        if offset b <=? nextIdx then 1%Z else (-1)%Z
  end.

Definition cursorsEqual (a b : CursorPosition) : bool :=
  (compareCursors a b =? 0)%Z.

Definition isBefore (a b : CursorPosition) : bool :=
  (compareCursors a b =? -1)%Z.

(** [p] is a strict prefix of [q]. *)
Definition strictPrefix (p q : list nat) : Prop :=
  exists i rest, q = p ++ i :: rest.

Lemma compareCommon_prefix p rest : compareCommon p (p ++ rest) = None.
Proof.
  induction p as [|x p IH]; simpl.
  - destruct rest; reflexivity.
  - rewrite Nat.ltb_irrefl. exact IH.
Qed.

Lemma compareCommon_prefix_r p rest : compareCommon (p ++ rest) p = None.
Proof.
  induction p as [|x p IH]; simpl.
  - destruct rest; reflexivity.
  - rewrite Nat.ltb_irrefl. exact IH.
Qed.

Lemma compareCommon_refl p : compareCommon p p = None.
Proof.
  rewrite <- (app_nil_r p) at 2. apply compareCommon_prefix.
Qed.

Lemma compare_prefix_left p i rest oa ob :
  compareCursors (cursor p oa) (cursor (p ++ i :: rest) ob)
  = if oa <=? i then (-1)%Z else 1%Z.
Proof.
  unfold compareCursors; simpl.
  rewrite compareCommon_prefix, length_app; simpl.
  replace (length p =? length p + S (length rest)) with false
    by (symmetry; apply Nat.eqb_neq; lia).
  replace (length p <? length p + S (length rest)) with true
    by (symmetry; apply Nat.ltb_lt; lia).
  rewrite app_nth2 by lia. rewrite Nat.sub_diag. reflexivity.
Qed.

Lemma compare_prefix_right p i rest oa ob :
  compareCursors (cursor (p ++ i :: rest) oa) (cursor p ob)
  = if ob <=? i then 1%Z else (-1)%Z.
Proof.
  unfold compareCursors; simpl.
  rewrite compareCommon_prefix_r, length_app; simpl.
  replace (length p + S (length rest) =? length p) with false
    by (symmetry; apply Nat.eqb_neq; lia).
  replace (length p + S (length rest) <? length p) with false
    by (symmetry; apply Nat.ltb_ge; lia).
  rewrite app_nth2 by lia. rewrite Nat.sub_diag. reflexivity.
Qed.

Lemma compare_same_path p oa ob :
  compareCursors (cursor p oa) (cursor p ob)
  = if oa <? ob then (-1)%Z else if ob <? oa then 1%Z else 0%Z.
Proof.
  unfold compareCursors; simpl.
  rewrite compareCommon_refl, Nat.eqb_refl. reflexivity.
Qed.

(** C4.  [compareCursors] follows the prefix rule: when the path of [a]
    is a strict prefix of the path of [b], [a] precedes [b] exactly when
    its offset is at most the index of [b] at depth [length (path a)],
    and follows it otherwise; symmetrically when the path of [b] is the
    prefix; cursors on the same path compare by offset; and the cursor
    [{path: [], offset: 1}] is strictly before [{path: [1,0], offset: 1}]. *)
Theorem compareCursors_prefix_rule :
  (forall a b, strictPrefix (path a) (path b) ->
     let nextIdx := nth (length (path a)) (path b) 0 in
     (compareCursors a b = (-1)%Z <-> offset a <= nextIdx) /\
     (compareCursors a b = 1%Z <-> nextIdx < offset a) /\
     (compareCursors b a = 1%Z <-> offset a <= nextIdx) /\
     (compareCursors b a = (-1)%Z <-> nextIdx < offset a)) /\
  (forall a b, path a = path b ->
     (compareCursors a b = (-1)%Z <-> offset a < offset b) /\
     (compareCursors a b = 0%Z <-> offset a = offset b) /\
     (compareCursors a b = 1%Z <-> offset b < offset a)) /\
  compareCursors (cursor [] 1) (cursor [1; 0] 1) = (-1)%Z /\
  isBefore (cursor [] 1) (cursor [1; 0] 1) = true /\
  compareCursors (cursor [1; 0] 1) (cursor [] 1) = 1%Z.
Proof.
  split; [|split; [|repeat split]].
  - intros [pa oa] [pb ob] (i & rest & E); simpl in *; subst pb.
    rewrite app_nth2 by lia. rewrite Nat.sub_diag; simpl.
    rewrite compare_prefix_left, compare_prefix_right.
    destruct (Nat.leb_spec oa i); repeat split; intros; try lia; try discriminate.
  - intros [pa oa] [pb ob] E; simpl in *; subst pb.
    rewrite compare_same_path.
    destruct (Nat.ltb_spec oa ob); [|destruct (Nat.ltb_spec ob oa)];
      repeat split; intros; try lia; try discriminate.
Qed.

Lemma compareCursors_prefix_rule_witness :
  let a := cursor [2] 1 in
  let b := cursor [2; 1; 0] 4 in
  strictPrefix (path a) (path b) /\
  (compareCursors a b = (-1)%Z <-> offset a <= nth (length (path a)) (path b) 0).
Proof.
  assert (H : strictPrefix [2] [2; 1; 0]) by (exists 1, [0]; reflexivity).
  split; [exact H|].
  exact (proj1 (proj1 compareCursors_prefix_rule (cursor [2] 1) (cursor [2; 1; 0] 4) H)).
Defined.

End Cursor.

(* ================================================================== *)
(** ** Selections ([src/core/selection.ts]) *)
(* ================================================================== *)

Module Selection.
Import Cursor.

Record Selection := { anchor : CursorPosition; focus : CursorPosition }.

Definition collapsedSelection (pos : CursorPosition) : Selection :=
  {| anchor := pos; focus := pos |}.

Definition isCollapsed (sel : Selection) : bool :=
  cursorsEqual (anchor sel) (focus sel).

Definition getStart (sel : Selection) : CursorPosition :=
  if (compareCursors (anchor sel) (focus sel) <=? 0)%Z
  then anchor sel else focus sel.

Definition getEnd (sel : Selection) : CursorPosition :=
  if (compareCursors (anchor sel) (focus sel) >=? 0)%Z
  then anchor sel else focus sel.

Definition extendTo (sel : Selection) (newFocus : CursorPosition) : Selection :=
  {| anchor := anchor sel; focus := newFocus |}.

Lemma isCollapsed_collapsed pos : isCollapsed (collapsedSelection pos) = true.
Proof.
  destruct pos as [p o]. unfold isCollapsed, cursorsEqual; simpl.
  rewrite compare_same_path, Nat.ltb_irrefl. reflexivity.
Qed.

End Selection.

(* ================================================================== *)
(** ** Editor state and history ([src/core/model.ts]) *)
(* ================================================================== *)

Module Model.
Import Ast Cursor Selection.

Record EditorState := { root : MathNode; selection : Selection }.

Record History :=
  { past : list EditorState; present : EditorState; future : list EditorState }.

(** Both options may be left out. *)
Record HistoryOptions := { maxHistory : option Z; merge : option bool }.

Definition noOptions : HistoryOptions := {| maxHistory := None; merge := None |}.

Definition createEmptyState : EditorState :=
  {| root := node.row [node.placeholder];
     selection := collapsedSelection (cursor [] 0) |}.

Definition createHistory (initial : EditorState) : History :=
  {| past := []; present := initial; future := [] |}.

Definition updateRoot (state : EditorState) (newRoot : MathNode) : EditorState :=
  {| root := newRoot; selection := selection state |}.

Definition updateSelection (state : EditorState) (newSelection : Selection)
  : EditorState :=
  {| root := root state; selection := newSelection |}.

Definition updateState (state : EditorState) (newRoot : MathNode)
           (newSelection : Selection) : EditorState :=
  {| root := newRoot; selection := newSelection |}.

Definition DEFAULT_MAX_HISTORY : Z := 100.

Definition pushHistory (history : History) (newState : EditorState)
           (options : HistoryOptions) : History :=
  let maxHistory :=
    match maxHistory options with Some m => m | None => DEFAULT_MAX_HISTORY end in
  let merge := match merge options with Some m => m | None => false end in
  if merge && (0 <? length (past history)) then
    {| past := past history; present := newState; future := [] |}
  else
    let newPast := past history ++ [present history] in
    let newPast :=
      if (maxHistory <? Z.of_nat (length newPast))%Z
      then Js.sliceFrom (Z.to_nat (Z.of_nat (length newPast) - maxHistory)) newPast
      else newPast in
    {| past := newPast; present := newState; future := [] |}.

Definition undo (history : History) : History :=
  match past history with
  | [] => history
  | _ :: _ =>
      let previous := last (past history) (present history) in
      let newPast := removelast (past history) in
      {| past := newPast;
         present := previous;
         future := present history :: future history |}
  end.

Definition redo (history : History) : History :=
  match future history with
  | [] => history
  | next :: newFuture =>
      {| past := past history ++ [present history];
         present := next;
         future := newFuture |}
  end.

Definition canUndo (history : History) : bool := 0 <? length (past history).

Definition canRedo (history : History) : bool := 0 <? length (future history).

Definition clearHistory (history : History) : History :=
  {| past := []; present := present history; future := [] |}.

Lemma pushHistory_future h s o : future (pushHistory h s o) = [].
Proof.
  unfold pushHistory.
  destruct (match merge o with Some m => m | None => false end
            && (0 <? length (past h))); reflexivity.
Qed.

Lemma pushHistory_present h s o : present (pushHistory h s o) = s.
Proof.
  unfold pushHistory.
  destruct (match merge o with Some m => m | None => false end
            && (0 <? length (past h))); reflexivity.
Qed.

(** C3.  Whatever the options, a push leaves the redo stack empty, so
    [canRedo] is false and [redo] does nothing; in particular after
    push [s1], undo, push [s2] from [createHistory s0] the undo restored
    [s0] with [s1] as its only redo entry, and after the second push
    [canRedo] is false and [redo] keeps [s2] as the present state. *)
Theorem pushHistory_clears_future :
  (forall h s o,
      future (pushHistory h s o) = [] /\
      canRedo (pushHistory h s o) = false /\
      redo (pushHistory h s o) = pushHistory h s o) /\
  (forall s0 s1 s2 o1 o2,
      let h1 := undo (pushHistory (createHistory s0) s1 o1) in
      let h2 := pushHistory h1 s2 o2 in
      ((0 < match maxHistory o1 with Some m => m | None => 100%Z end)%Z ->
       present h1 = s0 /\ future h1 = [s1]) /\
      canRedo h2 = false /\
      future h2 = [] /\
      present (redo h2) = s2 /\
      ~ In s1 (future h2)).
Proof.
  split.
  - intros h s o. pose proof (pushHistory_future h s o) as F.
    repeat split; auto.
    + unfold canRedo. rewrite F. reflexivity.
    + unfold redo. rewrite F. reflexivity.
  - intros s0 s1 s2 o1 o2 h1 h2. subst h2.
    pose proof (pushHistory_future h1 s2 o2) as F.
    repeat split.
    + unfold h1, pushHistory, createHistory, undo; simpl.
      rewrite andb_false_r; simpl.
      destruct (maxHistory o1) as [m|]; simpl in *.
      * destruct (Z.ltb_spec m 1); [lia|]. reflexivity.
      * reflexivity.
    + unfold h1, pushHistory, createHistory, undo; simpl.
      rewrite andb_false_r; simpl.
      destruct (maxHistory o1) as [m|]; simpl in *.
      * destruct (Z.ltb_spec m 1); [lia|]. reflexivity.
      * reflexivity.
    + unfold canRedo. rewrite F. reflexivity.
    + exact F.
    + unfold redo. rewrite F. apply pushHistory_present.
    + rewrite F. intros [].
Qed.

Lemma pushHistory_clears_future_witness :
  let s0 := createEmptyState in
  let s1 := updateRoot s0 (node.row [node.symbol "x"]) in
  let s2 := updateRoot s0 (node.row [node.symbol "y"]) in
  let h1 := undo (pushHistory (createHistory s0) s1 noOptions) in
  (present h1 = s0 /\ future h1 = [s1]) /\
  canRedo (pushHistory h1 s2 noOptions) = false.
Proof.
  pose proof (proj2 pushHistory_clears_future createEmptyState
                (updateRoot createEmptyState (node.row [node.symbol "x"]))
                (updateRoot createEmptyState (node.row [node.symbol "y"]))
                noOptions noOptions) as H.
  simpl in H. destruct H as (H1 & H2 & _).
  split.
  - apply H1; reflexivity.
  - exact H2.
Defined.

(** C10.  On a history with a non-empty past, [redo] undoes [undo]; on
    one with a non-empty future, [undo] undoes [redo]. *)
Theorem undo_redo_inverse :
  (forall h, past h <> [] -> redo (undo h) = h) /\
  (forall h, future h <> [] -> undo (redo h) = h).
Proof.
  split.
  - intros [p s f] Hp; simpl in Hp.
    destruct p as [|x p']; [contradiction|].
    unfold undo; cbn [past present future].
    unfold redo; cbn [past present future].
    f_equal. symmetry. apply app_removelast_last. discriminate.
  - intros [p s f] Hf; simpl in Hf.
    destruct f as [|n f']; [contradiction|].
    unfold redo; cbn [past present future].
    unfold undo; cbn [past present future].
    destruct (p ++ [s]) eqn:E; [destruct p; discriminate|].
    rewrite <- E. rewrite removelast_last, last_last. reflexivity.
Qed.

Lemma undo_redo_inverse_witness :
  let s0 := createEmptyState in
  let s1 := updateRoot s0 (node.row [node.symbol "x"]) in
  let h := {| past := [s0]; present := s1; future := [] |} in
  let h' := {| past := []; present := s0; future := [s1] |} in
  (past h <> [] /\ redo (undo h) = h) /\
  (future h' <> [] /\ undo (redo h') = h').
Proof.
  split; (split; [discriminate|]).
  - apply (proj1 undo_redo_inverse); discriminate.
  - apply (proj2 undo_redo_inverse); discriminate.
Defined.

End Model.

(* ================================================================== *)
(** ** The tokenizer ([src/parser/tokens.ts]) *)
(* ================================================================== *)

Module Tokens.

Inductive TokenType :=
| command | text | number | operator | superscript | subscript
| openBrace | closeBrace | openBracket | closeBracket | openParen | closeParen
| pipe | ampersand | newline | whitespace | eof.

Definition TokenType_eqb (a b : TokenType) : bool :=
  match a, b with
  | command, command | text, text | number, number | operator, operator
  | superscript, superscript | subscript, subscript
  | openBrace, openBrace | closeBrace, closeBrace
  | openBracket, openBracket | closeBracket, closeBracket
  | openParen, openParen | closeParen, closeParen
  | pipe, pipe | ampersand, ampersand | newline, newline
  | whitespace, whitespace | eof, eof => true
  | _, _ => false
  end.

(** The name a token type has as a JavaScript string. *)
Definition typeName (t : TokenType) : string :=
  match t with
  | command => "command" | text => "text" | number => "number"
  | operator => "operator" | superscript => "superscript"
  | subscript => "subscript" | openBrace => "openBrace"
  | closeBrace => "closeBrace" | openBracket => "openBracket"
  | closeBracket => "closeBracket" | openParen => "openParen"
  | closeParen => "closeParen" | pipe => "pipe" | ampersand => "ampersand"
  | newline => "newline" | whitespace => "whitespace" | eof => "eof"
  end.

Record Token := { type : TokenType; value : string; position : Z }.

(** Character classes of the regular expressions [\s], [[0-9]],
    [[0-9.]] and [[a-zA-Z]], on code units below 256. *)
Definition isSpace (c : ascii) : bool :=
  let n := nat_of_ascii c in
  ((9 <=? n) && (n <=? 13)) || (n =? 32) || (n =? 160).

Definition isDigit (c : ascii) : bool :=
  let n := nat_of_ascii c in (48 <=? n) && (n <=? 57).

Definition isDigitOrDot (c : ascii) : bool := isDigit c || Ascii.eqb c ".".

Definition isLetter (c : ascii) : bool :=
  let n := nat_of_ascii c in
  ((65 <=? n) && (n <=? 90)) || ((97 <=? n) && (n <=? 122)).

(** The longest prefix of [l] whose characters satisfy [p], and what
    follows it: the [while (... && p(source[position])) position++]
    loops. *)
Fixpoint span (p : ascii -> bool) (l : list ascii) : list ascii * list ascii :=
  match l with
  | [] => ([], [])
  | c :: t =>
      if p c then let (taken, rest) := span p t in (c :: taken, rest)
      else ([], l)
  end.

(** The [switch (char)] of [nextToken]. *)
Definition special (c : ascii) : option TokenType :=
  if Ascii.eqb c "{" then Some openBrace
  else if Ascii.eqb c "}" then Some closeBrace
  else if Ascii.eqb c "[" then Some openBracket
  else if Ascii.eqb c "]" then Some closeBracket
  else if Ascii.eqb c "(" then Some openParen
  else if Ascii.eqb c ")" then Some closeParen
  else if Ascii.eqb c "^" then Some superscript
  else if Ascii.eqb c "_" then Some subscript
  else if Ascii.eqb c "&" then Some ampersand
  else if Ascii.eqb c "|" then Some pipe
  else if Ascii.eqb c "+" || Ascii.eqb c "-" || Ascii.eqb c "="
          || Ascii.eqb c "<" || Ascii.eqb c ">" || Ascii.eqb c "*"
          || Ascii.eqb c "/" || Ascii.eqb c "!" || Ascii.eqb c "'"
          || Ascii.eqb c "," || Ascii.eqb c "." || Ascii.eqb c ":"
          || Ascii.eqb c ";"
       then Some operator
  else None.

Definition backslash : ascii := "\".

(** The tokenizer state is the unread part of the source and the
    position of its first character.  Each reader returns the token, the
    unread rest and the new position. *)
Definition Tokenizer : Type := list ascii * nat.

Definition readWhitespace (c : ascii) (rest : list ascii) (start : nat)
  : Token * Tokenizer :=
  let (taken, rest') := span isSpace rest in
  ({| type := whitespace;
      value := string_of_list_ascii (c :: taken);
      position := Z.of_nat start |},
   (rest', start + 1 + length taken)).

Definition readCommand (rest : list ascii) (start : nat) : Token * Tokenizer :=
  match rest with
  | nextChar :: rest' =>
      if Ascii.eqb nextChar backslash then
        ({| type := newline;
            value := String backslash (String backslash EmptyString);
            position := Z.of_nat start |},
         (rest', start + 2))
      else if negb (isLetter nextChar) then
        ({| type := command;
            value := String backslash (String nextChar EmptyString);
            position := Z.of_nat start |},
         (rest', start + 2))
      else
        let (cmdName, rest'') := span isLetter rest in
        ({| type := command;
            value := String backslash (string_of_list_ascii cmdName);
            position := Z.of_nat start |},
         (rest'', start + 1 + length cmdName))
  | [] =>
      ({| type := command;
          value := String backslash EmptyString;
          position := Z.of_nat start |},
       ([], start + 1))
  end.

Definition readNumber (c : ascii) (rest : list ascii) (start : nat)
  : Token * Tokenizer :=
  let (taken, rest') := span isDigitOrDot rest in
  ({| type := number;
      value := string_of_list_ascii (c :: taken);
      position := Z.of_nat start |},
   (rest', start + 1 + length taken)).

Definition single (ty : TokenType) (c : ascii) (rest : list ascii) (start : nat)
  : Token * Tokenizer :=
  ({| type := ty; value := String c EmptyString; position := Z.of_nat start |},
   (rest, start + 1)).

Definition nextToken (c : ascii) (rest : list ascii) (start : nat)
  : Token * Tokenizer :=
  if isSpace c then readWhitespace c rest start
  else if Ascii.eqb c backslash then readCommand rest start
  else if isDigit c then readNumber c rest start
  else match special c with
       | Some ty => single ty c rest start
       | None =>
           if isLetter c then single text c rest start
           else single text c rest start
       end.

(** The [while (position < source.length)] loop.  Every round consumes
    at least one character; [fuel] bounds the rounds, and [None] means
    it ran out with input left. *)
Fixpoint tokenizeLoop (fuel : nat) (src : list ascii) (pos : nat)
  : option (list Token) :=
  match src with
  | [] => Some [{| type := eof; value := ""; position := Z.of_nat pos |}]
  | c :: rest =>
      match fuel with
      | 0 => None
      | S fuel' =>
          let '(token, (rest', pos')) := nextToken c rest pos in
          option_map (cons token) (tokenizeLoop fuel' rest' pos')
      end
  end.

Definition tokenize (source : string) : option (list Token) :=
  tokenizeLoop (String.length source) (list_ascii_of_string source) 0.

(** The tokens [toks] tile the source from position [pos] on: each
    starts where the one before it ended and spans at least one
    character. *)
Fixpoint tiles (pos : nat) (toks : list Token) : Prop :=
  match toks with
  | [] => True
  | t :: ts =>
      position t = Z.of_nat pos /\
      type t <> eof /\
      0 < String.length (value t) /\
      tiles (pos + String.length (value t)) ts
  end.

Definition sourceOf (toks : list Token) : string :=
  fold_right (fun t acc => String.append (value t) acc) "" toks.

Lemma span_app p l :
  let (taken, rest) := span p l in l = taken ++ rest.
Proof.
  induction l as [|c t IH]; simpl; [reflexivity|].
  destruct (p c); [|reflexivity].
  destruct (span p t) as [tk rs]. simpl. now rewrite IH.
Qed.

Lemma string_list_length l : String.length (string_of_list_ascii l) = length l.
Proof. induction l; simpl; auto. Qed.

Lemma list_string_length s : length (list_ascii_of_string s) = String.length s.
Proof. induction s; simpl; auto. Qed.

Lemma list_of_string_app s l :
  list_ascii_of_string (String.append s (string_of_list_ascii l))
  = list_ascii_of_string s ++ l.
Proof.
  induction s as [|c s IH]; simpl.
  - apply list_ascii_of_string_of_list_ascii.
  - now rewrite IH.
Qed.

(** What one call of [nextToken] does: the token's text is a non-empty
    prefix of the unread source, the rest follows it, and the position
    advances by its length. *)
Lemma nextToken_spec c rest start :
  let '(tok, (rest', pos')) := nextToken c rest start in
  c :: rest = list_ascii_of_string (value tok) ++ rest' /\
  position tok = Z.of_nat start /\
  type tok <> eof /\
  0 < String.length (value tok) /\
  pos' = start + String.length (value tok) /\
  length rest' <= length rest.
Proof.
  unfold nextToken.
  destruct (isSpace c).
  { unfold readWhitespace. pose proof (span_app isSpace rest) as H.
    destruct (span isSpace rest) as [tk rs]. cbn [value type position].
    rewrite list_ascii_of_string_of_list_ascii, string_list_length.
    subst rest. rewrite length_app. simpl.
    repeat split; try discriminate; lia. }
  destruct (Ascii.eqb_spec c backslash) as [->|Hc].
  { unfold readCommand. destruct rest as [|n rest'].
    - simpl. repeat split; try discriminate; lia.
    - destruct (Ascii.eqb_spec n backslash) as [->|Hn].
      + simpl. repeat split; try discriminate; lia.
      + destruct (isLetter n) eqn:L; cbn [negb].
        * pose proof (span_app isLetter (n :: rest')) as H.
          destruct (span isLetter (n :: rest')) as [tk rs].
          cbn [value type position]. rewrite H.
          simpl. rewrite list_ascii_of_string_of_list_ascii, string_list_length.
          rewrite length_app.
          repeat split; try discriminate; lia.
        * simpl. repeat split; try discriminate; lia. }
  destruct (isDigit c).
  { unfold readNumber. pose proof (span_app isDigitOrDot rest) as H.
    destruct (span isDigitOrDot rest) as [tk rs]. cbn [value type position].
    rewrite list_ascii_of_string_of_list_ascii, string_list_length.
    subst rest. rewrite length_app. simpl.
    repeat split; try discriminate; lia. }
  assert (S1 : forall ty, ty <> eof ->
      let '(tok, (rest', pos')) := single ty c rest start in
      c :: rest = list_ascii_of_string (value tok) ++ rest' /\
      position tok = Z.of_nat start /\ type tok <> eof /\
      0 < String.length (value tok) /\
      pos' = start + String.length (value tok) /\
      length rest' <= length rest).
  { intros ty Hty. simpl. repeat split; auto; lia. }
  destruct (special c) as [ty|] eqn:E.
  - apply S1. unfold special in E.
    repeat match type of E with
           | (if ?b then _ else _) = _ => destruct b
           end; inversion E; discriminate.
  - destruct (isLetter c); apply S1; discriminate.
Qed.

Lemma tokenizeLoop_spec fuel : forall src pos,
  length src <= fuel ->
  exists toks,
    tokenizeLoop fuel src pos
    = Some (toks ++ [{| type := eof; value := "";
                        position := Z.of_nat (pos + length src) |}]) /\
    list_ascii_of_string (sourceOf toks) = src /\
    tiles pos toks.
Proof.
  induction fuel as [|fuel IH]; intros src pos Hlen.
  - destruct src; [|simpl in Hlen; lia].
    exists []. simpl. rewrite Nat.add_0_r. auto.
  - destruct src as [|c rest].
    + exists []. simpl. rewrite Nat.add_0_r. auto.
    + simpl. pose proof (nextToken_spec c rest pos) as H.
      destruct (nextToken c rest pos) as [tok [rest' pos']].
      destruct H as (Hsrc & Hpos & Hty & Hne & Hpos' & Hle).
      destruct (IH rest' pos') as (toks & Hrun & Hcat & Htile);
        [simpl in Hlen; lia|].
      assert (Hl : length (c :: rest)
                   = String.length (value tok) + length rest').
      { rewrite Hsrc, length_app, list_string_length. reflexivity. }
      replace (pos' + length rest') with (pos + length (c :: rest)) in Hrun
        by lia.
      exists (tok :: toks). rewrite Hrun. cbn [option_map app tiles sourceOf fold_right].
      fold (sourceOf toks).
      repeat split; auto.
      * rewrite <- (string_of_list_ascii_of_string (sourceOf toks)).
        rewrite list_of_string_app, Hcat. symmetry. exact Hsrc.
      * subst pos'. exact Htile.
Qed.

(** An unrecognized character: not white space, not a backslash, not a
    digit, not one of the characters of the [switch]. *)
Definition unrecognized (c : ascii) : bool :=
  negb (isSpace c) && negb (Ascii.eqb c backslash) && negb (isDigit c)
  && match special c with Some _ => false | None => true end
  && negb (isLetter c).

(** C6.  [tokenize] returns on every source string: the result ends
    with the end-of-input token at the end position, the tokens before
    it tile the source (each starts where the previous one ended and is
    non-empty, and their texts concatenate to the source, so every
    character lies in exactly one token), and a character of no
    recognized class becomes a [text] token of that one character. *)
Theorem tokenize_total :
  (forall source, exists toks,
      tokenize source
      = Some (toks ++ [{| type := eof; value := "";
                          position := Z.of_nat (String.length source) |}]) /\
      sourceOf toks = source /\
      tiles 0 toks) /\
  (forall c rest start, unrecognized c = true ->
      nextToken c rest start
      = ({| type := text; value := String c EmptyString;
            position := Z.of_nat start |}, (rest, start + 1))).
Proof.
  split.
  - intros source. unfold tokenize.
    destruct (tokenizeLoop_spec (String.length source)
                (list_ascii_of_string source) 0) as (toks & H1 & H2 & H3).
    { rewrite list_string_length. lia. }
    exists toks. rewrite list_string_length in H1. simpl in H1.
    repeat split; auto.
    rewrite <- (string_of_list_ascii_of_string (sourceOf toks)), H2.
    apply string_of_list_ascii_of_string.
  - intros c rest start H. unfold unrecognized in H.
    repeat (apply andb_prop in H; destruct H as [H ?]).
    unfold nextToken.
    destruct (isSpace c); [discriminate|].
    destruct (Ascii.eqb c backslash); [discriminate|].
    destruct (isDigit c); [discriminate|].
    destruct (special c); [discriminate|].
    destruct (isLetter c); [discriminate|]. reflexivity.
Qed.

Lemma tokenize_total_witness :
  unrecognized "#" = true /\
  nextToken "#" ["x"%char] 3
  = ({| type := text; value := "#"; position := 3 |}, (["x"%char], 4)).
Proof.
  split; [reflexivity|].
  apply (proj2 tokenize_total "#"%char ["x"%char] 3). reflexivity.
Defined.

End Tokens.

(* ================================================================== *)
(** ** Outcomes of code that can throw or run forever *)
(* ================================================================== *)

Module Outcome.

Inductive Error :=
| ErrExpected (what : Tokens.TokenType)   (* TokenStream.expect *)
| ErrExpectedValue (what : string)        (* TokenStream.expectValue *)
| ErrUnexpectedToken                      (* trailing tokens in parse() *)
| ErrInvalidDelimiter
| ErrUnknownEnvironment (name : string)
| ErrEnvironmentMismatch
| TypeError.                              (* property read on undefined *)

Inductive outcome (A : Type) : Type :=
| Ok (a : A)
| Throw (e : Error)
| OutOfFuel.
Arguments Ok {A} a.
Arguments Throw {A} e.
Arguments OutOfFuel {A}.

Definition bind {A B} (m : outcome A) (k : A -> outcome B) : outcome B :=
  match m with
  | Ok a => k a
  | Throw e => Throw e
  | OutOfFuel => OutOfFuel
  end.

Module Notations.
Notation "x <- m ;; k" := (bind m (fun x => k))
  (at level 61, m at next level, right associativity).
Notation "' p <- m ;; k" := (bind m (fun x => match x with p => k end))
  (at level 61, p pattern, m at next level, right associativity).
End Notations.

End Outcome.

(* ================================================================== *)
(** ** The parser ([src/parser/latex-to-ast.ts]) *)
(* ================================================================== *)

Module Parser.
Import Ast Tokens Outcome Outcome.Notations.

Definition has (set : list string) (x : string) : bool :=
  existsb (String.eqb x) set.

Definition GREEK_LETTERS : list string :=
  [ "alpha"; "beta"; "gamma"; "delta"; "epsilon"; "zeta"; "eta"; "theta";
    "iota"; "kappa"; "lambda"; "mu"; "nu"; "xi"; "omicron"; "pi";
    "rho"; "sigma"; "tau"; "upsilon"; "phi"; "chi"; "psi"; "omega";
    "Alpha"; "Beta"; "Gamma"; "Delta"; "Epsilon"; "Zeta"; "Eta"; "Theta";
    "Iota"; "Kappa"; "Lambda"; "Mu"; "Nu"; "Xi"; "Omicron"; "Pi";
    "Rho"; "Sigma"; "Tau"; "Upsilon"; "Phi"; "Chi"; "Psi"; "Omega";
    "varepsilon"; "vartheta"; "varpi"; "varrho"; "varsigma"; "varphi" ].

Definition OPERATORS : list string :=
  [ "times"; "div"; "cdot"; "pm"; "mp"; "ast"; "star"; "circ"; "bullet";
    "oplus"; "ominus"; "otimes"; "oslash"; "odot";
    "le"; "leq"; "ge"; "geq"; "neq"; "ne"; "approx"; "equiv"; "sim"; "simeq";
    "ll"; "gg"; "subset"; "supset"; "subseteq"; "supseteq"; "in"; "notin"; "ni";
    "cup"; "cap"; "setminus"; "emptyset"; "varnothing";
    "forall"; "exists"; "nexists"; "neg"; "land"; "lor"; "implies"; "iff";
    "to"; "gets"; "leftarrow"; "rightarrow"; "leftrightarrow";
    "Leftarrow"; "Rightarrow"; "Leftrightarrow";
    "infty"; "partial"; "nabla"; "degree";
    "ldots"; "cdots"; "vdots"; "ddots";
    "mapsto"; "longmapsto";
    "uparrow"; "downarrow"; "updownarrow";
    "Uparrow"; "Downarrow"; "Updownarrow";
    "nearrow"; "searrow"; "swarrow"; "nwarrow";
    "propto"; "cong"; "mid";
    "%" ].

Definition FUNCTIONS : list string :=
  [ "sin"; "cos"; "tan"; "cot"; "sec"; "csc";
    "arcsin"; "arccos"; "arctan"; "arccot";
    "sinh"; "cosh"; "tanh"; "coth";
    "log"; "ln"; "lg"; "exp";
    "lim"; "limsup"; "liminf";
    "min"; "max"; "sup"; "inf";
    "det"; "dim"; "ker"; "hom"; "arg";
    "deg"; "gcd"; "lcm"; "mod"; "bmod"; "pmod";
    "Pr" ].

Definition LARGE_OPERATORS : list string :=
  [ "sum"; "prod"; "coprod"; "int"; "oint"; "iint"; "iiint";
    "bigcup"; "bigcap"; "bigoplus"; "bigotimes"; "bigvee"; "bigwedge" ].

Definition SPACE_COMMANDS (v : string) : option SpaceSize :=
  if String.eqb v "\," then Some thin
  else if String.eqb v "\:" then Some medium
  else if String.eqb v "\;" then Some thick
  else if String.eqb v "\quad" then Some quad
  else if String.eqb v "\qquad" then Some qquad
  else None.

Definition MATRIX_ENVIRONMENTS : list string :=
  [ "matrix"; "pmatrix"; "bmatrix"; "Bmatrix"; "vmatrix"; "Vmatrix"; "array" ].

(** *** The token stream: the tokens from the current position on *)

Definition TokenStream : Type := list Token.

Definition peek (s : TokenStream) : Token :=
  match s with
  | t :: _ => t
  | [] => {| type := eof; value := ""; position := (-1)%Z |}
  end.

Definition next (s : TokenStream) : Token * TokenStream := (peek s, tl s).

(** [TokenStream.is] *)
Definition isType (ty : TokenType) (s : TokenStream) : bool :=
  TokenType_eqb (type (peek s)) ty.

Definition isValue (ty : TokenType) (v : string) (s : TokenStream) : bool :=
  TokenType_eqb (type (peek s)) ty && String.eqb (value (peek s)) v.

Definition expect (ty : TokenType) (s : TokenStream)
  : outcome (Token * TokenStream) :=
  if negb (TokenType_eqb (type (peek s)) ty) then Throw (ErrExpected ty)
  else Ok (next s).

Definition expectValue (ty : TokenType) (v : string) (s : TokenStream)
  : outcome (Token * TokenStream) :=
  if negb (TokenType_eqb (type (peek s)) ty) || negb (String.eqb (value (peek s)) v)
  then Throw (ErrExpectedValue v)
  else Ok (next s).

Fixpoint skipWhitespace (s : TokenStream) : TokenStream :=
  match s with
  | t :: rest =>
      if TokenType_eqb (type t) whitespace then skipWhitespace rest else s
  | [] => []
  end.

Definition isEof (s : TokenStream) : bool := isType eof s.

(** The loops [while (!is('closeBrace') && !isEof()) text += next().value]
    of [parseText], [parseEnvironment] and [parseMatrix]. *)
Fixpoint readUntilCloseBrace (s : TokenStream) : string * TokenStream :=
  match s with
  | [] => ("", [])
  | t :: rest =>
      if TokenType_eqb (type t) closeBrace || TokenType_eqb (type t) eof
      then ("", s)
      else let (txt, s') := readUntilCloseBrace rest in
           (String.append (value t) txt, s')
  end.

(** [token.value.slice(1)] *)
Definition slice1 (v : string) : string :=
  match v with
  | EmptyString => EmptyString
  | String _ r => r
  end.

Definition PResult (A : Type) : Type := outcome (A * TokenStream).

(** The row simplification at the end of [parseRow]. *)
Definition simplifyRow (children : list MathNode) : MathNode :=
  match children with
  | [] => node.placeholder
  | [child] => child
  | _ => node.row children
  end.

Definition parseOperator (s : TokenStream) : PResult MathNode :=
  let (token, s) := next s in
  Ok (node.operator (value token), s).

Definition parseText (s : TokenStream) : PResult MathNode :=
  let s := skipWhitespace s in
  '(_, s) <- expect openBrace s ;;
  let (txt, s) := readUntilCloseBrace s in
  '(_, s) <- expect closeBrace s ;;
  Ok (node.text txt, s).

Definition parseDelimiter (s : TokenStream) : PResult string :=
  let s := skipWhitespace s in
  let (token, s) := next s in
  match type token with
  | openParen => Ok ("(", s)
  | closeParen => Ok (")", s)
  | openBracket => Ok ("[", s)
  | closeBracket => Ok ("]", s)
  | pipe => Ok ("|", s)
  | operator =>
      if String.eqb (value token) "." then Ok (".", s)
      else Throw ErrInvalidDelimiter
  | command =>
      let cmd := slice1 (value token) in
      if String.eqb cmd "langle" then Ok ("\langle", s)
      else if String.eqb cmd "rangle" then Ok ("\rangle", s)
      else if String.eqb cmd "{" || String.eqb cmd "lbrace" then Ok ("{", s)
      else if String.eqb cmd "}" || String.eqb cmd "rbrace" then Ok ("}", s)
      else if String.eqb cmd "|" || String.eqb cmd "vert" then Ok ("|", s)
      else if String.eqb cmd "Vert" || String.eqb cmd "|" then Ok ("\|", s)
      else Throw ErrInvalidDelimiter
  | _ => Throw ErrInvalidDelimiter
  end.

(** The productions, over the three that close the recursion:
    [parseRow], [parseCommand] and [parseMatrix]. *)
Section Productions.
Variable parseRow : list string -> TokenStream -> PResult MathNode.
Variable parseCommand : TokenStream -> PResult MathNode.
Variable parseMatrix : string -> TokenStream -> PResult MathNode.

Definition parseGroup (s : TokenStream) : PResult MathNode :=
  '(_, s) <- expect openBrace s ;;
  '(content, s) <- parseRow [] s ;;
  '(_, s) <- expect closeBrace s ;;
  Ok (content, s).

Definition parseScriptArg (s : TokenStream) : PResult MathNode :=
  let s := skipWhitespace s in
  if isType openBrace s then parseGroup s
  else
    let token := peek s in
    match type token with
    | number => Ok (node.number (value token), snd (next s))
    | text => Ok (node.symbol (value token), snd (next s))
    | command => parseCommand s
    | _ => Ok (node.placeholder, s)
    end.

(** The [while] loop of [parseScript]; [sup] and [sub] are the scripts
    read so far ([hasSuper] and [hasSub] say they are there).  The loop
    reads at most one of each, so three rounds always end it. *)
Fixpoint scriptLoop (rounds : nat) (sup sub : option MathNode) (s : TokenStream)
  : PResult (option MathNode * option MathNode) :=
  if isType superscript s then
    match sup, rounds with
    | Some _, _ => Ok ((sup, sub), s)
    | None, 0 => OutOfFuel
    | None, S rounds' =>
        '(arg, s) <- parseScriptArg (snd (next s)) ;;
        scriptLoop rounds' (Some arg) sub (skipWhitespace s)
    end
  else if isType subscript s then
    match sub, rounds with
    | Some _, _ => Ok ((sup, sub), s)
    | None, 0 => OutOfFuel
    | None, S rounds' =>
        '(arg, s) <- parseScriptArg (snd (next s)) ;;
        scriptLoop rounds' sup (Some arg) (skipWhitespace s)
    end
  else Ok ((sup, sub), s).

Definition parseScript (base : MathNode) (s : TokenStream) : PResult MathNode :=
  let s := skipWhitespace s in
  '((sup, sub), s) <- scriptLoop 3 None None s ;;
  match sup, sub with
  | Some sup, Some sub => Ok (node.subsup base sub sup, s)
  | Some sup, None => Ok (node.power base sup, s)
  | None, Some sub => Ok (node.subscript base sub, s)
  | None, None => Ok (base, s)
  end.

Definition parseNumber (s : TokenStream) : PResult MathNode :=
  let (token, s) := next s in
  parseScript (node.number (value token)) s.

Definition parseSymbol (s : TokenStream) : PResult MathNode :=
  let (token, s) := next s in
  parseScript (node.symbol (value token)) s.

Definition parseDelimitedGroup (s : TokenStream) : PResult MathNode :=
  let (token, s) := next s in
  match type token with
  | openParen =>
      '(content, s) <- parseRow [")"] s ;;
      '(_, s) <- expect closeParen s ;;
      parseScript (node.parens content "(" ")" None) s
  | openBracket =>
      '(content, s) <- parseRow ["]"] s ;;
      '(_, s) <- expect closeBracket s ;;
      parseScript (node.parens content "[" "]" None) s
  | pipe =>
      '(content, s) <- parseRow ["|"] s ;;
      '(_, s) <- expect pipe s ;;
      parseScript (node.parens content "|" "|" None) s
  | _ => Throw ErrInvalidDelimiter
  end.

Definition parseFraction (s : TokenStream) : PResult MathNode :=
  let s := skipWhitespace s in
  '(numerator, s) <- parseGroup s ;;
  let s := skipWhitespace s in
  '(denominator, s) <- parseGroup s ;;
  parseScript (node.fraction numerator denominator) s.

Definition parseSqrt (s : TokenStream) : PResult MathNode :=
  let s := skipWhitespace s in
  '(index, s) <-
     (if isType openBracket s then
        '(idx, s) <- parseRow ["]"] (snd (next s)) ;;
        '(_, s) <- expect closeBracket s ;;
        Ok (Some idx, s)
      else Ok (None, s)) ;;
  let s := skipWhitespace s in
  '(radicand, s) <- parseGroup s ;;
  parseScript (node.sqrt radicand index) s.

Definition parseFunction (name : string) (s : TokenStream) : PResult MathNode :=
  parseScript (node.function name None None) s.

Definition parseLargeOperator (name : string) (s : TokenStream)
  : PResult MathNode :=
  let s := skipWhitespace s in
  '(lower, s) <-
     (if isType subscript s then
        '(lo, s) <- parseScriptArg (snd (next s)) ;;
        Ok (Some lo, skipWhitespace s)
      else Ok (None, s)) ;;
  '(upper, s) <-
     (if isType superscript s then
        '(up, s) <- parseScriptArg (snd (next s)) ;;
        Ok (Some up, skipWhitespace s)
      else Ok (None, s)) ;;
  '(lower, s) <-
     (match lower with
      | None =>
          if isType subscript s then
            '(lo, s) <- parseScriptArg (snd (next s)) ;;
            Ok (Some lo, s)
          else Ok (None, s)
      | Some _ => Ok (lower, s)
      end) ;;
  let limits :=
    match lower, upper with
    | None, None => None
    | _, _ => Some (lower, upper)
    end in
  Ok (node.function name None limits, s).

Definition parseLeftRight (s : TokenStream) : PResult MathNode :=
  '(openDelim, s) <- parseDelimiter s ;;
  '(content, s) <- parseRow ["\right"] s ;;
  '(_, s) <- expectValue command "\right" s ;;
  '(closeDelim, s) <- parseDelimiter s ;;
  parseScript (node.parens content openDelim closeDelim (Some auto)) s.

Definition parseEnvironment (s : TokenStream) : PResult MathNode :=
  let s := skipWhitespace s in
  '(_, s) <- expect openBrace s ;;
  let (envName, s) := readUntilCloseBrace s in
  '(_, s) <- expect closeBrace s ;;
  if has MATRIX_ENVIRONMENTS envName then parseMatrix envName s
  else Throw (ErrUnknownEnvironment envName).

Definition parseCommandBody (s : TokenStream) : PResult MathNode :=
  let (token, s) := next s in
  let cmd := slice1 (value token) in
  match SPACE_COMMANDS (value token) with
  | Some size => Ok (node.space size, s)
  | None =>
      if has GREEK_LETTERS cmd then parseScript (node.symbol cmd) s
      else if has OPERATORS cmd then Ok (node.operator cmd, s)
      else if has FUNCTIONS cmd then parseFunction cmd s
      else if has LARGE_OPERATORS cmd then parseLargeOperator cmd s
      else if String.eqb cmd "frac" then parseFraction s
      else if String.eqb cmd "sqrt" then parseSqrt s
      else if String.eqb cmd "text" || String.eqb cmd "textit"
              || String.eqb cmd "textbf" || String.eqb cmd "mathrm"
           then parseText s
      else if String.eqb cmd "left" then parseLeftRight s
      else if String.eqb cmd "begin" then parseEnvironment s
      else if has ["langle"; "rangle"; "lvert"; "rvert"; "lVert"; "rVert";
                   "lfloor"; "rfloor"; "lceil"; "rceil"] cmd
           then Ok (node.operator cmd, s)
      else parseScript (node.symbol cmd) s
  end.

(** [parseAtom]: [None] is the source's [null]. *)
Definition parseAtom (s : TokenStream) : PResult (option MathNode) :=
  let s := skipWhitespace s in
  let some (r : PResult MathNode) : PResult (option MathNode) :=
    '(n, s) <- r ;; Ok (Some n, s) in
  match type (peek s) with
  | number => some (parseNumber s)
  | text => some (parseSymbol s)
  | operator => some (parseOperator s)
  | command => some (parseCommand s)
  | openBrace => some (parseGroup s)
  | openParen | openBracket | pipe => some (parseDelimitedGroup s)
  | superscript | subscript => some (parseScript node.placeholder s)
  | _ => Ok (None, s)
  end.

(** The part of [parseMatrix] after its [while] loop. *)
Definition parseMatrixEnd (style : string) (colSpec : option string)
           (rows : list (list MathNode)) (currentRow : list MathNode)
           (s : TokenStream) : PResult MathNode :=
  let rows := match currentRow with [] => rows | _ => rows ++ [currentRow] end in
  '(_, s) <- expectValue command "\end" s ;;
  let s := skipWhitespace s in
  '(_, s) <- expect openBrace s ;;
  let (endEnvName, s) := readUntilCloseBrace s in
  '(_, s) <- expect closeBrace s ;;
  if negb (String.eqb endEnvName style) then Throw ErrEnvironmentMismatch
  else parseScript (node.matrix rows style colSpec) s.

(** The part of [parseMatrix] before its loop: the column
    specification of an [array]. *)
Definition parseColSpec (style : string) (s : TokenStream)
  : PResult (option string) :=
  if String.eqb style "array" then
    let s := skipWhitespace s in
    '(_, s) <- expect openBrace s ;;
    let (colSpec, s) := readUntilCloseBrace s in
    '(_, s) <- expect closeBrace s ;;
    Ok (Some colSpec, s)
  else Ok (None, s).

End Productions.

Definition stopsAt (stopTokens : list string) (token : Token) : bool :=
  has stopTokens (value token) || has stopTokens (typeName (type token))
  || TokenType_eqb (type token) closeBrace
  || TokenType_eqb (type token) closeBracket
  || TokenType_eqb (type token) closeParen
  || TokenType_eqb (type token) ampersand
  || TokenType_eqb (type token) newline.

(** The recursion, bounded by [fuel]: the [while] loop of [parseRow],
    [parseCommand], and the [while] loop of [parseMatrix]. *)
Fixpoint parseRowLoop (fuel : nat) (stopTokens : list string)
         (children : list MathNode) (s : TokenStream) {struct fuel}
  : PResult (list MathNode) :=
  match fuel with
  | 0 => OutOfFuel
  | S fuel' =>
      if isEof s then Ok (children, s)
      else
        let s := skipWhitespace s in
        if stopsAt stopTokens (peek s) then Ok (children, s)
        else
          '(atom, s) <-
             parseAtom
               (fun stops s =>
                  '(cs, s) <- parseRowLoop fuel' stops [] s ;;
                  Ok (simplifyRow cs, s))
               (parseCommand fuel') s ;;
          parseRowLoop fuel' stopTokens
                       (match atom with
                        | Some a => children ++ [a]
                        | None => children
                        end) s
  end

with parseCommand (fuel : nat) (s : TokenStream) {struct fuel}
  : PResult MathNode :=
  match fuel with
  | 0 => OutOfFuel
  | S fuel' =>
      parseCommandBody
        (fun stops s =>
           '(cs, s) <- parseRowLoop fuel' stops [] s ;;
           Ok (simplifyRow cs, s))
        (parseCommand fuel')
        (parseMatrix fuel') s
  end

with parseMatrixLoop (fuel : nat) (rows : list (list MathNode))
       (currentRow : list MathNode) (s : TokenStream) {struct fuel}
  : PResult (list (list MathNode) * list MathNode) :=
  match fuel with
  | 0 => OutOfFuel
  | S fuel' =>
      if isEof s then Ok ((rows, currentRow), s)
      else
        let s := skipWhitespace s in
        if isValue command "\end" s then Ok ((rows, currentRow), s)
        else if isType newline s then
          parseMatrixLoop fuel' (rows ++ [currentRow]) [] (snd (next s))
        else if isType ampersand s then
          parseMatrixLoop fuel' rows currentRow (snd (next s))
        else
          '(cs, s) <- parseRowLoop fuel' ["&"; "\\"; "\end"] [] s ;;
          parseMatrixLoop fuel' rows (currentRow ++ [simplifyRow cs]) s
  end

with parseMatrix (fuel : nat) (style : string) (s : TokenStream) {struct fuel}
  : PResult MathNode :=
  match fuel with
  | 0 => OutOfFuel
  | S fuel' =>
      let parseRow := fun stops s =>
                        '(cs, s) <- parseRowLoop fuel' stops [] s ;;
                        Ok (simplifyRow cs, s) in
      '(colSpec, s) <- parseColSpec style s ;;
      '((rows, currentRow), s) <- parseMatrixLoop fuel' [] [] s ;;
      parseMatrixEnd parseRow (parseCommand fuel') style colSpec rows currentRow s
  end.

Definition parseRow (fuel : nat) (stopTokens : list string) (s : TokenStream)
  : PResult MathNode :=
  '(children, s) <- parseRowLoop fuel stopTokens [] s ;;
  Ok (simplifyRow children, s).

(** [Parser.parse] *)
Definition parse (fuel : nat) (tokens : list Token) : outcome MathNode :=
  '(result, s) <- parseRow fuel [] tokens ;;
  if negb (isEof s) then Throw ErrUnexpectedToken
  else Ok result.

(** Fuel that lets every loop round and every nested production of a
    stream of this length go through. *)
Definition fuelFor (tokens : list Token) : nat := 2 * length tokens + 4.

(** [parseLatex] *)
Definition parseLatex (latex : string) : outcome MathNode :=
  match tokenize latex with
  | None => OutOfFuel
  | Some tokens => parse (fuelFor tokens) tokens
  end.

End Parser.

(* ================================================================== *)
(** ** The serializer ([src/parser/ast-to-latex.ts]) *)
(* ================================================================== *)

Module Serializer.
Import Ast.

Definition has (set : list string) (x : string) : bool :=
  existsb (String.eqb x) set.

Definition GREEK_LETTERS : list string := Parser.GREEK_LETTERS.

(** The parser's operators and the ten delimiter commands. *)
Definition COMMAND_OPERATORS : list string :=
  [ "times"; "div"; "cdot"; "pm"; "mp"; "ast"; "star"; "circ"; "bullet";
    "oplus"; "ominus"; "otimes"; "oslash"; "odot";
    "le"; "leq"; "ge"; "geq"; "neq"; "ne"; "approx"; "equiv"; "sim"; "simeq";
    "ll"; "gg"; "subset"; "supset"; "subseteq"; "supseteq"; "in"; "notin"; "ni";
    "cup"; "cap"; "setminus"; "emptyset"; "varnothing";
    "forall"; "exists"; "nexists"; "neg"; "land"; "lor"; "implies"; "iff";
    "to"; "gets"; "leftarrow"; "rightarrow"; "leftrightarrow";
    "Leftarrow"; "Rightarrow"; "Leftrightarrow";
    "infty"; "partial"; "nabla"; "degree";
    "ldots"; "cdots"; "vdots"; "ddots";
    "langle"; "rangle"; "lvert"; "rvert"; "lVert"; "rVert";
    "lfloor"; "rfloor"; "lceil"; "rceil";
    "mapsto"; "longmapsto";
    "uparrow"; "downarrow"; "updownarrow";
    "Uparrow"; "Downarrow"; "Updownarrow";
    "nearrow"; "searrow"; "swarrow"; "nwarrow";
    "propto"; "cong"; "mid";
    "%" ].

(** The functions and the large operators. *)
Definition FUNCTIONS : list string :=
  Parser.FUNCTIONS ++ Parser.LARGE_OPERATORS.

Definition SPACE_COMMANDS (size : SpaceSize) : string :=
  match size with
  | thin => "\,"
  | medium => "\:"
  | thick => "\;"
  | quad => "\quad"
  | qquad => "\qquad"
  end.

Record SerializeOptions :=
  { prettyPrint : option bool; includePlaceholders : option bool }.

Definition defaultOptions : SerializeOptions :=
  {| prettyPrint := None; includePlaceholders := None |}.

Definition cat (l : list string) : string := String.concat "" l.

Definition serializeNumber (value : string) : string := value.

Definition serializeSymbol (value : string) : string :=
  if has GREEK_LETTERS value then cat ["\"; value] else value.

Definition serializeOperator (value : string) (options : SerializeOptions)
  : string :=
  let space := match prettyPrint options with Some true => " " | _ => "" end in
  if has COMMAND_OPERATORS value then cat [space; "\"; value; " "]
  else if has ["+"; "-"; "="; "<"; ">"] value then cat [space; value; space]
  else value.

Definition serializeText (value : string) : string := cat ["\text{"; value; "}"].

Definition serializeSpace (size : SpaceSize) : string := SPACE_COMMANDS size.

Definition serializePlaceholder (options : SerializeOptions) : string :=
  match includePlaceholders options with
  | Some false => ""
  | _ => "{}"
  end.

Definition needsBraces (n : MathNode) : bool :=
  match n with
  | RowNode _ => true
  | NumberNode value => 1 <? String.length value
  | SymbolNode value =>
      (1 <? String.length value) && negb (has GREEK_LETTERS value)
  | PlaceholderNode => true
  | FractionNode _ _ | SqrtNode _ _ | ParensNode _ _ _ _ => true
  | PowerNode _ _ | SubscriptNode _ _ | SubSupNode _ _ _ => true
  | _ => false
  end.

Definition serializeDelimiter (delim : string) : string :=
  if String.eqb delim "{" then "\{"
  else if String.eqb delim "}" then "\}"
  else delim.

Definition startsWith (s pre : string) : bool := String.prefix pre s.

(** The serializers of the containers, over [serializeNode] for their
    parts. *)
Section Containers.
Variable serializeNode : MathNode -> string.

Definition serializeRow (children : list MathNode) : string :=
  cat (map serializeNode children).

Definition serializeFraction (numerator denominator : MathNode) : string :=
  cat ["\frac{"; serializeNode numerator; "}{"; serializeNode denominator; "}"].

Definition serializeBase (n : MathNode) : string :=
  let wrapped :=
    match n with
    | RowNode _ | FractionNode _ _ | PowerNode _ _
    | SubscriptNode _ _ | SubSupNode _ _ _ => cat ["{"; serializeNode n; "}"]
    | _ => serializeNode n
    end in
  match n with
  | RowNode [SymbolNode _ as child] => serializeNode child
  | RowNode [NumberNode _ as child] => serializeNode child
  | _ => wrapped
  end.

Definition scriptPart (mark : string) (script : MathNode) : string :=
  if needsBraces script then cat [mark; "{"; serializeNode script; "}"]
  else cat [mark; serializeNode script].

Definition serializePower (base exponent : MathNode) : string :=
  cat [serializeBase base; scriptPart "^" exponent].

Definition serializeSubscript (base sub : MathNode) : string :=
  cat [serializeBase base; scriptPart "_" sub].

Definition serializeSubSup (base sub sup : MathNode) : string :=
  cat [serializeBase base; scriptPart "_" sub; scriptPart "^" sup].

Definition serializeSqrt (radicand : MathNode) (index : option MathNode)
  : string :=
  match index with
  | Some index =>
      cat ["\sqrt["; serializeNode index; "]{"; serializeNode radicand; "}"]
  | None => cat ["\sqrt{"; serializeNode radicand; "}"]
  end.

Definition serializeParens (open close : string) (content : MathNode)
           (size : option ParensSize) : string :=
  match size with
  | Some auto =>
      cat ["\left"; serializeDelimiter open; serializeNode content;
           "\right"; serializeDelimiter close]
  | _ =>
      cat [(if String.eqb open "{" then "\{" else open);
           serializeNode content;
           (if String.eqb close "}" then "\}" else close)]
  end.

Definition serializeFunction (name : string) (argument : option MathNode)
           (limits : option (option MathNode * option MathNode)) : string :=
  let result := if has FUNCTIONS name then cat ["\"; name] else name in
  let result :=
    match limits with
    | Some (lower, upper) =>
        let result :=
          match lower with
          | Some lower => cat [result; scriptPart "_" lower]
          | None => result
          end in
        match upper with
        | Some upper => cat [result; scriptPart "^" upper]
        | None => result
        end
    | None => result
    end in
  match argument with
  | Some argument =>
      let argStr := serializeNode argument in
      if startsWith argStr "{" || startsWith argStr "("
         || startsWith argStr "[" || startsWith argStr "\left"
      then cat [result; argStr]
      else if needsBraces argument then cat [result; "{"; argStr; "}"]
      else cat [result; " "; argStr]
  | None => result
  end.

Definition serializeMatrix (rows : list (list MathNode)) (style : string)
           (colSpec : option string) : string :=
  let result := cat ["\begin{"; style; "}"] in
  let result :=
    match colSpec with
    | Some colSpec =>
        if String.eqb style "array" && negb (String.eqb colSpec "")
        then cat [result; "{"; colSpec; "}"]
        else result
    | None => result
    end in
  let rowStrings :=
    map (fun row => String.concat " & " (map serializeNode row)) rows in
  cat [result; String.concat " \\ " rowStrings; "\end{"; style; "}"].

End Containers.

Fixpoint serializeNode (options : SerializeOptions) (n : MathNode) {struct n}
  : string :=
  match n with
  | NumberNode value => serializeNumber value
  | SymbolNode value => serializeSymbol value
  | OperatorNode value => serializeOperator value options
  | TextNode value => serializeText value
  | SpaceNode size => serializeSpace size
  | PlaceholderNode => serializePlaceholder options
  | RowNode children => serializeRow (serializeNode options) children
  | FractionNode numerator denominator =>
      serializeFraction (serializeNode options) numerator denominator
  | PowerNode base exponent =>
      serializePower (serializeNode options) base exponent
  | SubscriptNode base sub =>
      serializeSubscript (serializeNode options) base sub
  | SubSupNode base sub sup =>
      serializeSubSup (serializeNode options) base sub sup
  | SqrtNode radicand index =>
      serializeSqrt (serializeNode options) radicand index
  | ParensNode open close content size =>
      serializeParens (serializeNode options) open close content size
  | FunctionNode name argument limits =>
      serializeFunction (serializeNode options) name argument limits
  | MatrixNode rows style colSpec =>
      serializeMatrix (serializeNode options) rows style colSpec
  end.

Definition serializeToLatex (ast : MathNode) (options : SerializeOptions)
  : string :=
  serializeNode options ast.

End Serializer.

(* ================================================================== *)
(** ** Structural equality ([nodesEqual] of [src/core/ast.ts]) *)
(* ================================================================== *)

Module Equality.
Import Ast.

Definition ParensSize_eqb (a b : option ParensSize) : bool :=
  match a, b with
  | None, None => true
  | Some auto, Some auto | Some big, Some big | Some Big, Some Big
  | Some bigg, Some bigg | Some Bigg, Some Bigg => true
  | _, _ => false
  end.

Definition SpaceSize_eqb (a b : SpaceSize) : bool :=
  match a, b with
  | thin, thin | medium, medium | thick, thick | quad, quad
  | qquad, qquad => true
  | _, _ => false
  end.

Definition optString_eqb (a b : option string) : bool :=
  match a, b with
  | None, None => true
  | Some x, Some y => String.eqb x y
  | _, _ => false
  end.

Fixpoint nodesEqual (a b : MathNode) {struct a} : bool :=
  let every :=
    fix every (xs ys : list MathNode) {struct xs} : bool :=
      match xs, ys with
      | [], [] => true
      | x :: xs', y :: ys' => nodesEqual x y && every xs' ys'
      | _, _ => false
      end in
  let optional (x y : option MathNode) : bool :=
    match x, y with
    | Some x', Some y' => nodesEqual x' y'
    | None, None => true
    | _, _ => false
    end in
  match a, b with
  | NumberNode v, NumberNode w => String.eqb v w
  | SymbolNode v, SymbolNode w => String.eqb v w
  | OperatorNode v, OperatorNode w => String.eqb v w
  | TextNode v, TextNode w => String.eqb v w
  | SpaceNode s, SpaceNode t => SpaceSize_eqb s t
  | PlaceholderNode, PlaceholderNode => true
  | RowNode cs, RowNode ds => every cs ds
  | FractionNode n d, FractionNode n' d' => nodesEqual n n' && nodesEqual d d'
  | PowerNode x e, PowerNode x' e' => nodesEqual x x' && nodesEqual e e'
  | SubscriptNode x s, SubscriptNode x' s' => nodesEqual x x' && nodesEqual s s'
  | SubSupNode x s e, SubSupNode x' s' e' =>
      nodesEqual x x' && nodesEqual s s' && nodesEqual e e'
  | SqrtNode r i, SqrtNode r' i' => nodesEqual r r' && optional i i'
  | ParensNode o c x sz, ParensNode o' c' x' sz' =>
      String.eqb o o' && String.eqb c c' && ParensSize_eqb sz sz'
      && nodesEqual x x'
  | FunctionNode nm arg lim, FunctionNode nm' arg' lim' =>
      String.eqb nm nm' && optional arg arg'
      && match lim, lim' with
         | Some (lo, up), Some (lo', up') => optional lo lo' && optional up up'
         | None, None => true
         | _, _ => false
         end
  | MatrixNode rows st cs, MatrixNode rows' st' cs' =>
      String.eqb st st' && optString_eqb cs cs'
      && (fix everyRow (rs rs' : list (list MathNode)) {struct rs} : bool :=
            match rs, rs' with
            | [], [] => true
            | r :: t, r' :: t' => every r r' && everyRow t t'
            | _, _ => false
            end) rows rows'
  | _, _ => false
  end.

End Equality.

(* ================================================================== *)
(** ** Properties of parsing and of the round trip *)
(* ================================================================== *)

Module ParserProps.
Import Ast Tokens Outcome Parser Serializer Equality.

Lemma span_all p l : forallb p l = true -> span p l = (l, []).
Proof.
  induction l as [|c t IH]; simpl; [reflexivity|].
  intros H. apply andb_prop in H. destruct H as [Hc Ht].
  rewrite Hc, (IH Ht). reflexivity.
Qed.

(** A source of white space only is one [whitespace] token. *)
Lemma tokenize_whitespace c rest :
  forallb isSpace (c :: rest) = true ->
  tokenize (String c (string_of_list_ascii rest))
  = Some [ {| type := whitespace;
              value := String c (string_of_list_ascii rest);
              position := 0 |};
           {| type := eof; value := "";
              position := Z.of_nat (1 + length rest) |} ].
Proof.
  intros H. simpl in H. apply andb_prop in H. destruct H as [Hc Hr].
  unfold tokenize. cbn [String.length list_ascii_of_string tokenizeLoop].
  rewrite list_ascii_of_string_of_list_ascii.
  unfold nextToken. rewrite Hc. unfold readWhitespace.
  rewrite (span_all _ _ Hr). cbn [option_map].
  destruct (String.length (string_of_list_ascii rest)); reflexivity.
Qed.

Lemma parse_whitespace_tokens v p q :
  parse (fuelFor [ {| type := whitespace; value := v; position := p |};
                   {| type := eof; value := ""; position := q |} ])
        [ {| type := whitespace; value := v; position := p |};
          {| type := eof; value := ""; position := q |} ]
  = Ok PlaceholderNode.
Proof. reflexivity. Qed.

(** C7.  The empty source and every source of white space only parse to
    a placeholder; [parseRow] returns the row simplification of the
    children its loop collected, which is a placeholder for none, the
    child itself for exactly one, and a row otherwise; and ["x"] parses
    to the symbol [x], not to a row. *)
Theorem parse_row_simplification :
  parseLatex "" = Ok PlaceholderNode /\
  (forall source,
      source <> "" ->
      forallb isSpace (list_ascii_of_string source) = true ->
      parseLatex source = Ok PlaceholderNode) /\
  (forall fuel stopTokens s children s',
      parseRowLoop fuel stopTokens [] s = Ok (children, s') ->
      parseRow fuel stopTokens s = Ok (simplifyRow children, s')) /\
  simplifyRow [] = PlaceholderNode /\
  (forall child, simplifyRow [child] = child) /\
  (forall c1 c2 rest,
      simplifyRow (c1 :: c2 :: rest) = RowNode (c1 :: c2 :: rest)) /\
  parseLatex "x" = Ok (SymbolNode "x") /\
  (forall n, parseLatex "x" = Ok n -> kind n = symbol).
Proof.
  split; [reflexivity|].
  split.
  { intros source Hne Hws. destruct source as [|c src]; [contradiction|].
    rewrite <- (string_of_list_ascii_of_string src).
    simpl in Hws. rewrite <- (list_ascii_of_string_of_list_ascii
                               (list_ascii_of_string src)) in Hws.
    unfold parseLatex.
    rewrite tokenize_whitespace
      by (simpl; rewrite list_ascii_of_string_of_list_ascii in Hws; exact Hws).
    apply parse_whitespace_tokens. }
  split.
  { intros fuel stops s children s' H. unfold parseRow. rewrite H. reflexivity. }
  repeat split.
  intros n H. vm_compute in H. inversion H. reflexivity.
Qed.

Lemma parse_row_simplification_witness :
  parseLatex "  " = Ok PlaceholderNode /\
  parseRow 5 [] [ {| type := text; value := "x"; position := 0 |};
                  {| type := eof; value := ""; position := 1 |} ]
  = Ok (SymbolNode "x", [ {| type := eof; value := ""; position := 1 |} ]).
Proof.
  split.
  - apply (proj1 (proj2 parse_row_simplification) "  ");
      [discriminate | reflexivity].
  - apply (proj1 (proj2 (proj2 parse_row_simplification))
                 5 [] _ [SymbolNode "x"] _).
    reflexivity.
Defined.

(** C1.  The round trip fails on [\sin x]: the source parses to a row of
    the function [sin] and the symbol [x]; the serializer writes the
    function name and the symbol with nothing between them, [\sinx];
    and that reads back as the one unknown command [sinx], a symbol.
    The same happens after a Greek letter ([\alpha x]) and between two
    numbers ([2 3]). *)
Theorem round_trip_fails_on_sin_x :
  parseLatex "\sin x" = Ok (RowNode [FunctionNode "sin" None None; SymbolNode "x"]) /\
  serializeToLatex (RowNode [FunctionNode "sin" None None; SymbolNode "x"])
                   defaultOptions = "\sinx" /\
  parseLatex "\sinx" = Ok (SymbolNode "sinx") /\
  nodesEqual (RowNode [FunctionNode "sin" None None; SymbolNode "x"])
             (SymbolNode "sinx") = false /\
  (exists a b, parseLatex "\alpha x" = Ok a /\
               parseLatex (serializeToLatex a defaultOptions) = Ok b /\
               nodesEqual a b = false) /\
  (exists a b, parseLatex "2 3" = Ok a /\
               parseLatex (serializeToLatex a defaultOptions) = Ok b /\
               nodesEqual a b = false).
Proof.
  repeat split; try reflexivity.
  - exists (RowNode [SymbolNode "alpha"; SymbolNode "x"]), (SymbolNode "alphax").
    repeat split; reflexivity.
  - exists (RowNode [NumberNode "2"; NumberNode "3"]), (NumberNode "23").
    repeat split; reflexivity.
Qed.

End ParserProps.

(* ================================================================== *)
(** ** Focusable positions ([src/core/cursor.ts]) *)
(* ================================================================== *)

Module Focusable.
Import Ast Cursor Outcome Outcome.Notations.

Definition optb (f : MathNode -> bool) (o : option MathNode) : bool :=
  match o with Some x => f x | None => false end.

(** [hasDescendantRow]: a row, or a node with a child that has one. *)
Fixpoint hasDescendantRow (n : MathNode) : bool :=
  match n with
  | RowNode _ => true
  | FractionNode a b => hasDescendantRow a || hasDescendantRow b
  | PowerNode a b => hasDescendantRow a || hasDescendantRow b
  | SubscriptNode a b => hasDescendantRow a || hasDescendantRow b
  | SubSupNode a b c =>
      hasDescendantRow a || hasDescendantRow b || hasDescendantRow c
  | SqrtNode r i => hasDescendantRow r || optb hasDescendantRow i
  | ParensNode _ _ c _ => hasDescendantRow c
  | FunctionNode _ arg lim =>
      optb hasDescendantRow arg
      || match lim with
         | Some (lo, up) => optb hasDescendantRow lo || optb hasDescendantRow up
         | None => false
         end
  | MatrixNode rows _ _ => existsb (existsb hasDescendantRow) rows
  | _ => false
  end.

Lemma existsb_concat {A} (f : A -> bool) (l : list (list A)) :
  existsb f (concat l) = existsb (existsb f) l.
Proof.
  induction l as [|r l IH]; simpl; [reflexivity|].
  rewrite existsb_app, IH. reflexivity.
Qed.

(** The equation of the source:
    [kind === 'row' || getChildNodes(node).some(hasDescendantRow)]. *)
Lemma hasDescendantRow_eq n :
  hasDescendantRow n
  = isRow n || existsb hasDescendantRow (getChildNodes n).
Proof.
  destruct n as [v|v|v|v|s| |cs|a b|a b|a b|a b d|a ix|o cl a s|nm arg lim|rows st cs];
    simpl; try reflexivity.
  - rewrite orb_false_r. reflexivity.
  - rewrite orb_false_r. reflexivity.
  - rewrite orb_false_r. reflexivity.
  - rewrite orb_false_r, orb_assoc. reflexivity.
  - destruct ix as [x|]; simpl; rewrite !orb_false_r; reflexivity.
  - rewrite orb_false_r. reflexivity.
  - destruct arg as [x|]; destruct lim as [[[lo|] [up|]]|]; simpl;
      rewrite ?orb_false_r; reflexivity.
  - symmetry. apply existsb_concat.
Qed.

(** The height of a tree, which bounds how deep a search can go. *)
Fixpoint depth (n : MathNode) : nat :=
  let opt (o : option MathNode) : nat :=
    match o with Some x => depth x | None => 0 end in
  match n with
  | RowNode cs => S (list_max (map depth cs))
  | FractionNode a b => S (Nat.max (depth a) (depth b))
  | PowerNode a b => S (Nat.max (depth a) (depth b))
  | SubscriptNode a b => S (Nat.max (depth a) (depth b))
  | SubSupNode a b c => S (Nat.max (depth a) (Nat.max (depth b) (depth c)))
  | SqrtNode r i => S (Nat.max (depth r) (opt i))
  | ParensNode _ _ c _ => S (depth c)
  | FunctionNode _ arg lim =>
      S (Nat.max (opt arg)
                 (match lim with
                  | Some (lo, up) => Nat.max (opt lo) (opt up)
                  | None => 0
                  end))
  | MatrixNode rows _ _ =>
      S (list_max (map (fun r => list_max (map depth r)) rows))
  | _ => 0
  end.

(** The first child, from index [i] on, that is a row or has one
    below it: where the forward [for] loop of [findFirstFocusable]
    returns. *)
Fixpoint firstWithRow (children : list MathNode) (i : nat)
  : option (nat * MathNode) :=
  match children with
  | [] => None
  | child :: rest =>
      if isRow child || hasDescendantRow child then Some (i, child)
      else firstWithRow rest (S i)
  end.

(** The last such child: where the backward loop of
    [findLastFocusable] returns. *)
Fixpoint lastWithRow (children : list MathNode) (i : nat)
  : option (nat * MathNode) :=
  match children with
  | [] => None
  | child :: rest =>
      match lastWithRow rest (S i) with
      | Some found => Some found
      | None =>
          if isRow child || hasDescendantRow child then Some (i, child)
          else None
      end
  end.

(** The [while (currentPath.length > 0)] loop of [coerceToRowCursor],
    on the reversed path: the nearest proper ancestor that is a row,
    with the cursor after the child the walk came from. *)
Fixpoint nearestRowAbove (root : MathNode) (rpath : list nat)
  : option CursorPosition :=
  match rpath with
  | [] => None
  | childIdx :: rparent =>
      match getNodeAtPath root (rev rparent) with
      | Some (RowNode _) => Some (cursor (rev rparent) (childIdx + 1))
      | _ => nearestRowAbove root rparent
      end
  end.

Definition orRoot (root : MathNode) (found : option MathNode) : MathNode :=
  match found with Some n => n | None => root end.

(** [findFirstFocusable], [findLastFocusable] and [coerceToRowCursor]
    call one another; [fuel] bounds the calls, and [OutOfFuel] stands
    for a search that does not return. *)
Fixpoint findFirstFocusableIn (fuel : nat) (root : MathNode)
         (basePath : list nat) {struct fuel} : outcome CursorPosition :=
  match fuel with
  | 0 => OutOfFuel
  | S fuel' =>
      let node := orRoot root (getNodeAtPath root basePath) in
      match node with
      | RowNode _ => Ok (cursor basePath 0)
      | _ =>
          match firstWithRow (getChildNodes node) 0 with
          | Some (i, RowNode _) => Ok (cursor (basePath ++ [i]) 0)
          | Some (i, _) => findFirstFocusableIn fuel' root (basePath ++ [i])
          | None => coerceToRowCursorIn fuel' root (cursor basePath 0)
          end
      end
  end

with coerceToRowCursorIn (fuel : nat) (root : MathNode) (pos : CursorPosition)
       {struct fuel} : outcome CursorPosition :=
  match fuel with
  | 0 => OutOfFuel
  | S fuel' =>
      match getNodeAtPath root (path pos) with
      | Some (RowNode children) =>
          Ok (cursor (path pos)
                     (Nat.max 0 (Nat.min (offset pos) (length children))))
      | _ =>
          match nearestRowAbove root (rev (path pos)) with
          | Some c => Ok c
          | None =>
              match root with
              | RowNode _ => Ok (cursor [] 0)
              | _ => findFirstFocusableIn fuel' root []
              end
          end
      end
  end.

Fixpoint findLastFocusableIn (fuel : nat) (root : MathNode)
         (basePath : list nat) {struct fuel} : outcome CursorPosition :=
  match fuel with
  | 0 => OutOfFuel
  | S fuel' =>
      let node := orRoot root (getNodeAtPath root basePath) in
      match node with
      | RowNode children => Ok (cursor basePath (length children))
      | _ =>
          match lastWithRow (getChildNodes node) 0 with
          | Some (i, RowNode children) =>
              Ok (cursor (basePath ++ [i]) (length children))
          | Some (i, _) => findLastFocusableIn fuel' root (basePath ++ [i])
          | None => coerceToRowCursorIn fuel' root (cursor basePath 0)
          end
      end
  end.

(** Twice the height of the tree and a little more: a search goes down
    at most once from its base and, through [coerceToRowCursor], at most
    once more from the root. *)
Definition searchFuel (root : MathNode) : nat := 2 * depth root + 4.

Definition findFirstFocusable (root : MathNode) (basePath : list nat)
  : outcome CursorPosition :=
  findFirstFocusableIn (searchFuel root) root basePath.

Definition findLastFocusable (root : MathNode) (basePath : list nat)
  : outcome CursorPosition :=
  findLastFocusableIn (searchFuel root) root basePath.

Definition coerceToRowCursor (root : MathNode) (pos : CursorPosition)
  : outcome CursorPosition :=
  coerceToRowCursorIn (searchFuel root) root pos.

End Focusable.

(* ================================================================== *)
(** ** Navigation commands ([src/core/commands/navigate.ts]) *)
(* ================================================================== *)

Module Navigate.
Import Ast Cursor Selection Model Focusable Outcome Outcome.Notations.

(** A command returns a new state, or [None] for the source's [null]. *)
Definition Command : Type := EditorState -> outcome (option EditorState).

Definition isStructure (n : MathNode) : bool :=
  match n with
  | FractionNode _ _ | PowerNode _ _ | SubscriptNode _ _ | SubSupNode _ _ _
  | SqrtNode _ _ | ParensNode _ _ _ _ | MatrixNode _ _ _
  | FunctionNode _ _ _ => true
  | _ => false
  end.

(** [parent.rows[0]?.length || 1] *)
Definition matrixCols (rows : list (list MathNode)) : nat :=
  match rows with
  | [] => 1
  | r :: _ => match length r with 0 => 1 | n => n end
  end.

(** [exitNodeLeft] and [exitNodeRight] climb one level per call; they
    recurse on the reversed path, whose head is [indexInParent path] and
    whose tail is [parentPath path]. *)
Fixpoint exitNodeLeftUp (root : MathNode) (rpath : list nat)
  : outcome (option CursorPosition) :=
  match rpath with
  | [] => Ok None
  | childIdx :: rparent =>
      let parentP := rev rparent in
      match getNodeAtPath root parentP with
      | None => Ok None
      | Some (RowNode _) => Ok (Some (cursor parentP childIdx))
      | Some (MatrixNode _ _ _) =>
          if 0 <? childIdx then
            c <- findLastFocusable root (parentP ++ [childIdx - 1]) ;;
            Ok (Some c)
          else exitNodeLeftUp root rparent
      | Some _ => exitNodeLeftUp root rparent
      end
  end.

Definition exitNodeLeft (root : MathNode) (path : list nat)
  : outcome (option CursorPosition) :=
  exitNodeLeftUp root (rev path).

Fixpoint exitNodeRightUp (root : MathNode) (rpath : list nat)
  : outcome (option CursorPosition) :=
  match rpath with
  | [] => Ok None
  | childIdx :: rparent =>
      let parentP := rev rparent in
      match getNodeAtPath root parentP with
      | None => Ok None
      | Some (RowNode _) => Ok (Some (cursor parentP (childIdx + 1)))
      | Some (MatrixNode rows _ _) =>
          let totalCells := length rows * matrixCols rows in
          if childIdx + 1 <? totalCells then
            c <- findFirstFocusable root (parentP ++ [childIdx + 1]) ;;
            Ok (Some c)
          else exitNodeRightUp root rparent
      | Some _ => exitNodeRightUp root rparent
      end
  end.

Definition exitNodeRight (root : MathNode) (path : list nat)
  : outcome (option CursorPosition) :=
  exitNodeRightUp root (rev path).

(** The equations of the source, with [path = parentP ++ [childIdx]]. *)
Lemma exitNodeLeft_snoc root parentP childIdx :
  exitNodeLeft root (parentP ++ [childIdx])
  = match getNodeAtPath root parentP with
    | None => Ok None
    | Some (RowNode _) => Ok (Some (cursor parentP childIdx))
    | Some (MatrixNode _ _ _) =>
        if 0 <? childIdx then
          c <- findLastFocusable root (parentP ++ [childIdx - 1]) ;;
          Ok (Some c)
        else exitNodeLeft root parentP
    | Some _ => exitNodeLeft root parentP
    end.
Proof.
  unfold exitNodeLeft. rewrite rev_app_distr. simpl.
  rewrite rev_involutive. reflexivity.
Qed.

Lemma exitNodeRight_snoc root parentP childIdx :
  exitNodeRight root (parentP ++ [childIdx])
  = match getNodeAtPath root parentP with
    | None => Ok None
    | Some (RowNode _) => Ok (Some (cursor parentP (childIdx + 1)))
    | Some (MatrixNode rows _ _) =>
        if childIdx + 1 <? length rows * matrixCols rows then
          c <- findFirstFocusable root (parentP ++ [childIdx + 1]) ;;
          Ok (Some c)
        else exitNodeRight root parentP
    | Some _ => exitNodeRight root parentP
    end.
Proof.
  unfold exitNodeRight. rewrite rev_app_distr. simpl.
  rewrite rev_involutive. reflexivity.
Qed.

Definition moveCursorLeft (root : MathNode) (pos : CursorPosition)
  : outcome (option CursorPosition) :=
  match getNodeAtPath root (path pos) with
  | Some (RowNode children) =>
      if 0 <? offset pos then
        match nth_error children (offset pos - 1) with
        | Some prevChild =>
            if isStructure prevChild && hasDescendantRow prevChild then
              c <- findLastFocusable root (path pos ++ [offset pos - 1]) ;;
              Ok (Some c)
            else Ok (Some (cursor (path pos) (offset pos - 1)))
        | None => Ok (Some (cursor (path pos) (offset pos - 1)))
        end
      else exitNodeLeft root (path pos)
  | _ => Ok None
  end.

Definition moveCursorRight (root : MathNode) (pos : CursorPosition)
  : outcome (option CursorPosition) :=
  match getNodeAtPath root (path pos) with
  | Some (RowNode children) =>
      if offset pos <? length children then
        match nth_error children (offset pos) with
        | Some nextChild =>
            if isStructure nextChild && hasDescendantRow nextChild then
              c <- findFirstFocusable root (path pos ++ [offset pos]) ;;
              Ok (Some c)
            else Ok (Some (cursor (path pos) (offset pos + 1)))
        | None => Ok (Some (cursor (path pos) (offset pos + 1)))
        end
      else exitNodeRight root (path pos)
  | _ => Ok None
  end.

Definition moveLeft (extend : bool) : Command := fun state =>
  if negb (isCollapsed (selection state)) && negb extend then
    Ok (Some (updateSelection state
                (collapsedSelection (getStart (selection state)))))
  else
    newPos <- moveCursorLeft (root state) (focus (selection state)) ;;
    match newPos with
    | None => Ok None
    | Some newPos =>
        let newSelection :=
          if extend then extendTo (selection state) newPos
          else collapsedSelection newPos in
        Ok (Some (updateSelection state newSelection))
    end.

Definition moveRight (extend : bool) : Command := fun state =>
  if negb (isCollapsed (selection state)) && negb extend then
    Ok (Some (updateSelection state
                (collapsedSelection (getEnd (selection state)))))
  else
    newPos <- moveCursorRight (root state) (focus (selection state)) ;;
    match newPos with
    | None => Ok None
    | Some newPos =>
        let newSelection :=
          if extend then extendTo (selection state) newPos
          else collapsedSelection newPos in
        Ok (Some (updateSelection state newSelection))
    end.

(** A move changes the selection only. *)
Lemma moveLeft_root extend state state' :
  moveLeft extend state = Ok (Some state') -> root state' = root state.
Proof.
  unfold moveLeft.
  destruct (negb (isCollapsed (selection state)) && negb extend).
  - intros H; inversion H; reflexivity.
  - destruct (moveCursorLeft (root state) (focus (selection state)))
      as [[c|]| |]; simpl; intros H; inversion H; reflexivity.
Qed.

End Navigate.

(* ================================================================== *)
(** ** Rebuilding the tree along a path *)
(* ================================================================== *)

Module Paths.
Import Ast Cursor.

(** [replaceNodeAtPath], which [insert.ts] and [delete.ts] each define
    over their own [replaceChild].  The source recurses on
    [parentPath path] with [indexInParent path]; here that is the tail
    and the head of the reversed path. *)
Section Replace.
Variable replaceChild : MathNode -> nat -> MathNode -> MathNode.

Fixpoint replaceNodeUp (root : MathNode) (rpath : list nat) (newNode : MathNode)
  : MathNode :=
  match rpath with
  | [] => newNode
  | childIdx :: rparent =>
      match getNodeAtPath root (rev rparent) with
      | None => root
      | Some parent =>
          replaceNodeUp root rparent (replaceChild parent childIdx newNode)
      end
  end.

Definition replaceNodeAtPath (root : MathNode) (path : list nat)
           (newNode : MathNode) : MathNode :=
  replaceNodeUp root (rev path) newNode.

Lemma replaceNodeAtPath_nil root newNode :
  replaceNodeAtPath root [] newNode = newNode.
Proof. reflexivity. Qed.

(** The equation of the source, with [path = parentP ++ [childIdx]]. *)
Lemma replaceNodeAtPath_snoc root parentP childIdx newNode :
  replaceNodeAtPath root (parentP ++ [childIdx]) newNode
  = match getNodeAtPath root parentP with
    | None => root
    | Some parent =>
        replaceNodeAtPath root parentP (replaceChild parent childIdx newNode)
    end.
Proof.
  unfold replaceNodeAtPath. rewrite rev_app_distr. simpl.
  rewrite rev_involutive. reflexivity.
Qed.

End Replace.

Lemma parentPath_snoc p i : parentPath (p ++ [i]) = p.
Proof. apply removelast_last. Qed.

Lemma indexInParent_snoc p i : indexInParent (p ++ [i]) = Z.of_nat i.
Proof.
  unfold indexInParent. destruct (p ++ [i]) eqn:E.
  - destruct p; discriminate.
  - rewrite <- E, last_last. reflexivity.
Qed.

Lemma getNodeAtPath_app root p q :
  getNodeAtPath root (p ++ q)
  = match getNodeAtPath root p with
    | Some n => getNodeAtPath n q
    | None => None
    end.
Proof.
  revert root; induction p as [|i p IH]; intros root; simpl; [reflexivity|].
  destruct (nth_error (getChildNodes root) i); auto.
Qed.

(** [findCommonAncestorPath], the same in [insert.ts] and [delete.ts]. *)
Fixpoint findCommonAncestorPath (a b : list nat) : list nat :=
  match a, b with
  | x :: a', y :: b' =>
      if x =? y then x :: findCommonAncestorPath a' b' else []
  | _, _ => []
  end.

(** [a.length === b.length && a.every((p, i) => p === b[i])] *)
Definition samePath (a b : list nat) : bool :=
  (length a =? length b) && forallb (fun xy => fst xy =? snd xy) (combine a b).

End Paths.

(* ================================================================== *)
(** ** Insert commands ([src/core/commands/insert.ts]) *)
(* ================================================================== *)

Module Insert.
Import Ast Cursor Selection Model Paths Outcome Outcome.Notations.
Import Navigate.

(** [arr.map((x, i) => ...)] *)
Fixpoint mapi {A B} (f : A -> nat -> B) (i : nat) (l : list A) : list B :=
  match l with
  | [] => []
  | x :: t => f x i :: mapi f (S i) t
  end.

Definition replaceChild (parent : MathNode) (index : nat) (newChild : MathNode)
  : MathNode :=
  match parent with
  | RowNode children => node.row (Js.setAt index newChild children)
  | FractionNode numerator denominator =>
      if index =? 0 then node.fraction newChild denominator
      else node.fraction numerator newChild
  | PowerNode base exponent =>
      if index =? 0 then node.power newChild exponent
      else node.power base newChild
  | SubscriptNode base sub =>
      if index =? 0 then node.subscript newChild sub
      else node.subscript base newChild
  | SubSupNode base sub sup =>
      if index =? 0 then node.subsup newChild sub sup
      else if index =? 1 then node.subsup base newChild sup
      else node.subsup base sub newChild
  | SqrtNode radicand index' =>
      if index =? 0 then node.sqrt newChild index'
      else node.sqrt radicand (Some newChild)
  | ParensNode open close content size =>
      node.parens newChild open close size
  | MatrixNode rows style colSpec =>
      let cols := matrixCols rows in
      let rowIdx := index / cols in
      let colIdx := index mod cols in
      let newRows :=
        mapi (fun row r =>
                if r =? rowIdx
                then mapi (fun cell c => if c =? colIdx then newChild else cell)
                          0 row
                else row) 0 rows in
      node.matrix newRows style colSpec
  | _ => parent
  end.

Definition replaceNodeAtPath := Paths.replaceNodeAtPath replaceChild.

(** The [while] loop of [findContainingRow] on the reversed path. *)
Fixpoint containingRowAbove (root : MathNode) (rpath : list nat) (past : nat)
  : option (list nat * nat) :=
  match rpath with
  | [] => None
  | idx :: rparent =>
      match getNodeAtPath root (rev rparent) with
      | Some (RowNode _) => Some (rev rparent, idx + past)
      | _ => containingRowAbove root rparent past
      end
  end.

Definition findContainingRow (root : MathNode) (pos : CursorPosition)
  : option (list nat * nat) :=
  match getNodeAtPath root (path pos) with
  | None => None
  | Some (RowNode _) => Some (path pos, offset pos)
  | Some _ =>
      match containingRowAbove root (rev (path pos))
                               (if 0 <? offset pos then 1 else 0) with
      | Some r => Some r
      | None =>
          match root with
          | RowNode _ => Some ([], 0)
          | _ => None
          end
      end
  end.

Definition orPlaceholder (newChildren : list MathNode) : list MathNode :=
  match newChildren with
  | [] => [node.placeholder]
  | _ => newChildren
  end.

Definition deleteSelectionContent (root : MathNode) (selection : Selection)
  : MathNode * CursorPosition :=
  if isCollapsed selection then (root, focus selection)
  else
    let start := getStart selection in
    let end_ := getEnd selection in
    if samePath (path start) (path end_) then
      match getNodeAtPath root (path start) with
      | Some (RowNode children) =>
          let newChildren :=
            Js.slice 0 (offset start) children
            ++ Js.sliceFrom (offset end_) children in
          let newRow := node.row (orPlaceholder newChildren) in
          (replaceNodeAtPath root (path start) newRow, start)
      | _ => (root, start)
      end
    else
      let commonPath := findCommonAncestorPath (path start) (path end_) in
      match getNodeAtPath root commonPath with
      | Some (RowNode children) =>
          let startIdx :=
            if length commonPath <? length (path start)
            then nth (length commonPath) (path start) 0
            else offset start in
          let endIdx :=
            if length commonPath <? length (path end_)
            then nth (length commonPath) (path end_) 0 + 1
            else offset end_ in
          let newChildren :=
            Js.slice 0 startIdx children ++ Js.sliceFrom endIdx children in
          let newRow := node.row (orPlaceholder newChildren) in
          (replaceNodeAtPath root commonPath newRow, cursor commonPath startIdx)
      | _ => (root, start)
      end.

Definition insertNodeAtPosition (root : MathNode) (pos : CursorPosition)
           (newNode : MathNode) : option (MathNode * CursorPosition) :=
  match getNodeAtPath root (path pos) with
  | Some (RowNode children) =>
      match children with
      | [PlaceholderNode] =>
          let newRow := node.row (Js.setAt 0 newNode children) in
          Some (replaceNodeAtPath root (path pos) newRow, cursor (path pos) 1)
      | _ =>
          let newRow := node.row (Js.spliceIn (offset pos) newNode children) in
          Some (replaceNodeAtPath root (path pos) newRow,
                cursor (path pos) (offset pos + 1))
      end
  | _ => None
  end.

(** The three regular expressions of [insertCharacter], each on a
    string of exactly one character. *)
Definition classify (char : string) : MathNode :=
  match char with
  | String c EmptyString =>
      if Tokens.isDigit c then node.number char
      else if Tokens.isLetter c then node.symbol char
      else if existsb (Ascii.eqb c)
                      ["+"; "-"; "="; "<"; ">"; "*"; "/"; "!"; "'"; ",";
                       "."; ":"; ";"]%char
           then node.operator char
      else node.symbol char
  | _ => node.symbol char
  end.

Definition insertWith (newNode : MathNode) : Command := fun state =>
  let (cleanRoot, cleanPos) :=
    deleteSelectionContent (root state) (selection state) in
  match insertNodeAtPosition cleanRoot cleanPos newNode with
  | None => Ok None
  | Some (newRoot, newPos) =>
      Ok (Some (updateState state newRoot (collapsedSelection newPos)))
  end.

Definition insertCharacter (char : string) : Command :=
  insertWith (classify char).

Definition insertOperator (op : string) : Command :=
  let normalizedOp :=
    if String.prefix "\" op then Parser.slice1 op else op in
  insertWith (node.operator normalizedOp).

Definition insertGreek (name : string) : Command :=
  insertWith (node.symbol name).

(** [insertSuperscript] and [insertSubscript] differ in the node they
    build. *)
Definition insertScript (build : MathNode -> MathNode -> MathNode) : Command :=
  fun state =>
    let pos := focus (selection state) in
    match findContainingRow (root state) pos with
    | None => Ok None
    | Some (rowPath, offset) =>
        match getNodeAtPath (root state) rowPath with
        | Some (RowNode children) =>
            let childIdx := if 0 <? offset then offset - 1 else 0 in
            match nth_error children childIdx with
            | None => Ok None
            | Some base =>
                let script := build base (node.row [node.placeholder]) in
                let newChildren :=
                  Js.slice 0 childIdx children
                  ++ script :: Js.sliceFrom (childIdx + 1) children in
                let newRow := node.row newChildren in
                let newRoot := replaceNodeAtPath (root state) rowPath newRow in
                let cursorPos := cursor (rowPath ++ [childIdx; 1]) 0 in
                Ok (Some (updateState state newRoot
                                      (collapsedSelection cursorPos)))
            end
        | _ => Ok None
        end
    end.

Definition insertSuperscript : Command := insertScript node.power.

Definition insertSubscript : Command := insertScript node.subscript.

End Insert.

(* ================================================================== *)
(** ** The typing scenario *)
(* ================================================================== *)

Module Scenario.
Import Ast Cursor Selection Model Navigate Insert Serializer Outcome.

(** Apply a command to the state an earlier command returned. *)
Definition andThen (r : outcome (option EditorState)) (c : Command)
  : outcome (option EditorState) :=
  match r with
  | Ok (Some state) => c state
  | other => other
  end.

Definition typed : outcome (option EditorState) :=
  andThen (andThen (andThen (andThen (andThen
    (insertCharacter "x" createEmptyState)
    insertSuperscript)
    (insertCharacter "2"))
    (moveRight false))
    (insertOperator "="))
    (insertCharacter "y").

Definition external : SerializeOptions :=
  {| prettyPrint := None; includePlaceholders := Some false |}.

Definition typedTree : MathNode :=
  RowNode [ PowerNode (SymbolNode "x") (RowNode [NumberNode "2"]);
            OperatorNode "="; SymbolNode "y" ].

Lemma typed_result :
  typed = Ok (Some {| root := typedTree;
                      selection := collapsedSelection (cursor [] 3) |}).
Proof. reflexivity. Qed.

(** C5, as the code has it.  The six commands all apply and leave the
    row [x^(2), =, y] with the cursor at its end; the exponent slot is a
    row, which [needsBraces] always braces, so the tree serializes with
    placeholders left out to [x^{2}=y]. *)
Theorem scenario_serializes_with_braces :
  typed = Ok (Some {| root := typedTree;
                      selection := collapsedSelection (cursor [] 3) |}) /\
  serializeToLatex typedTree external = "x^{2}=y" /\
  needsBraces (RowNode [NumberNode "2"]) = true.
Proof. split; [exact typed_result | split; reflexivity]. Qed.

(** C5 as claimed does not hold: the scenario does not serialize to
    [x^2=y]. *)
Lemma scenario_is_not_unbraced :
  ~ (exists state, typed = Ok (Some state) /\
                   serializeToLatex (root state) external = "x^2=y").
Proof.
  intros (state & H & S).
  rewrite typed_result in H.
  inversion H; subst state. simpl in S. discriminate.
Qed.

End Scenario.

(* ================================================================== *)
(** ** Delete commands ([src/core/commands/delete.ts]) *)
(* ================================================================== *)

Module Delete.
Import Ast Cursor Selection Model Paths Outcome Outcome.Notations.
Import Navigate.

Inductive Direction := forward | backward.

Definition isStructuredNode (n : MathNode) : bool :=
  match n with
  | FractionNode _ _ | PowerNode _ _ | SubscriptNode _ _ | SubSupNode _ _ _
  | SqrtNode _ _ | ParensNode _ _ _ _ | MatrixNode _ _ _ => true
  | _ => false
  end.

Definition getMainContent (n : MathNode) : option MathNode :=
  match n with
  | FractionNode numerator _ => Some numerator
  | PowerNode base _ => Some base
  | SubscriptNode base _ => Some base
  | SubSupNode base _ _ => Some base
  | SqrtNode radicand _ => Some radicand
  | ParensNode _ _ content _ => Some content
  | _ => None
  end.

(** [replaceChild] of [delete.ts]: it has no case for a matrix (nor for
    a function), which it returns as it is. *)
Definition replaceChild (parent : MathNode) (index : nat) (newChild : MathNode)
  : MathNode :=
  match parent with
  | RowNode children => node.row (Js.setAt index newChild children)
  | FractionNode numerator denominator =>
      if index =? 0 then node.fraction newChild denominator
      else node.fraction numerator newChild
  | PowerNode base exponent =>
      if index =? 0 then node.power newChild exponent
      else node.power base newChild
  | SubscriptNode base sub =>
      if index =? 0 then node.subscript newChild sub
      else node.subscript base newChild
  | SubSupNode base sub sup =>
      if index =? 0 then node.subsup newChild sub sup
      else if index =? 1 then node.subsup base newChild sup
      else node.subsup base sub newChild
  | SqrtNode radicand index' =>
      if index =? 0 then node.sqrt newChild index'
      else node.sqrt radicand (Some newChild)
  | ParensNode open close content size =>
      node.parens newChild open close size
  | _ => parent
  end.

Definition replaceNodeAtPath := Paths.replaceNodeAtPath replaceChild.

Definition orPlaceholder (newChildren : list MathNode) : list MathNode :=
  match newChildren with
  | [] => [node.placeholder]
  | _ => newChildren
  end.

Definition flattenStructureBackward (root : MathNode) (rowPath : list nat)
           (targetIdx : nat) (structure : MathNode)
  : option (MathNode * CursorPosition) :=
  match getNodeAtPath root rowPath with
  | Some (RowNode children) =>
      match getMainContent structure with
      | None => None
      | Some mainContent =>
          let contentNodes :=
            match mainContent with
            | RowNode cs => cs
            | _ => [mainContent]
            end in
          let newChildren :=
            Js.slice 0 targetIdx children
            ++ contentNodes
            ++ Js.sliceFrom (targetIdx + 1) children in
          let newRow := node.row newChildren in
          let newRoot := replaceNodeAtPath root rowPath newRow in
          Some (newRoot, cursor rowPath targetIdx)
      end
  | _ => None
  end.

Definition flattenStructureForward := flattenStructureBackward.

Definition deleteContainingStructure (root : MathNode)
           (placeholderPath : list nat) : option (MathNode * CursorPosition) :=
  if length placeholderPath <? 2 then None
  else
    let structurePath := parentPath placeholderPath in
    match getNodeAtPath root structurePath with
    | None => None
    | Some structure =>
        if negb (isStructuredNode structure) then None
        else
          let rowPath := parentPath structurePath in
          match getNodeAtPath root rowPath with
          | Some (RowNode children) =>
              let structureIdx := Z.to_nat (indexInParent structurePath) in
              let children' := Js.setAt structureIdx node.placeholder children in
              let newRow := node.row children' in
              let newRoot := replaceNodeAtPath root rowPath newRow in
              Some (newRoot, cursor (rowPath ++ [structureIdx]) 0)
          | _ => None
          end
    end.

(** The simple deletion of the child at [targetIdx]. *)
Definition removeChild (root : MathNode) (rowPath : list nat)
           (children : list MathNode) (targetIdx : nat) : MathNode :=
  let newChildren :=
    Js.slice 0 targetIdx children ++ Js.sliceFrom (targetIdx + 1) children in
  replaceNodeAtPath root rowPath (node.row (orPlaceholder newChildren)).

(** [deleteAtPosition].  Reading [.kind] of a child that is not there,
    which backward deletion does for an offset past the end of the row,
    raises a [TypeError]. *)
Definition deleteAtPosition (root : MathNode) (pos : CursorPosition)
           (direction : Direction)
  : outcome (option (MathNode * CursorPosition)) :=
  match getNodeAtPath root (path pos) with
  | None => Ok None
  | Some (RowNode children) =>
      match direction with
      | backward =>
          if offset pos =? 0 then
            if 0 <? length (path pos) then Ok None
            else
              match children with
              | [] => Ok None
              | [PlaceholderNode] => Ok None
              | targetChild :: _ =>
                  if isStructuredNode targetChild then
                    Ok (flattenStructureForward root (path pos) 0 targetChild)
                  else
                    let newChildren := Js.sliceFrom 1 children in
                    let newRow := node.row (orPlaceholder newChildren) in
                    Ok (Some (replaceNodeAtPath root (path pos) newRow,
                              cursor (path pos) 0))
              end
          else
            let targetIdx := offset pos - 1 in
            match nth_error children targetIdx with
            | None => Throw TypeError
            | Some targetChild =>
                if isStructuredNode targetChild then
                  Ok (flattenStructureBackward root (path pos) targetIdx
                                               targetChild)
                else
                  Ok (Some (removeChild root (path pos) children targetIdx,
                            cursor (path pos) (Nat.max 0 targetIdx)))
            end
      | forward =>
          if length children <=? offset pos then Ok None
          else
            let targetIdx := offset pos in
            match nth_error children targetIdx with
            | None => Throw TypeError
            | Some targetChild =>
                if isStructuredNode targetChild then
                  Ok (flattenStructureForward root (path pos) targetIdx
                                              targetChild)
                else
                  Ok (Some (removeChild root (path pos) children targetIdx,
                            cursor (path pos) targetIdx))
            end
      end
  | Some PlaceholderNode => Ok (deleteContainingStructure root (path pos))
  | Some _ => Ok None
  end.

(** The [while] loop of [deleteRange]: from the common ancestor up to
    the first row, or to the root; the path it stops at and the node
    there. *)
Fixpoint rowAtOrAbove (root : MathNode) (rpath : list nat)
  : list nat * option MathNode :=
  match getNodeAtPath root (rev rpath), rpath with
  | Some (RowNode _ as n), _ => (rev rpath, Some n)
  | Some n, [] => ([], Some n)
  | Some _, _ :: rparent => rowAtOrAbove root rparent
  | None, _ => (rev rpath, None)
  end.

Definition deleteRange (root : MathNode) (selection : Selection)
  : option (MathNode * CursorPosition) :=
  let start := getStart selection in
  let end_ := getEnd selection in
  if samePath (path start) (path end_) then
    match getNodeAtPath root (path start) with
    | Some (RowNode children) =>
        let newChildren :=
          Js.slice 0 (offset start) children
          ++ Js.sliceFrom (offset end_) children in
        let newRow := node.row (orPlaceholder newChildren) in
        Some (replaceNodeAtPath root (path start) newRow, start)
    | _ => None
    end
  else
    let commonPath := findCommonAncestorPath (path start) (path end_) in
    match rowAtOrAbove root (rev commonPath) with
    | (rowPath, Some (RowNode children)) =>
        let startIdx :=
          if length rowPath <? length (path start)
          then nth (length rowPath) (path start) 0
          else if length (path start) =? length rowPath then offset start
          else 0 in
        let endIdx :=
          if length rowPath <? length (path end_)
          then nth (length rowPath) (path end_) 0 + 1
          else if length (path end_) =? length rowPath then offset end_
          else length children in
        let startIdx := Nat.max 0 (Nat.min startIdx (length children)) in
        let endIdx := Nat.max startIdx (Nat.min endIdx (length children)) in
        let newChildren :=
          Js.slice 0 startIdx children ++ Js.sliceFrom endIdx children in
        let newRow := node.row (orPlaceholder newChildren) in
        Some (replaceNodeAtPath root rowPath newRow, cursor rowPath startIdx)
    | _ => Some (root, start)
    end.

Definition deleteSelection : Command := fun state =>
  if isCollapsed (selection state) then Ok None
  else
    match deleteRange (root state) (selection state) with
    | None => Ok None
    | Some (newRoot, newPos) =>
        Ok (Some (updateState state newRoot (collapsedSelection newPos)))
    end.

Definition deleteBackward : Command := fun state =>
  if negb (isCollapsed (selection state)) then deleteSelection state
  else
    result <- deleteAtPosition (root state) (focus (selection state))
                               backward ;;
    match result with
    | None => moveLeft false state
    | Some (newRoot, newPos) =>
        Ok (Some (updateState state newRoot (collapsedSelection newPos)))
    end.

Definition deleteForward : Command := fun state =>
  if negb (isCollapsed (selection state)) then deleteSelection state
  else
    result <- deleteAtPosition (root state) (focus (selection state))
                               forward ;;
    match result with
    | None => Ok None
    | Some (newRoot, newPos) =>
        Ok (Some (updateState state newRoot (collapsedSelection newPos)))
    end.

End Delete.

(* ================================================================== *)
(** ** Searches return on a tree whose root is a row *)
(* ================================================================== *)

Module FocusableProps.
Import Ast Cursor Focusable Outcome.

Lemma list_max_In (l : list nat) x : In x l -> x <= list_max l.
Proof.
  induction l as [|y l IH]; simpl; [tauto|].
  intros [->|H]; [lia|]. specialize (IH H). lia.
Qed.

Lemma depth_child n c : In c (getChildNodes n) -> depth c < depth n.
Proof.
  destruct n as [v|v|v|v|s| |cs|a b|a b|a b|a b d|a i|o cl a s|nm arg lim|rows st cs];
    simpl; try tauto.
  - intros H. apply Nat.lt_succ_r, list_max_In, in_map, H.
  - intros [<-|[<-|[]]]; lia.
  - intros [<-|[<-|[]]]; lia.
  - intros [<-|[<-|[]]]; lia.
  - intros [<-|[<-|[<-|[]]]]; lia.
  - destruct i as [x|]; simpl; intros H.
    + destruct H as [<-|[<-|[]]]; lia.
    + destruct H as [<-|[]]; lia.
  - intros [<-|[]]; lia.
  - intros H. apply in_app_or in H. destruct H as [H|H].
    + destruct arg as [x|]; simpl in H; [|tauto].
      destruct H as [<-|[]]. lia.
    + apply in_app_or in H.
      destruct lim as [[[lo|] [up|]]|]; simpl in H;
        intuition (subst; simpl; lia).
  - intros H. apply in_concat in H. destruct H as (r & Hr & Hc).
    apply Nat.lt_succ_r.
    transitivity (list_max (map depth r)).
    + apply list_max_In, in_map, Hc.
    + apply list_max_In.
      apply (in_map (fun r => list_max (map depth r))) in Hr. exact Hr.
Qed.

Lemma depth_at_path p : forall root n,
  getNodeAtPath root p = Some n -> depth n <= depth root.
Proof.
  induction p as [|i p IH]; intros root n; simpl.
  - intros H; inversion H; lia.
  - destruct (nth_error (getChildNodes root) i) as [c|] eqn:E; [|discriminate].
    intros H. apply IH in H. apply nth_error_In in E.
    apply depth_child in E. lia.
Qed.

Lemma lastWithRow_nth children : forall k i child,
  lastWithRow children k = Some (i, child) ->
  k <= i /\ nth_error children (i - k) = Some child.
Proof.
  induction children as [|c rest IH]; intros k i child; simpl; [discriminate|].
  destruct (lastWithRow rest (S k)) as [[i' c']|] eqn:E.
  - intros H; inversion H; subst. apply IH in E. destruct E as [Hle Hn].
    split; [lia|]. replace (i - k) with (S (i - S k)) by lia. exact Hn.
  - destruct (isRow c || hasDescendantRow c); [|discriminate].
    intros H; inversion H; subst. rewrite Nat.sub_diag. split; [lia|reflexivity].
Qed.

Lemma nearestRowAbove_some root rpath :
  isRow root = true -> rpath <> [] ->
  exists c, nearestRowAbove root rpath = Some c.
Proof.
  intros Hroot. induction rpath as [|i rparent IH]; [contradiction|].
  intros _. simpl.
  destruct rparent as [|j rp].
  - simpl. destruct root; try discriminate. eauto.
  - destruct (getNodeAtPath root (rev (j :: rp))) as [[]|];
      try (apply IH; discriminate); eauto.
Qed.

(** With enough fuel for the height of the node it starts from,
    [findLastFocusable] returns a cursor when the root is a row. *)
Lemma findLastFocusableIn_returns root :
  isRow root = true ->
  forall fuel basePath,
    depth (orRoot root (getNodeAtPath root basePath)) + 2 <= fuel ->
    exists c, findLastFocusableIn fuel root basePath = Ok c.
Proof.
  intros Hroot. induction fuel as [|fuel IH]; intros basePath Hfuel; [lia|].
  simpl.
  destruct (getNodeAtPath root basePath) as [node|] eqn:Hnode; simpl in *.
  2:{ destruct root; try discriminate. eauto. }
  assert (Hfall : node = node -> isRow node = false ->
            exists c, coerceToRowCursorIn fuel root (cursor basePath 0) = Ok c).
  { intros _ Hnr. destruct fuel as [|fuel']; [lia|]. simpl. rewrite Hnode.
    destruct (nearestRowAbove_some root (rev basePath) Hroot) as [c Hc].
    - destruct basePath; [|intros E; apply (f_equal (@length nat)) in E;
                           simpl in E; rewrite length_app in E; simpl in E; lia].
      simpl in Hnode. inversion Hnode; subst. congruence.
    - rewrite Hc. destruct node; try discriminate; eauto. }
  assert (Hrec : forall i child,
            lastWithRow (getChildNodes node) 0 = Some (i, child) ->
            exists c, findLastFocusableIn fuel root (basePath ++ [i]) = Ok c).
  { intros i child E. apply lastWithRow_nth in E. destruct E as [_ E].
    rewrite Nat.sub_0_r in E. apply IH.
    rewrite Paths.getNodeAtPath_app, Hnode. simpl. rewrite E. simpl.
    apply nth_error_In, depth_child in E. lia. }
  destruct node; try (eauto; fail);
    match goal with
    | |- context [lastWithRow ?l 0] =>
        destruct (lastWithRow l 0) as [[i []]|] eqn:E;
        try (eapply Hrec; exact E); try (apply Hfall; reflexivity); eauto
    end.
Qed.

Lemma findLastFocusable_returns root basePath :
  isRow root = true -> exists c, findLastFocusable root basePath = Ok c.
Proof.
  intros Hroot. apply findLastFocusableIn_returns; [exact Hroot|].
  unfold searchFuel.
  destruct (getNodeAtPath root basePath) as [n|] eqn:E; simpl.
  - apply depth_at_path in E. lia.
  - lia.
Qed.

End FocusableProps.

(* ================================================================== *)
(** ** Properties of the delete commands *)
(* ================================================================== *)

Module DeleteProps.
Import Ast Cursor Selection Model Paths Focusable Navigate Delete.
Import Outcome FocusableProps.

Lemma getNodeAtPath_parent root p i n :
  getNodeAtPath root (p ++ [i]) = Some n ->
  exists parent, getNodeAtPath root p = Some parent /\
                 nth_error (getChildNodes parent) i = Some n.
Proof.
  rewrite getNodeAtPath_app.
  destruct (getNodeAtPath root p) as [parent|]; [|discriminate].
  simpl. destruct (nth_error (getChildNodes parent) i) as [c|] eqn:E;
    [|discriminate].
  intros H; inversion H; subst. eauto.
Qed.

(** From a position inside a tree whose root is a row, leaving to the
    left always arrives somewhere. *)
Lemma exitNodeLeftUp_returns root :
  isRow root = true ->
  forall rpath n,
    rpath <> [] ->
    getNodeAtPath root (rev rpath) = Some n ->
    exists c, exitNodeLeftUp root rpath = Ok (Some c).
Proof.
  intros Hroot. induction rpath as [|i rparent IH]; intros n Hne Hn;
    [contradiction|].
  simpl in Hn. apply getNodeAtPath_parent in Hn.
  destruct Hn as (parent & Hp & _).
  assert (Hup : isRow parent = false ->
                exists c, exitNodeLeftUp root rparent = Ok (Some c)).
  { intros Hnr. apply (IH parent); [|exact Hp].
    intros ->. simpl in Hp. inversion Hp; subst. congruence. }
  simpl. rewrite Hp.
  destruct parent; try (apply Hup; reflexivity); eauto.
  destruct (0 <? i); [|apply Hup; reflexivity].
  destruct (findLastFocusable_returns root (rev rparent ++ [i - 1]) Hroot)
    as [c Hc].
  rewrite Hc. simpl. eauto.
Qed.

(** C9.  With the selection collapsed at offset 0 of a row that is not
    the root, backward deletion is inapplicable at that position and
    [deleteBackward] is [moveLeft(false)]: any state it returns has the
    tree of the input state, and when the root is a row it does return
    one. *)
Theorem deleteBackward_at_nested_start state p children :
  isCollapsed (selection state) = true ->
  focus (selection state) = cursor p 0 ->
  p <> [] ->
  getNodeAtPath (root state) p = Some (RowNode children) ->
  deleteAtPosition (root state) (cursor p 0) backward = Ok None /\
  deleteBackward state = moveLeft false state /\
  (forall state', deleteBackward state = Ok (Some state') ->
                  root state' = root state) /\
  (isRow (root state) = true ->
   exists state', deleteBackward state = Ok (Some state') /\
                  root state' = root state).
Proof.
  intros Hcol Hfocus Hp Hnode.
  assert (Hdel : deleteAtPosition (root state) (cursor p 0) backward = Ok None).
  { unfold deleteAtPosition. simpl. rewrite Hnode.
    destruct p; [contradiction|]. reflexivity. }
  assert (Hmove : deleteBackward state = moveLeft false state).
  { unfold deleteBackward. rewrite Hcol, Hfocus, Hdel. reflexivity. }
  repeat split; auto.
  - intros state' H. rewrite Hmove in H. eapply moveLeft_root; eauto.
  - intros Hroot. rewrite Hmove. unfold moveLeft.
    rewrite Hcol, Hfocus. simpl.
    unfold moveCursorLeft. simpl. rewrite Hnode. simpl.
    unfold exitNodeLeft.
    destruct (exitNodeLeftUp_returns (root state) Hroot (rev p)
                                     (RowNode children)) as [c Hc].
    + intros E. apply Hp. apply (f_equal (@rev nat)) in E.
      rewrite rev_involutive in E. exact E.
    + rewrite rev_involutive. exact Hnode.
    + rewrite Hc. simpl. eauto.
Qed.

Lemma deleteBackward_at_nested_start_witness :
  let fractionRow :=
    RowNode [FractionNode (RowNode [PlaceholderNode])
                          (RowNode [PlaceholderNode])] in
  let state := {| root := fractionRow;
                  selection := collapsedSelection (cursor [0; 0] 0) |} in
  deleteBackward state
  = Ok (Some {| root := fractionRow;
                selection := collapsedSelection (cursor [] 0) |}) /\
  forall state', deleteBackward state = Ok (Some state') ->
                 root state' = root state.
Proof.
  split; [reflexivity|].
  refine (proj1 (proj2 (proj2
    (deleteBackward_at_nested_start
       {| root := RowNode [FractionNode (RowNode [PlaceholderNode])
                                        (RowNode [PlaceholderNode])];
          selection := collapsedSelection (cursor [0; 0] 0) |}
       [0; 0] [PlaceholderNode] _ _ _ _)))).
  - reflexivity.
  - reflexivity.
  - discriminate.
  - reflexivity.
Defined.

(** *** Rebuilding along a path puts the new node there *)

(** The parents [replaceChild] of [delete.ts] rebuilds. *)
Definition rebuildable (parent : MathNode) : bool :=
  match parent with
  | FunctionNode _ _ _ | MatrixNode _ _ _ => false
  | _ => true
  end.

(** [path] leads to a node of [root] through rebuildable parents only. *)
Fixpoint rebuilds (root : MathNode) (path : list nat) : bool :=
  match path with
  | [] => true
  | i :: rest =>
      rebuildable root
      && match nth_error (getChildNodes root) i with
         | Some child => rebuilds child rest
         | None => false
         end
  end.

(** The tree with the node at [path] replaced, built from the root
    down. *)
Fixpoint updateAt (root : MathNode) (path : list nat) (newNode : MathNode)
  : MathNode :=
  match path with
  | [] => newNode
  | i :: rest =>
      match nth_error (getChildNodes root) i with
      | None => root
      | Some child => replaceChild root i (updateAt child rest newNode)
      end
  end.

Lemma replaceChild_children parent i c :
  rebuildable parent = true ->
  i < length (getChildNodes parent) ->
  getChildNodes (replaceChild parent i c) = Js.setAt i c (getChildNodes parent).
Proof.
  destruct parent as [v|v|v|v|s| |cs|a b|a b|a b|a b d|a ix|o cl a s|nm arg lim|rows st cs];
    simpl; intros Hr Hi; try lia; try discriminate; try reflexivity.
  - destruct i as [|[|i]]; simpl in *; try lia; reflexivity.
  - destruct i as [|[|i]]; simpl in *; try lia; reflexivity.
  - destruct i as [|[|i]]; simpl in *; try lia; reflexivity.
  - destruct i as [|[|[|i]]]; simpl in *; try lia; reflexivity.
  - destruct ix as [x|]; destruct i as [|[|i]]; simpl in *; try lia; reflexivity.
  - destruct i as [|i]; simpl in *; try lia; reflexivity.
Qed.

Lemma updateAt_snoc p : forall root parent i newNode,
  getNodeAtPath root p = Some parent ->
  i < length (getChildNodes parent) ->
  updateAt root (p ++ [i]) newNode
  = updateAt root p (replaceChild parent i newNode).
Proof.
  induction p as [|j p IH]; intros root parent i newNode Hp Hi; simpl in *.
  - inversion Hp; subst.
    destruct (nth_error (getChildNodes parent) i) eqn:E; [reflexivity|].
    apply nth_error_None in E. lia.
  - destruct (nth_error (getChildNodes root) j) as [c|]; [|discriminate].
    rewrite (IH c parent i newNode Hp Hi). reflexivity.
Qed.

Lemma replaceNodeAtPath_updateAt p : forall root newNode n,
  getNodeAtPath root p = Some n ->
  replaceNodeAtPath root p newNode = updateAt root p newNode.
Proof.
  induction p as [|i p IH] using rev_ind; intros root newNode n Hn.
  - reflexivity.
  - unfold replaceNodeAtPath. rewrite replaceNodeAtPath_snoc.
    apply getNodeAtPath_parent in Hn. destruct Hn as (parent & Hp & Hc).
    rewrite Hp. fold replaceNodeAtPath. rewrite (IH _ _ parent Hp).
    symmetry. apply updateAt_snoc; [exact Hp|].
    apply nth_error_Some. congruence.
Qed.

Lemma updateAt_get p : forall root newNode,
  rebuilds root p = true ->
  getNodeAtPath (updateAt root p newNode) p = Some newNode.
Proof.
  induction p as [|i p IH]; intros root newNode H; simpl in *; [reflexivity|].
  apply andb_prop in H. destruct H as [Hr Hc].
  destruct (nth_error (getChildNodes root) i) as [c|] eqn:E; [|discriminate].
  assert (Hi : i < length (getChildNodes root))
    by (apply nth_error_Some; congruence).
  unfold getChildNodes in *.
  rewrite (replaceChild_children root i _ Hr Hi), (Js.setAt_nth _ _ _ Hi).
  apply IH, Hc.
Qed.

Lemma rebuilds_valid p : forall root,
  rebuilds root p = true -> exists n, getNodeAtPath root p = Some n.
Proof.
  induction p as [|i p IH]; intros root H; simpl in *; [eauto|].
  apply andb_prop in H. destruct H as [_ H].
  destruct (nth_error (getChildNodes root) i); [auto|discriminate].
Qed.

Lemma replaceNodeAtPath_get root p newNode :
  rebuilds root p = true ->
  getNodeAtPath (replaceNodeAtPath root p newNode) p = Some newNode.
Proof.
  intros H. destruct (rebuilds_valid p root H) as [n Hn].
  rewrite (replaceNodeAtPath_updateAt p root newNode n Hn).
  apply updateAt_get, H.
Qed.

Lemma deleteContainingStructure_at root rowPath children sIdx structure slot :
  getNodeAtPath root rowPath = Some (RowNode children) ->
  nth_error children sIdx = Some structure ->
  isStructuredNode structure = true ->
  deleteContainingStructure root (rowPath ++ [sIdx; slot])
  = Some (replaceNodeAtPath root rowPath
            (RowNode (Js.setAt sIdx PlaceholderNode children)),
          cursor (rowPath ++ [sIdx]) 0).
Proof.
  intros Hrow Hs Hst. unfold deleteContainingStructure.
  rewrite length_app. simpl.
  replace (length rowPath + 2 <? 2) with false
    by (symmetry; apply Nat.ltb_ge; lia).
  replace (rowPath ++ [sIdx; slot]) with ((rowPath ++ [sIdx]) ++ [slot])
    by (rewrite <- app_assoc; reflexivity).
  rewrite !parentPath_snoc, indexInParent_snoc, Nat2Z.id.
  rewrite getNodeAtPath_app, Hrow. simpl. unfold getChildNodes. simpl.
  rewrite Hs, Hst. reflexivity.
Qed.

(** C8, as the code has it.  When the cursor path addresses a
    placeholder that is itself a slot of a structure node (a fraction,
    power, subscript, subsup, sqrt, parens or matrix), and that structure
    is a child of a row reached through parents the delete command
    rebuilds, a delete in either direction replaces the structure by a
    placeholder at its index in that row and puts the cursor on the path
    of that placeholder, offset 0. *)
Theorem delete_at_slot_placeholder
        state rowPath children sIdx structure slot off :
  isCollapsed (selection state) = true ->
  focus (selection state) = cursor (rowPath ++ [sIdx; slot]) off ->
  getNodeAtPath (root state) rowPath = Some (RowNode children) ->
  nth_error children sIdx = Some structure ->
  isStructuredNode structure = true ->
  nth_error (getChildNodes structure) slot = Some PlaceholderNode ->
  rebuilds (root state) rowPath = true ->
  exists newRoot,
    let state' := {| root := newRoot;
                     selection := collapsedSelection
                                    (cursor (rowPath ++ [sIdx]) 0) |} in
    deleteBackward state = Ok (Some state') /\
    deleteForward state = Ok (Some state') /\
    getNodeAtPath newRoot rowPath
    = Some (RowNode (Js.setAt sIdx PlaceholderNode children)) /\
    getNodeAtPath newRoot (rowPath ++ [sIdx]) = Some PlaceholderNode.
Proof.
  intros Hcol Hfocus Hrow Hs Hst Hslot Hre.
  exists (replaceNodeAtPath (root state) rowPath
            (RowNode (Js.setAt sIdx PlaceholderNode children))).
  assert (Hat : forall dir,
             deleteAtPosition (root state) (cursor (rowPath ++ [sIdx; slot]) off)
                              dir
             = Ok (deleteContainingStructure (root state)
                                             (rowPath ++ [sIdx; slot]))).
  { intros dir. unfold deleteAtPosition. simpl.
    rewrite getNodeAtPath_app, Hrow. simpl.
    unfold getChildNodes in Hslot |- *. simpl.
    rewrite Hs, Hslot. reflexivity. }
  assert (Hget : getNodeAtPath
                   (replaceNodeAtPath (root state) rowPath
                      (RowNode (Js.setAt sIdx PlaceholderNode children)))
                   rowPath
                 = Some (RowNode (Js.setAt sIdx PlaceholderNode children)))
    by (apply replaceNodeAtPath_get, Hre).
  cbv zeta. repeat split.
  - unfold deleteBackward. rewrite Hcol, Hfocus, Hat. simpl.
    rewrite (deleteContainingStructure_at _ _ _ _ _ slot Hrow Hs Hst).
    reflexivity.
  - unfold deleteForward. rewrite Hcol, Hfocus, Hat. simpl.
    rewrite (deleteContainingStructure_at _ _ _ _ _ slot Hrow Hs Hst).
    reflexivity.
  - exact Hget.
  - rewrite getNodeAtPath_app, Hget. simpl. unfold getChildNodes. simpl.
    rewrite Js.setAt_nth; [reflexivity|].
    apply nth_error_Some. congruence.
Qed.

Lemma delete_at_slot_placeholder_witness :
  let rawRow :=
    RowNode [SymbolNode "a"; FractionNode PlaceholderNode (NumberNode "2")] in
  let state := {| root := rawRow;
                  selection := collapsedSelection (cursor [1; 0] 0) |} in
  exists newRoot,
    deleteForward state
    = Ok (Some {| root := newRoot;
                  selection := collapsedSelection (cursor [1] 0) |}) /\
    getNodeAtPath newRoot [] = Some (RowNode [SymbolNode "a"; PlaceholderNode]).
Proof.
  destruct (delete_at_slot_placeholder
              {| root := RowNode [SymbolNode "a";
                                  FractionNode PlaceholderNode (NumberNode "2")];
                 selection := collapsedSelection (cursor [1; 0] 0) |}
              [] [SymbolNode "a"; FractionNode PlaceholderNode (NumberNode "2")]
              1 (FractionNode PlaceholderNode (NumberNode "2")) 0 0
              eq_refl eq_refl eq_refl eq_refl eq_refl eq_refl eq_refl)
    as (newRoot & _ & Hf & Hg & _).
  exists newRoot. split; [exact Hf | exact Hg].
Defined.

(** C8 as claimed does not hold in an editor state.  After
    [insertFraction] on the empty state the cursor sits in the numerator
    row, whose only content is a placeholder: [deleteForward] returns
    the same tree, [deleteBackward] leaves the fraction through
    [moveLeft], and with the cursor path on the placeholder node itself
    the deletion is inapplicable, its parent being the slot row. *)
Lemma delete_at_lone_placeholder_keeps_structure :
  let emptyFraction :=
    RowNode [FractionNode (RowNode [PlaceholderNode])
                          (RowNode [PlaceholderNode])] in
  let state := {| root := emptyFraction;
                  selection := collapsedSelection (cursor [0; 0] 0) |} in
  deleteForward state = Ok (Some state) /\
  deleteBackward state
  = Ok (Some {| root := emptyFraction;
                selection := collapsedSelection (cursor [] 0) |}) /\
  deleteAtPosition emptyFraction (cursor [0; 0; 0] 0) forward = Ok None /\
  deleteAtPosition emptyFraction (cursor [0; 0; 0] 0) backward = Ok None.
Proof. repeat split; reflexivity. Qed.

(** *** The never-empty row invariant *)

(** Every row of the tree has a child. *)
Fixpoint rowsNonEmpty (n : MathNode) : bool :=
  let opt (o : option MathNode) : bool :=
    match o with Some x => rowsNonEmpty x | None => true end in
  match n with
  | RowNode cs => negb (length cs =? 0) && forallb rowsNonEmpty cs
  | FractionNode a b => rowsNonEmpty a && rowsNonEmpty b
  | PowerNode a b => rowsNonEmpty a && rowsNonEmpty b
  | SubscriptNode a b => rowsNonEmpty a && rowsNonEmpty b
  | SubSupNode a b c => rowsNonEmpty a && rowsNonEmpty b && rowsNonEmpty c
  | SqrtNode r i => rowsNonEmpty r && opt i
  | ParensNode _ _ c _ => rowsNonEmpty c
  | FunctionNode _ arg lim =>
      opt arg
      && match lim with
         | Some (lo, up) => opt lo && opt up
         | None => true
         end
  | MatrixNode rows _ _ => forallb (forallb rowsNonEmpty) rows
  | _ => true
  end.

(** Every editable slot of every structure is a row: what
    [normalizeStructureSlots] establishes. *)
Fixpoint slotsAreRows (n : MathNode) : bool :=
  let slot (x : MathNode) : bool := isRow x && slotsAreRows x in
  let opt (o : option MathNode) : bool :=
    match o with Some x => isRow x && slotsAreRows x | None => true end in
  match n with
  | RowNode cs => forallb slotsAreRows cs
  | FractionNode a b => slot a && slot b
  | PowerNode a b => slotsAreRows a && slot b
  | SubscriptNode a b => slotsAreRows a && slot b
  | SubSupNode a b c => slotsAreRows a && slot b && slot c
  | SqrtNode r i => slot r && opt i
  | ParensNode _ _ c _ => slot c
  | FunctionNode _ arg lim =>
      opt arg
      && match lim with
         | Some (lo, up) => opt lo && opt up
         | None => true
         end
  | MatrixNode rows _ _ =>
      forallb (forallb (fun x => isRow x && slotsAreRows x)) rows
  | _ => true
  end.

(** A normalized tree: the root is a row, no row is empty, every slot
    is a row. *)
Definition normalized (root : MathNode) : bool :=
  isRow root && rowsNonEmpty root && slotsAreRows root.

Definition ok (n : MathNode) : Prop := rowsNonEmpty n = true.

Lemma forallb_ok l : forallb rowsNonEmpty l = true <-> Forall ok l.
Proof.
  rewrite forallb_forall, Forall_forall. reflexivity.
Qed.

Lemma row_ok cs : cs <> [] -> Forall ok cs -> ok (RowNode cs).
Proof.
  intros Hne H. unfold ok. simpl. apply andb_true_intro. split.
  - destruct cs; [contradiction|reflexivity].
  - apply forallb_ok, H.
Qed.

Lemma ok_row cs : ok (RowNode cs) -> cs <> [] /\ Forall ok cs.
Proof.
  unfold ok. simpl. intros H. apply andb_prop in H. destruct H as [Hn Hc].
  split; [destruct cs; [discriminate|discriminate] | apply forallb_ok, Hc].
Qed.

Lemma ok_children n : ok n -> Forall ok (getChildNodes n).
Proof.
  unfold ok.
  destruct n as [v|v|v|v|s| |cs|a b|a b|a b|a b d|a ix|o cl a s|nm arg lim|rows st cs];
    simpl; intros H; repeat constructor;
    repeat match goal with
           | H : _ && _ = true |- _ => apply andb_prop in H; destruct H
           end; auto.
  - apply forallb_ok. assumption.
  - destruct ix as [x|]; repeat constructor; auto.
  - destruct arg as [x|]; destruct lim as [[[lo|] [up|]]|]; simpl in *;
      repeat match goal with
             | H : _ && _ = true |- _ => apply andb_prop in H; destruct H
             end; repeat constructor; auto.
  - induction rows as [|r rs IH]; simpl in *; [constructor|].
    apply andb_prop in H. destruct H as [Hr Hrs].
    apply Forall_app. split; [apply forallb_ok, Hr | apply IH, Hrs].
Qed.

Lemma ok_at_path p : forall root n,
  ok root -> getNodeAtPath root p = Some n -> ok n.
Proof.
  induction p as [|i p IH]; intros root n Hok; simpl.
  - intros H; inversion H; subst; exact Hok.
  - destruct (nth_error (getChildNodes root) i) as [c|] eqn:E; [|discriminate].
    apply IH. apply nth_error_In in E.
    exact (proj1 (Forall_forall _ _) (ok_children root Hok) c E).
Qed.

Lemma replaceChild_ok parent i newChild :
  ok parent -> ok newChild -> ok (replaceChild parent i newChild).
Proof.
  unfold ok.
  destruct parent as [v|v|v|v|s| |cs|a b|a b|a b|a b d|a ix|o cl a s|nm arg lim|rows st cs];
    simpl; intros Hp Hn; auto;
    repeat match goal with
           | H : _ && _ = true |- _ => apply andb_prop in H; destruct H
           end.
  1:{ rewrite Js.setAt_length. apply andb_true_intro. split; [assumption|].
      apply forallb_ok, Js.setAt_Forall;
        [exact Hn | apply forallb_ok; assumption]. }
  all: repeat match goal with
              | |- context [if ?b then _ else _] => destruct b
              end;
    simpl; repeat (apply andb_true_intro; split); auto.
Qed.

Lemma replaceNodeAtPath_ok root p newNode :
  ok root -> ok newNode -> ok (replaceNodeAtPath root p newNode).
Proof.
  intros Hroot. unfold replaceNodeAtPath, Paths.replaceNodeAtPath.
  generalize (rev p) as rpath. intros rpath; revert newNode.
  induction rpath as [|i rparent IH]; intros newNode Hn; simpl; [exact Hn|].
  destruct (getNodeAtPath root (rev rparent)) as [parent|] eqn:E; [|exact Hroot].
  apply IH, replaceChild_ok; [|exact Hn].
  exact (ok_at_path _ _ _ Hroot E).
Qed.

Lemma orPlaceholder_row_ok l : Forall ok l -> ok (RowNode (orPlaceholder l)).
Proof.
  intros H. destruct l as [|x l]; simpl.
  - reflexivity.
  - apply row_ok; [discriminate | exact H].
Qed.

Lemma Forall_sliceFrom {A} (P : A -> Prop) n l :
  Forall P l -> Forall P (Js.sliceFrom n l).
Proof. apply Js.Forall_skipn. Qed.

Lemma cut_ok a b children :
  Forall ok children ->
  Forall ok (Js.slice 0 a children ++ Js.sliceFrom b children).
Proof.
  intros H. apply Forall_app.
  split; [apply Js.Forall_slice, H | apply Forall_sliceFrom, H].
Qed.

Lemma getMainContent_ok structure m :
  ok structure -> getMainContent structure = Some m -> ok m.
Proof.
  intros Hok E.
  pose proof (ok_children structure Hok) as Hc.
  destruct structure; simpl in *; try discriminate; inversion E; subst;
    try (inversion Hc; assumption).
  destruct index; inversion Hc; assumption.
Qed.

Lemma flattenStructureBackward_ok root rowPath targetIdx structure newRoot c :
  ok root -> ok structure ->
  flattenStructureBackward root rowPath targetIdx structure = Some (newRoot, c) ->
  ok newRoot.
Proof.
  intros Hroot Hst. unfold flattenStructureBackward.
  destruct (getNodeAtPath root rowPath) as [[]|] eqn:E; try discriminate.
  destruct (getMainContent structure) as [m|] eqn:M; [|discriminate].
  intros H; inversion H; subst; clear H.
  apply replaceNodeAtPath_ok; [exact Hroot|].
  pose proof (ok_row _ (ok_at_path _ _ _ Hroot E)) as [_ Hcs].
  pose proof (getMainContent_ok _ _ Hst M) as Hm.
  assert (Hcontent : (match m with RowNode cs => cs | _ => [m] end) <> [] /\
                     Forall ok (match m with RowNode cs => cs | _ => [m] end)).
  { destruct m; try (split; [discriminate | repeat constructor; exact Hm]).
    apply ok_row, Hm. }
  destruct Hcontent as [Hne Hall].
  apply row_ok.
  - intros Habs. apply app_eq_nil in Habs. destruct Habs as [_ Habs].
    apply app_eq_nil in Habs. destruct Habs as [Habs _]. contradiction.
  - apply Forall_app. split; [apply Js.Forall_slice, Hcs|].
    apply Forall_app. split; [exact Hall | apply Forall_sliceFrom, Hcs].
Qed.

Lemma deleteContainingStructure_ok root placeholderPath newRoot c :
  ok root ->
  deleteContainingStructure root placeholderPath = Some (newRoot, c) ->
  ok newRoot.
Proof.
  intros Hroot. unfold deleteContainingStructure.
  destruct (length placeholderPath <? 2); [discriminate|].
  destruct (getNodeAtPath root (parentPath placeholderPath)) as [st|];
    [|discriminate].
  destruct (negb (isStructuredNode st)); [discriminate|].
  destruct (getNodeAtPath root (parentPath (parentPath placeholderPath)))
    as [[]|] eqn:E; try discriminate.
  intros H; inversion H; subst; clear H.
  apply replaceNodeAtPath_ok; [exact Hroot|].
  pose proof (ok_row _ (ok_at_path _ _ _ Hroot E)) as [Hne Hcs].
  apply row_ok.
  - intros Habs. apply (f_equal (@length MathNode)) in Habs.
    rewrite Js.setAt_length in Habs. destruct children; [contradiction|].
    discriminate.
  - apply Js.setAt_Forall; [reflexivity | exact Hcs].
Qed.

Lemma removeChild_ok root rowPath children targetIdx :
  ok root -> Forall ok children ->
  ok (removeChild root rowPath children targetIdx).
Proof.
  intros Hroot Hcs. unfold removeChild.
  apply replaceNodeAtPath_ok; [exact Hroot|].
  apply orPlaceholder_row_ok, cut_ok, Hcs.
Qed.

Lemma deleteAtPosition_ok root pos direction newRoot c :
  ok root ->
  deleteAtPosition root pos direction = Ok (Some (newRoot, c)) ->
  ok newRoot.
Proof.
  intros Hroot. unfold deleteAtPosition.
  destruct (getNodeAtPath root (path pos)) as [node|] eqn:E; [|discriminate].
  pose proof (ok_at_path _ _ _ Hroot E) as Hnode.
  destruct node; try discriminate.
  - intros H. inversion H as [H']; clear H.
    eapply deleteContainingStructure_ok; [exact Hroot | exact H'].
  - apply ok_row in Hnode. destruct Hnode as [Hne Hcs].
    assert (Hflat : forall idx target r,
               In target children ->
               Ok (flattenStructureBackward root (path pos) idx target)
               = Ok (Some (newRoot, r)) -> ok newRoot).
    { intros idx target r Hin H. inversion H as [H']; clear H.
      eapply flattenStructureBackward_ok; [exact Hroot| |exact H'].
      exact (proj1 (Forall_forall _ _) Hcs target Hin). }
    destruct direction.
    + destruct (length children <=? offset pos); [discriminate|].
      destruct (nth_error children (offset pos)) as [target|] eqn:T;
        [|discriminate].
      destruct (isStructuredNode target).
      * apply Hflat. eapply nth_error_In; eauto.
      * intros H; inversion H; subst. apply removeChild_ok; assumption.
    + destruct (offset pos =? 0).
      * destruct (0 <? length (path pos)); [discriminate|].
        destruct children as [|target rest]; [discriminate|].
        assert (Hgen :
                  (if isStructuredNode target
                   then Ok (flattenStructureForward root (path pos) 0 target)
                   else Ok (Some (replaceNodeAtPath root (path pos)
                                    (node.row (orPlaceholder
                                       (Js.sliceFrom 1 (target :: rest)))),
                                  cursor (path pos) 0)))
                  = Ok (Some (newRoot, c)) -> ok newRoot).
        { destruct (isStructuredNode target).
          - apply Hflat. left; reflexivity.
          - intros H; inversion H; subst.
            apply replaceNodeAtPath_ok; [exact Hroot|].
            apply orPlaceholder_row_ok. inversion Hcs; assumption. }
        destruct target; try exact Hgen.
        destruct rest; [discriminate | exact Hgen].
      * destruct (nth_error children (offset pos - 1)) as [target|] eqn:T;
          [|discriminate].
        destruct (isStructuredNode target).
        -- apply Hflat. eapply nth_error_In; eauto.
        -- intros H; inversion H; subst. apply removeChild_ok; assumption.
Qed.

Lemma deleteRange_ok root sel newRoot c :
  ok root -> deleteRange root sel = Some (newRoot, c) -> ok newRoot.
Proof.
  intros Hroot. unfold deleteRange.
  destruct (samePath (path (getStart sel)) (path (getEnd sel))).
  - destruct (getNodeAtPath root (path (getStart sel))) as [[]|] eqn:E;
      try discriminate.
    intros H; inversion H; subst; clear H.
    apply replaceNodeAtPath_ok; [exact Hroot|].
    apply orPlaceholder_row_ok, cut_ok.
    exact (proj2 (ok_row _ (ok_at_path _ _ _ Hroot E))).
  - destruct (rowAtOrAbove root
                (rev (findCommonAncestorPath (path (getStart sel))
                                             (path (getEnd sel)))))
      as [rowPath [node|]] eqn:R.
    2:{ intros H; inversion H; subst; exact Hroot. }
    assert (Hnode : ok node).
    { clear -Hroot R.
      revert R.
      generalize (rev (findCommonAncestorPath (path (getStart sel))
                                              (path (getEnd sel)))) as rpath.
      induction rpath as [|i rparent IH]; simpl.
      - destruct root; intros H; inversion H; subst; exact Hroot.
      - destruct (getNodeAtPath root (rev rparent ++ [i])) as [n|] eqn:E;
          [|discriminate].
        pose proof (ok_at_path _ _ _ Hroot E) as Hn.
        destruct n; try exact IH.
        intros H; inversion H; subst; exact Hn. }
    destruct node; try (intros H; inversion H; subst; exact Hroot).
    intros H; inversion H; subst; clear H.
    apply replaceNodeAtPath_ok; [exact Hroot|].
    apply orPlaceholder_row_ok, cut_ok.
    exact (proj2 (ok_row _ Hnode)).
Qed.

Lemma deleteSelection_ok state state' :
  ok (root state) -> deleteSelection state = Ok (Some state') ->
  ok (root state').
Proof.
  intros Hroot. unfold deleteSelection.
  destruct (isCollapsed (selection state)); [discriminate|].
  destruct (deleteRange (root state) (selection state)) as [[newRoot c]|] eqn:E;
    [|discriminate].
  intros H; inversion H; subst; simpl.
  eapply deleteRange_ok; eauto.
Qed.

Lemma deleteForward_ok state state' :
  ok (root state) -> deleteForward state = Ok (Some state') ->
  ok (root state').
Proof.
  intros Hroot. unfold deleteForward.
  destruct (negb (isCollapsed (selection state)));
    [apply deleteSelection_ok, Hroot|].
  destruct (deleteAtPosition (root state) (focus (selection state)) forward)
    as [[[newRoot c]|]| |] eqn:E; simpl; try discriminate.
  intros H; inversion H; subst; simpl.
  eapply deleteAtPosition_ok; eauto.
Qed.

Lemma deleteBackward_ok state state' :
  ok (root state) -> deleteBackward state = Ok (Some state') ->
  ok (root state').
Proof.
  intros Hroot. unfold deleteBackward.
  destruct (negb (isCollapsed (selection state)));
    [apply deleteSelection_ok, Hroot|].
  destruct (deleteAtPosition (root state) (focus (selection state)) backward)
    as [[[newRoot c]|]| |] eqn:E; simpl; try discriminate.
  - intros H; inversion H; subst; simpl.
    eapply deleteAtPosition_ok; eauto.
  - intros H. apply moveLeft_root in H. rewrite H. exact Hroot.
Qed.

(** *** Sequences of delete commands *)

Inductive DeleteCommand := DeleteBackward | DeleteForward | DeleteSelection.

Definition command (c : DeleteCommand) : Command :=
  match c with
  | DeleteBackward => deleteBackward
  | DeleteForward => deleteForward
  | DeleteSelection => deleteSelection
  end.

(** One command after the other, as a host applies them: a command that
    returns [null] leaves the state as it was. *)
Fixpoint applyCommands (cs : list DeleteCommand) (state : EditorState)
  : outcome EditorState :=
  match cs with
  | [] => Ok state
  | c :: rest =>
      match command c state with
      | Ok (Some state') => applyCommands rest state'
      | Ok None => applyCommands rest state
      | Throw e => Throw e
      | OutOfFuel => OutOfFuel
      end
  end.

Lemma command_ok c state state' :
  ok (root state) -> command c state = Ok (Some state') -> ok (root state').
Proof.
  destruct c; simpl;
    [apply deleteBackward_ok | apply deleteForward_ok | apply deleteSelection_ok].
Qed.

Lemma applyCommands_ok cs : forall state state',
  ok (root state) -> applyCommands cs state = Ok state' -> ok (root state').
Proof.
  induction cs as [|c rest IH]; intros state state' Hroot; simpl.
  - intros H; inversion H; subst; exact Hroot.
  - destruct (command c state) as [[s1|]| |] eqn:E; try discriminate.
    + apply IH. eapply command_ok; eauto.
    + apply IH, Hroot.
Qed.

(** C2.  From a normalized state, whatever delete commands are applied
    one after the other, every row of the tree of the state they arrive
    at has at least one child; and a row a deletion would leave empty
    gets a lone placeholder. *)
Theorem delete_keeps_rows_non_empty state cs state' :
  normalized (root state) = true ->
  applyCommands cs state = Ok state' ->
  (forall p children,
      getNodeAtPath (root state') p = Some (RowNode children) ->
      1 <= length children) /\
  rowsNonEmpty (root state') = true /\
  orPlaceholder [] = [PlaceholderNode].
Proof.
  intros Hnorm Hrun. unfold normalized in Hnorm.
  apply andb_prop in Hnorm. destruct Hnorm as [Hnorm _].
  apply andb_prop in Hnorm. destruct Hnorm as [_ Hrows].
  pose proof (applyCommands_ok cs state state' Hrows Hrun) as Hok.
  repeat split; auto.
  intros p children Hp.
  destruct (ok_row _ (ok_at_path _ _ _ Hok Hp)) as [Hne _].
  destruct children; [contradiction | simpl; lia].
Qed.

Lemma delete_keeps_rows_non_empty_witness :
  let state := {| root := RowNode [SymbolNode "x";
                                   SqrtNode (RowNode [SymbolNode "y"]) None];
                  selection := collapsedSelection (cursor [1; 0] 1) |} in
  let state' := {| root := RowNode [PlaceholderNode];
                   selection := collapsedSelection (cursor [] 0) |} in
  normalized (root state) = true /\
  applyCommands [DeleteBackward; DeleteBackward; DeleteForward;
                 DeleteBackward; DeleteForward; DeleteBackward] state
  = Ok state' /\
  rowsNonEmpty (root state') = true.
Proof.
  split; [reflexivity|]. split; [reflexivity|].
  exact (proj1 (proj2
    (delete_keeps_rows_non_empty
       {| root := RowNode [SymbolNode "x";
                           SqrtNode (RowNode [SymbolNode "y"]) None];
          selection := collapsedSelection (cursor [1; 0] 1) |}
       [DeleteBackward; DeleteBackward; DeleteForward;
        DeleteBackward; DeleteForward; DeleteBackward]
       {| root := RowNode [PlaceholderNode];
          selection := collapsedSelection (cursor [] 0) |}
       eq_refl eq_refl))).
Defined.

End DeleteProps.

(* ================================================================== *)
(** ** Document order of cursors ([compareCursors], [getStart], [getEnd]) *)
(* ================================================================== *)

Module CursorOrder.
Import Cursor Selection.

(** Lexicographic comparison of two index lists, a shorter list before
    its extensions. *)
Fixpoint lexCompare (a b : list nat) : Z :=
  match a, b with
  | [], [] => 0%Z
  | [], _ :: _ => (-1)%Z
  | _ :: _, [] => 1%Z
  | x :: a', y :: b' =>
      if x <? y then (-1)%Z
      else if y <? x then 1%Z
      else lexCompare a' b'
  end.

(** A cursor as one list: the path indices doubled and raised by two,
    then the offset doubled and raised by one, so that "before child k"
    falls just below everything inside child [k]. *)
Definition key (c : CursorPosition) : list nat :=
  map (fun i => 2 * i + 2) (path c) ++ [2 * offset c + 1].

Lemma compareCursors_cons x pa pb oa ob :
  compareCursors (cursor (x :: pa) oa) (cursor (x :: pb) ob)
  = compareCursors (cursor pa oa) (cursor pb ob).
Proof.
  unfold compareCursors. simpl. rewrite Nat.ltb_irrefl. reflexivity.
Qed.

Lemma compareCursors_key a b : compareCursors a b = lexCompare (key a) (key b).
Proof.
  destruct a as [pa oa], b as [pb ob]. unfold key. simpl.
  revert pb; induction pa as [|x pa IH]; intros [|y pb].
  - unfold compareCursors. simpl.
    destruct (Nat.ltb_spec oa ob), (Nat.ltb_spec ob oa),
      (Nat.ltb_spec (oa + (oa + 0) + 1) (ob + (ob + 0) + 1)),
      (Nat.ltb_spec (ob + (ob + 0) + 1) (oa + (oa + 0) + 1));
      try lia; reflexivity.
  - unfold compareCursors. simpl.
    destruct (Nat.leb_spec oa y),
      (Nat.ltb_spec (oa + (oa + 0) + 1) (y + (y + 0) + 2)),
      (Nat.ltb_spec (y + (y + 0) + 2) (oa + (oa + 0) + 1));
      try lia; reflexivity.
  - unfold compareCursors. simpl.
    destruct (Nat.leb_spec ob x),
      (Nat.ltb_spec (x + (x + 0) + 2) (ob + (ob + 0) + 1)),
      (Nat.ltb_spec (ob + (ob + 0) + 1) (x + (x + 0) + 2));
      try lia; reflexivity.
  - simpl.
    destruct (Nat.ltb_spec (x + (x + 0) + 2) (y + (y + 0) + 2)) as [H1|H1].
    + unfold compareCursors. simpl.
      destruct (Nat.ltb_spec x y); [reflexivity | lia].
    + destruct (Nat.ltb_spec (y + (y + 0) + 2) (x + (x + 0) + 2)) as [H2|H2].
      * unfold compareCursors. simpl.
        destruct (Nat.ltb_spec x y); [lia|].
        destruct (Nat.ltb_spec y x); [reflexivity | lia].
      * assert (x = y) by lia. subst y.
        rewrite compareCursors_cons. apply IH.
Qed.

Lemma key_injective a b : key a = key b -> a = b.
Proof.
  destruct a as [pa oa], b as [pb ob]. unfold key. simpl.
  revert pb; induction pa as [|x pa IH]; intros [|y pb] H; simpl in H.
  - inversion H. f_equal. lia.
  - inversion H. lia.
  - inversion H. lia.
  - inversion H as [[Hx Ht]]. apply IH in Ht. inversion Ht; subst.
    f_equal. f_equal. lia.
Qed.

Lemma lexCompare_antisym a : forall b, lexCompare b a = (- lexCompare a b)%Z.
Proof.
  induction a as [|x a IH]; intros [|y b]; simpl; try reflexivity.
  destruct (Nat.ltb_spec x y), (Nat.ltb_spec y x); try lia; try reflexivity.
  apply IH.
Qed.

Lemma lexCompare_eq a : forall b, lexCompare a b = 0%Z <-> a = b.
Proof.
  induction a as [|x a IH]; intros [|y b]; simpl; split; intros H;
    try discriminate; try reflexivity.
  - destruct (Nat.ltb_spec x y); [discriminate|].
    destruct (Nat.ltb_spec y x); [discriminate|].
    apply IH in H. subst. f_equal. lia.
  - inversion H; subst. rewrite Nat.ltb_irrefl. apply IH. reflexivity.
Qed.

Lemma lexCompare_range a : forall b,
  lexCompare a b = (-1)%Z \/ lexCompare a b = 0%Z \/ lexCompare a b = 1%Z.
Proof.
  induction a as [|x a IH]; intros [|y b]; simpl; auto.
  destruct (x <? y); auto. destruct (y <? x); auto.
Qed.

Lemma lexCompare_trans a : forall b c,
  lexCompare a b = (-1)%Z -> lexCompare b c = (-1)%Z ->
  lexCompare a c = (-1)%Z.
Proof.
  induction a as [|x a IH]; intros [|y b] [|z c]; simpl; intros H1 H2;
    try discriminate; try reflexivity.
  destruct (Nat.ltb_spec x y), (Nat.ltb_spec y z), (Nat.ltb_spec x z);
    try lia; try reflexivity;
    destruct (Nat.ltb_spec y x), (Nat.ltb_spec z y), (Nat.ltb_spec z x);
    try lia; try discriminate.
  eapply IH; eauto.
Qed.

(** X1.  [compareCursors] is antisymmetric: swapping its arguments
    negates the result, which is always -1, 0 or 1. *)
Theorem compareCursors_antisymmetric a b :
  compareCursors b a = (- compareCursors a b)%Z /\
  (compareCursors a b = (-1)%Z \/ compareCursors a b = 0%Z
   \/ compareCursors a b = 1%Z).
Proof.
  rewrite !compareCursors_key. split.
  - apply lexCompare_antisym.
  - apply lexCompare_range.
Qed.

(** X2.  [compareCursors] returns 0, and [cursorsEqual] true, exactly on
    cursors with the same path and the same offset. *)
Theorem compareCursors_zero_iff_equal a b :
  (compareCursors a b = 0%Z <-> a = b) /\
  (cursorsEqual a b = true <-> a = b).
Proof.
  assert (H : compareCursors a b = 0%Z <-> a = b).
  { rewrite compareCursors_key, lexCompare_eq. split.
    - apply key_injective.
    - intros ->; reflexivity. }
  split; [exact H|].
  unfold cursorsEqual. rewrite Z.eqb_eq. exact H.
Qed.

(** X3.  Document order is transitive: if [a] is before [b] and [b]
    before [c], then [a] is before [c]. *)
Theorem compareCursors_transitive a b c :
  isBefore a b = true -> isBefore b c = true -> isBefore a c = true.
Proof.
  unfold isBefore. rewrite !Z.eqb_eq, !compareCursors_key.
  apply lexCompare_trans.
Qed.

Lemma compareCursors_transitive_witness :
  isBefore (cursor [] 1) (cursor [1; 0] 3) = true /\
  isBefore (cursor [1; 0] 3) (cursor [1] 1) = true /\
  isBefore (cursor [] 1) (cursor [1] 1) = true.
Proof.
  split; [reflexivity|]. split; [reflexivity|].
  apply (compareCursors_transitive (cursor [] 1) (cursor [1; 0] 3)
                                   (cursor [1] 1)); reflexivity.
Defined.

(** The selection with anchor and focus exchanged. *)
Definition reversed (sel : Selection) : Selection :=
  {| anchor := focus sel; focus := anchor sel |}.

Lemma compare_anchor_focus_cases sel :
  (compareCursors (anchor sel) (focus sel) = (-1)%Z /\
   compareCursors (focus sel) (anchor sel) = 1%Z) \/
  (anchor sel = focus sel /\
   compareCursors (anchor sel) (focus sel) = 0%Z /\
   compareCursors (focus sel) (anchor sel) = 0%Z) \/
  (compareCursors (anchor sel) (focus sel) = 1%Z /\
   compareCursors (focus sel) (anchor sel) = (-1)%Z).
Proof.
  assert (Ha : compareCursors (focus sel) (anchor sel)
               = (- compareCursors (anchor sel) (focus sel))%Z)
    by (rewrite !compareCursors_key; apply lexCompare_antisym).
  assert (Hr : compareCursors (anchor sel) (focus sel) = (-1)%Z \/
               compareCursors (anchor sel) (focus sel) = 0%Z \/
               compareCursors (anchor sel) (focus sel) = 1%Z)
    by (rewrite !compareCursors_key; apply lexCompare_range).
  destruct Hr as [H|[H|H]]; rewrite H in Ha.
  - left. auto.
  - right; left. repeat split; auto.
    apply key_injective. apply lexCompare_eq.
    rewrite <- compareCursors_key. exact H.
  - right; right. auto.
Qed.

(** X4.  [getStart] is never after [getEnd]; the two are the anchor and
    the focus in one order or the other; and they do not depend on which
    end of the selection is the anchor. *)
Theorem getStart_getEnd_ordered sel :
  (compareCursors (getStart sel) (getEnd sel) <= 0)%Z /\
  ((getStart sel = anchor sel /\ getEnd sel = focus sel) \/
   (getStart sel = focus sel /\ getEnd sel = anchor sel)) /\
  getStart (reversed sel) = getStart sel /\
  getEnd (reversed sel) = getEnd sel /\
  isCollapsed (reversed sel) = isCollapsed sel.
Proof.
  unfold getStart, getEnd, isCollapsed, cursorsEqual, reversed. simpl.
  destruct (compare_anchor_focus_cases sel) as [[H1 H2]|[[E [H1 H2]]|[H1 H2]]];
    rewrite H1, H2; simpl; rewrite ?H1, ?H2; repeat split; auto; try lia.
  all: rewrite ?E; try (right; split; reflexivity); try reflexivity.
  all: try (rewrite E in H1; rewrite H1; lia).
Qed.

End CursorOrder.

(* ================================================================== *)
(** ** More on the undo history ([pushHistory], [undo], [redo]) *)
(* ================================================================== *)

Module HistoryProps.
Import Model.

(** All the states a history holds, oldest first. *)
Definition timeline (h : History) : list EditorState :=
  past h ++ present h :: future h.

(** The two options of a push, with their defaults. *)
Definition maxOf (o : HistoryOptions) : Z :=
  match maxHistory o with Some m => m | None => DEFAULT_MAX_HISTORY end.

Definition merges (h : History) (o : HistoryOptions) : bool :=
  match merge o with Some m => m | None => false end
  && (0 <? length (past h)).

(** X5.  [undo] and [redo] move the present along the timeline and lose
    nothing: the states of the history, in order, stay the same; only
    the number of past entries changes, by one, when there is something
    to undo or redo. *)
Theorem undo_redo_keep_timeline h :
  timeline (undo h) = timeline h /\
  timeline (redo h) = timeline h /\
  length (past (undo h)) = length (past h) - 1 /\
  length (past (redo h))
  = length (past h) + (if canRedo h then 1 else 0).
Proof.
  destruct h as [p s f]. unfold timeline, undo, redo, canRedo.
  cbn [past present future]. repeat split.
  - destruct p as [|x p']; [reflexivity|].
    cbn [past present future].
    rewrite (app_removelast_last s (l := x :: p')) at 3 by discriminate.
    rewrite <- app_assoc. reflexivity.
  - destruct f as [|n f']; [reflexivity|].
    cbn [past present future]. rewrite <- app_assoc. reflexivity.
  - destruct p as [|x p']; [reflexivity|].
    cbn [past present future].
    pose proof (app_removelast_last s (l := x :: p')) as H.
    apply (f_equal (@length _)) in H; [|discriminate].
    rewrite length_app in H. simpl in *. lia.
  - destruct f as [|n f']; simpl; [lia|].
    rewrite length_app. simpl. lia.
Qed.

Lemma skipn_app_le {A} n (l r : list A) :
  n <= length l -> skipn n (l ++ r) = skipn n l ++ r.
Proof.
  revert l; induction n as [|n IH]; intros [|x l] H; simpl in *;
    try reflexivity; try lia.
  apply IH. lia.
Qed.



Lemma redo_undo h : past h <> [] -> redo (undo h) = h.
Proof.
  destruct h as [p s f]; simpl. intros Hp.
  destruct p as [|x p']; [contradiction|].
  unfold undo; cbn [past present future].
  unfold redo; cbn [past present future].
  f_equal. symmetry. apply app_removelast_last. discriminate.
Qed.

Lemma undo_snoc h kept x :
  past h = kept ++ [x] ->
  undo h = {| past := kept; present := x;
              future := present h :: future h |}.
Proof.
  intros E. unfold undo. rewrite E.
  destruct (kept ++ [x]) eqn:K; [destruct kept; discriminate|].
  rewrite <- K, removelast_last, last_last. reflexivity.
Qed.

(** X7.  After a push that does not merge, with room for at least one
    past entry, [undo] returns to the state that was present before the
    push, with the pushed state as the only one to redo, and [redo]
    then gives the pushed history back. *)
Theorem undo_after_push h s o :
  merges h o = false ->
  (1 <= maxOf o)%Z ->
  present (undo (pushHistory h s o)) = present h /\
  future (undo (pushHistory h s o)) = [s] /\
  redo (undo (pushHistory h s o)) = pushHistory h s o.
Proof.
  intros Hm Hmax.
  assert (Hpast : exists kept,
             past (pushHistory h s o) = kept ++ [present h]).
  { unfold pushHistory. fold (merges h o). rewrite Hm. fold (maxOf o).
    cbn [past present future].
    destruct (Z.ltb_spec (maxOf o)
                (Z.of_nat (length (past h ++ [present h])))) as [Hlt|Hge].
    - unfold Js.sliceFrom. rewrite length_app in *. simpl in *.
      rewrite skipn_app_le by lia. eauto.
    - eauto. }
  destruct Hpast as [kept Hk].
  assert (Hne : past (pushHistory h s o) <> [])
    by (rewrite Hk; destruct kept; discriminate).
  assert (Hu : present (undo (pushHistory h s o)) = present h /\
               future (undo (pushHistory h s o)) = [s]).
  { rewrite (undo_snoc _ _ _ Hk). cbn [past present future].
    rewrite pushHistory_present, pushHistory_future. split; reflexivity. }
  destruct Hu as [Hu1 Hu2]. repeat split; auto.
  apply redo_undo. exact Hne.
Qed.

Lemma undo_after_push_witness :
  let s0 := createEmptyState in
  let s1 := updateRoot s0 (Ast.node.row [Ast.node.symbol "x"]) in
  let h := createHistory s0 in
  present (undo (pushHistory h s1 noOptions)) = s0 /\
  future (undo (pushHistory h s1 noOptions)) = [s1].
Proof.
  destruct (undo_after_push (createHistory createEmptyState)
              (updateRoot createEmptyState (Ast.node.row [Ast.node.symbol "x"]))
              noOptions eq_refl) as (H1 & H2 & _).
  - unfold maxOf. simpl. unfold DEFAULT_MAX_HISTORY. lia.
  - split; [exact H1 | exact H2].
Defined.

End HistoryProps.

(* ================================================================== *)
(** ** Tree utilities and editor normalization ([src/core/ast.ts]) *)
(* ================================================================== *)

Module AstOps.
Import Ast Equality.

(** Structural induction that reaches through the child lists. *)
Definition OptP {A} (P : A -> Prop) (o : option A) : Prop :=
  match o with Some x => P x | None => True end.

Section Induction.
Variable P : MathNode -> Prop.
Hypothesis Hnum : forall v, P (NumberNode v).
Hypothesis Hsym : forall v, P (SymbolNode v).
Hypothesis Hop : forall v, P (OperatorNode v).
Hypothesis Htext : forall v, P (TextNode v).
Hypothesis Hspace : forall s, P (SpaceNode s).
Hypothesis Hph : P PlaceholderNode.
Hypothesis Hrow : forall cs, Forall P cs -> P (RowNode cs).
Hypothesis Hfrac : forall a b, P a -> P b -> P (FractionNode a b).
Hypothesis Hpow : forall a b, P a -> P b -> P (PowerNode a b).
Hypothesis Hsub : forall a b, P a -> P b -> P (SubscriptNode a b).
Hypothesis Hsubsup : forall a b c, P a -> P b -> P c -> P (SubSupNode a b c).
Hypothesis Hsqrt : forall a i, P a -> OptP P i -> P (SqrtNode a i).
Hypothesis Hparens : forall o c a s, P a -> P (ParensNode o c a s).
Hypothesis Hfun : forall nm arg lim,
    OptP P arg ->
    OptP (fun lu => OptP P (fst lu) /\ OptP P (snd lu)) lim ->
    P (FunctionNode nm arg lim).
Hypothesis Hmat : forall rows st cs,
    Forall (Forall P) rows -> P (MatrixNode rows st cs).

Fixpoint MathNode_ind' (n : MathNode) : P n :=
  let opt (o : option MathNode) : OptP P o :=
    match o return OptP P o with
    | Some x => MathNode_ind' x
    | None => I
    end in
  let all :=
    fix all (l : list MathNode) : Forall P l :=
      match l return Forall P l with
      | [] => Forall_nil P
      | h :: t => @Forall_cons _ P h t (MathNode_ind' h) (all t)
      end in
  match n return P n with
  | NumberNode v => Hnum v
  | SymbolNode v => Hsym v
  | OperatorNode v => Hop v
  | TextNode v => Htext v
  | SpaceNode s => Hspace s
  | PlaceholderNode => Hph
  | RowNode cs => Hrow cs (all cs)
  | FractionNode a b => Hfrac a b (MathNode_ind' a) (MathNode_ind' b)
  | PowerNode a b => Hpow a b (MathNode_ind' a) (MathNode_ind' b)
  | SubscriptNode a b => Hsub a b (MathNode_ind' a) (MathNode_ind' b)
  | SubSupNode a b c =>
      Hsubsup a b c (MathNode_ind' a) (MathNode_ind' b) (MathNode_ind' c)
  | SqrtNode a i => Hsqrt a i (MathNode_ind' a) (opt i)
  | ParensNode o c a s => Hparens o c a s (MathNode_ind' a)
  | FunctionNode nm arg lim =>
      Hfun nm arg lim (opt arg)
           (match lim return
                  OptP (fun lu => OptP P (fst lu) /\ OptP P (snd lu)) lim with
            | Some (lo, up) => conj (opt lo) (opt up)
            | None => I
            end)
  | MatrixNode rows st cs =>
      Hmat rows st cs
           ((fix allRows (rs : list (list MathNode)) : Forall (Forall P) rs :=
               match rs return Forall (Forall P) rs with
               | [] => Forall_nil (Forall P)
               | r :: rs' => @Forall_cons _ (Forall P) r rs' (all r) (allRows rs')
               end) rows)
  end.
End Induction.

(** *** [mapChildren] *)

Definition mapChildren (n : MathNode) (fn : MathNode -> MathNode) : MathNode :=
  match n with
  | RowNode children => node.row (map fn children)
  | FractionNode numerator denominator =>
      node.fraction (fn numerator) (fn denominator)
  | PowerNode base exponent => node.power (fn base) (fn exponent)
  | SubscriptNode base sub => node.subscript (fn base) (fn sub)
  | SubSupNode base sub sup => node.subsup (fn base) (fn sub) (fn sup)
  | SqrtNode radicand index => node.sqrt (fn radicand) (option_map fn index)
  | ParensNode open close content size =>
      node.parens (fn content) open close size
  | FunctionNode name argument limits =>
      node.function name (option_map fn argument)
                    (match limits with
                     | Some (lower, upper) =>
                         Some (option_map fn lower, option_map fn upper)
                     | None => None
                     end)
  | MatrixNode rows style colSpec =>
      node.matrix (map (map fn) rows) style colSpec
  | _ => n
  end.

Definition isLeafNode (n : MathNode) : bool :=
  match n with
  | NumberNode _ | SymbolNode _ | OperatorNode _ | TextNode _
  | SpaceNode _ | PlaceholderNode => true
  | _ => false
  end.

(** X8.  [mapChildren] applies the function to each child, in order,
    and keeps the kind of the node; a leaf comes back as it is. *)
Theorem mapChildren_children n fn :
  getChildren (mapChildren n fn) = map fn (getChildren n) /\
  kind (mapChildren n fn) = kind n /\
  (isLeafNode n = true -> mapChildren n fn = n /\ getChildren n = []).
Proof.
  destruct n as [v|v|v|v|s| |cs|a b|a b|a b|a b d|a ix|o cl a s|nm arg lim|rows st cs];
    simpl; repeat split; try reflexivity; try discriminate.
  - destruct ix; reflexivity.
  - destruct arg as [x|]; destruct lim as [[[lo|] [up|]]|]; reflexivity.
  - rewrite concat_map. reflexivity.
Qed.

Lemma mapChildren_children_witness :
  isLeafNode (SymbolNode "x") = true /\
  mapChildren (SymbolNode "x") (fun _ => PlaceholderNode) = SymbolNode "x".
Proof.
  split; [reflexivity|].
  apply (proj2 (proj2 (mapChildren_children (SymbolNode "x")
                                            (fun _ => PlaceholderNode)))).
  reflexivity.
Defined.

(** *** [nodesEqual] decides equality *)

Definition everyEq (xs ys : list MathNode) : bool :=
  (fix every (xs ys : list MathNode) {struct xs} : bool :=
     match xs, ys with
     | [], [] => true
     | x :: xs', y :: ys' => nodesEqual x y && every xs' ys'
     | _, _ => false
     end) xs ys.

Lemma everyEq_iff xs :
  Forall (fun a => forall b, nodesEqual a b = true <-> a = b) xs ->
  forall ys, everyEq xs ys = true <-> xs = ys.
Proof.
  induction 1 as [|x xs Hx Hxs IH]; intros [|y ys]; simpl; split; intros H;
    try discriminate; try reflexivity.
  - apply andb_prop in H. destruct H as [H1 H2].
    apply Hx in H1. apply IH in H2. congruence.
  - inversion H; subst. apply andb_true_intro. split.
    + apply Hx. reflexivity.
    + apply IH. reflexivity.
Qed.

Lemma optEq_iff (x y : option MathNode) :
  OptP (fun a => forall b, nodesEqual a b = true <-> a = b) x ->
  (match x, y with
   | Some x', Some y' => nodesEqual x' y'
   | None, None => true
   | _, _ => false
   end = true <-> x = y).
Proof.
  destruct x as [x|], y as [y|]; simpl; intros H; split; intros E;
    try discriminate; try reflexivity.
  - apply H in E. congruence.
  - inversion E; subst. apply H. reflexivity.
Qed.

Lemma SpaceSize_eqb_iff a b : SpaceSize_eqb a b = true <-> a = b.
Proof. destruct a, b; simpl; split; intros H; try discriminate; reflexivity. Qed.

Lemma ParensSize_eqb_iff a b : ParensSize_eqb a b = true <-> a = b.
Proof.
  destruct a as [[]|], b as [[]|]; simpl; split; intros H;
    try discriminate; reflexivity.
Qed.

Lemma optString_eqb_iff a b : optString_eqb a b = true <-> a = b.
Proof.
  destruct a, b; simpl; split; intros H; try discriminate; try reflexivity.
  - apply String.eqb_eq in H. congruence.
  - inversion H; subst. apply String.eqb_refl.
Qed.

Lemma nodesEqual_iff a : forall b, nodesEqual a b = true <-> a = b.
Proof.
  induction a using MathNode_ind'; intros b.
  - destruct b; simpl; split; intros E; try discriminate;
      [apply String.eqb_eq in E; congruence
      | inversion E; apply String.eqb_refl].
  - destruct b; simpl; split; intros E; try discriminate;
      [apply String.eqb_eq in E; congruence
      | inversion E; apply String.eqb_refl].
  - destruct b; simpl; split; intros E; try discriminate;
      [apply String.eqb_eq in E; congruence
      | inversion E; apply String.eqb_refl].
  - destruct b; simpl; split; intros E; try discriminate;
      [apply String.eqb_eq in E; congruence
      | inversion E; apply String.eqb_refl].
  - destruct b; simpl; split; intros E; try discriminate;
      [apply SpaceSize_eqb_iff in E; congruence
      | inversion E; apply SpaceSize_eqb_iff; reflexivity].
  - destruct b; simpl; split; intros E; try discriminate; reflexivity.
  - destruct b; try (simpl; split; intros E; discriminate).
    change (nodesEqual (RowNode cs) (RowNode children))
      with (everyEq cs children).
    rewrite (everyEq_iff cs H children). split; congruence.
  - destruct b; simpl; split; intros E; try discriminate.
    + apply andb_prop in E. destruct E as [E1 E2].
      apply IHa1 in E1. apply IHa2 in E2. congruence.
    + inversion E; subst. apply andb_true_intro.
      split; [apply IHa1 | apply IHa2]; reflexivity.
  - destruct b; simpl; split; intros E; try discriminate.
    + apply andb_prop in E. destruct E as [E1 E2].
      apply IHa1 in E1. apply IHa2 in E2. congruence.
    + inversion E; subst. apply andb_true_intro.
      split; [apply IHa1 | apply IHa2]; reflexivity.
  - destruct b; simpl; split; intros E; try discriminate.
    + apply andb_prop in E. destruct E as [E1 E2].
      apply IHa1 in E1. apply IHa2 in E2. congruence.
    + inversion E; subst. apply andb_true_intro.
      split; [apply IHa1 | apply IHa2]; reflexivity.
  - destruct b; simpl; split; intros E; try discriminate.
    + apply andb_prop in E. destruct E as [E E3].
      apply andb_prop in E. destruct E as [E1 E2].
      apply IHa1 in E1. apply IHa2 in E2. apply IHa3 in E3. congruence.
    + inversion E; subst. repeat (apply andb_true_intro; split);
        [apply IHa1 | apply IHa2 | apply IHa3]; reflexivity.
  - destruct b; try (simpl; split; intros E; discriminate).
    simpl. rewrite andb_true_iff, IHa, (optEq_iff i index H).
    split; [intros [-> ->]; reflexivity | intros E; inversion E; auto].
  - destruct b; try (simpl; split; intros E; discriminate).
    simpl. rewrite !andb_true_iff, !String.eqb_eq, ParensSize_eqb_iff, IHa.
    split; [intros [[[-> ->] ->] ->]; reflexivity
           | intros E; inversion E; auto].
  - destruct b; try (simpl; split; intros E; discriminate).
    simpl. rewrite !andb_true_iff, String.eqb_eq, (optEq_iff arg argument H).
    assert (Hl : (match lim, limits with
                  | Some (lo, up), Some (lo', up') =>
                      match lo, lo' with
                      | Some x', Some y' => nodesEqual x' y'
                      | None, None => true
                      | _, _ => false
                      end
                      && match up, up' with
                         | Some x', Some y' => nodesEqual x' y'
                         | None, None => true
                         | _, _ => false
                         end
                  | None, None => true
                  | _, _ => false
                  end = true) <-> lim = limits).
    { destruct lim as [[lo up]|], limits as [[lo' up']|]; simpl in *;
        try (split; intros E; try discriminate; reflexivity).
      destruct H0 as [Hlo Hup].
      rewrite andb_true_iff, (optEq_iff lo lo' Hlo), (optEq_iff up up' Hup).
      split; [intros [-> ->]; reflexivity | intros E; inversion E; auto]. }
    rewrite Hl.
    split; [intros [[-> ->] ->]; reflexivity | intros E; inversion E; auto].
  - destruct b; try (simpl; split; intros E; discriminate).
    simpl. rewrite !andb_true_iff, String.eqb_eq, optString_eqb_iff.
    assert (Hr : forall rows',
               (fix everyRow (rs rs' : list (list MathNode)) {struct rs}
                  : bool :=
                  match rs, rs' with
                  | [], [] => true
                  | r :: t, r' :: t' => everyEq r r' && everyRow t t'
                  | _, _ => false
                  end) rows rows' = true <-> rows = rows').
    { induction H as [|r rs Hr Hrs IH]; intros [|r' rs']; simpl;
        try (split; intros E; try discriminate; reflexivity).
      rewrite andb_true_iff, (everyEq_iff r Hr r'), IH.
      split; [intros [-> ->]; reflexivity | intros E; inversion E; auto]. }
    change (fix every (xs ys : list MathNode) {struct xs} : bool :=
              match xs, ys with
              | [], [] => true
              | x :: xs', y :: ys' => nodesEqual x y && every xs' ys'
              | _, _ => false
              end) with everyEq.
    rewrite Hr.
    split; [intros [[-> ->] ->]; reflexivity | intros E; inversion E; auto].
Qed.

(** X9.  [nodesEqual] returns true exactly on identical trees; so it is
    reflexive and symmetric. *)
Theorem nodesEqual_decides_equality a b :
  (nodesEqual a b = true <-> a = b) /\
  nodesEqual a a = true /\
  nodesEqual b a = nodesEqual a b.
Proof.
  split; [apply nodesEqual_iff|]. split; [apply nodesEqual_iff; reflexivity|].
  destruct (nodesEqual a b) eqn:E.
  - apply nodesEqual_iff in E. subst. apply nodesEqual_iff. reflexivity.
  - destruct (nodesEqual b a) eqn:E'; [|reflexivity].
    apply nodesEqual_iff in E'. subst.
    rewrite (proj2 (nodesEqual_iff a a) eq_refl) in E. discriminate.
Qed.

End AstOps.

(* ================================================================== *)
(** ** Editor normalization ([normalizeForEditor] of [src/core/ast.ts]) *)
(* ================================================================== *)

Module Normalization.
Import Ast Cursor Selection Model AstOps DeleteProps.

Definition ensureRow (n : MathNode) : MathNode :=
  match n with
  | RowNode [] => node.row [node.placeholder]
  | RowNode _ => n
  | _ => node.row [n]
  end.

Fixpoint normalizeStructureSlots (n : MathNode) : MathNode :=
  let slot (x : MathNode) : MathNode := ensureRow (normalizeStructureSlots x) in
  match n with
  | FractionNode numerator denominator =>
      node.fraction (slot numerator) (slot denominator)
  | PowerNode base exponent =>
      node.power (normalizeStructureSlots base) (slot exponent)
  | SubscriptNode base sub =>
      node.subscript (normalizeStructureSlots base) (slot sub)
  | SubSupNode base sub sup =>
      node.subsup (normalizeStructureSlots base) (slot sub) (slot sup)
  | SqrtNode radicand index =>
      node.sqrt (slot radicand)
                (option_map (fun x => ensureRow (normalizeStructureSlots x))
                            index)
  | ParensNode open close content size =>
      node.parens (slot content) open close size
  | RowNode children => node.row (map normalizeStructureSlots children)
  | FunctionNode name argument limits =>
      node.function
        name
        (option_map (fun x => ensureRow (normalizeStructureSlots x)) argument)
        (match limits with
         | Some (lower, upper) =>
             Some (option_map
                     (fun x => ensureRow (normalizeStructureSlots x)) lower,
                   option_map
                     (fun x => ensureRow (normalizeStructureSlots x)) upper)
         | None => None
         end)
  | MatrixNode rows style colSpec =>
      node.matrix
        (map (map (fun cell => ensureRow (normalizeStructureSlots cell))) rows)
        style colSpec
  | _ => n
  end.

Definition normalizeForEditor (ast : MathNode) : MathNode :=
  let normalized := normalizeStructureSlots ast in
  match normalized with
  | RowNode [] => node.row [node.placeholder]
  | RowNode _ => normalized
  | _ => node.row [normalized]
  end.

Definition createStateFromAST (ast : MathNode) : EditorState :=
  {| root := normalizeForEditor ast;
     selection := collapsedSelection (cursorAtStart []) |}.

Definition asSlot (x : MathNode) : MathNode :=
  ensureRow (normalizeStructureSlots x).

Lemma ensureRow_isRow x : isRow (ensureRow x) = true.
Proof. destruct x as [| | | | | |[|c cs]| | | | | | | |]; reflexivity. Qed.

Lemma ensureRow_slots x :
  slotsAreRows x = true -> slotsAreRows (ensureRow x) = true.
Proof.
  destruct x as [| | | | | |[|c cs]| | | | | | | |]; simpl; intros H;
    rewrite ?H; reflexivity.
Qed.

Lemma ensureRow_rows x :
  rowsNonEmpty x = true -> rowsNonEmpty (ensureRow x) = true.
Proof.
  destruct x as [| | | | | |[|c cs]| | | | | | | |]; simpl; intros H;
    rewrite ?H; reflexivity.
Qed.

Lemma asSlot_ok x :
  slotsAreRows (normalizeStructureSlots x) = true ->
  isRow (asSlot x) && slotsAreRows (asSlot x) = true.
Proof.
  intros H. unfold asSlot. rewrite ensureRow_isRow, ensureRow_slots; auto.
Qed.

Lemma optSlot_ok (o : option MathNode) :
  OptP (fun x => slotsAreRows (normalizeStructureSlots x) = true) o ->
  match option_map asSlot o with
  | Some x => isRow x && slotsAreRows x
  | None => true
  end = true.
Proof. destruct o; simpl; [apply asSlot_ok | reflexivity]. Qed.

Lemma normalizeStructureSlots_slots n :
  slotsAreRows (normalizeStructureSlots n) = true.
Proof.
  induction n using MathNode_ind'; simpl; try reflexivity;
    fold (asSlot) in *.
  - apply forallb_forall. intros x Hx. apply in_map_iff in Hx.
    destruct Hx as (y & <- & Hy).
    exact (proj1 (Forall_forall _ _) H y Hy).
  - change (ensureRow (normalizeStructureSlots n1)) with (asSlot n1).
    change (ensureRow (normalizeStructureSlots n2)) with (asSlot n2).
    rewrite (asSlot_ok _ IHn1), (asSlot_ok _ IHn2). reflexivity.
  - change (ensureRow (normalizeStructureSlots n2)) with (asSlot n2).
    rewrite IHn1, (asSlot_ok _ IHn2). reflexivity.
  - change (ensureRow (normalizeStructureSlots n2)) with (asSlot n2).
    rewrite IHn1, (asSlot_ok _ IHn2). reflexivity.
  - change (ensureRow (normalizeStructureSlots n2)) with (asSlot n2).
    change (ensureRow (normalizeStructureSlots n3)) with (asSlot n3).
    rewrite IHn1, (asSlot_ok _ IHn2), (asSlot_ok _ IHn3). reflexivity.
  - change (ensureRow (normalizeStructureSlots n)) with (asSlot n).
    rewrite (asSlot_ok _ IHn). simpl.
    exact (optSlot_ok i H).
  - change (ensureRow (normalizeStructureSlots n)) with (asSlot n).
    apply asSlot_ok, IHn.
  - apply andb_true_intro. split; [exact (optSlot_ok arg H)|].
    destruct lim as [[lo up]|]; [|reflexivity].
    destruct H0 as [Hlo Hup]. simpl in *.
    apply andb_true_intro. split; [exact (optSlot_ok lo Hlo)
                                  | exact (optSlot_ok up Hup)].
  - apply forallb_forall. intros r Hr. apply in_map_iff in Hr.
    destruct Hr as (r0 & <- & Hr0).
    apply forallb_forall. intros x Hx. apply in_map_iff in Hx.
    destruct Hx as (y & <- & Hy).
    apply asSlot_ok.
    exact (proj1 (Forall_forall _ _)
                 (proj1 (Forall_forall _ _) H r0 Hr0) y Hy).
Qed.

Lemma optSlot_rows (o : option MathNode) :
  OptP (fun x => rowsNonEmpty x = true ->
                 rowsNonEmpty (normalizeStructureSlots x) = true) o ->
  match o with Some x => rowsNonEmpty x | None => true end = true ->
  match option_map asSlot o with
  | Some x => rowsNonEmpty x
  | None => true
  end = true.
Proof.
  destruct o; simpl; [|reflexivity].
  intros H E. apply ensureRow_rows, H, E.
Qed.

Lemma normalizeStructureSlots_rows n :
  rowsNonEmpty n = true -> rowsNonEmpty (normalizeStructureSlots n) = true.
Proof.
  induction n using MathNode_ind'; simpl; try (intros; reflexivity);
    intros E;
    repeat match goal with
           | H : _ && _ = true |- _ => apply andb_prop in H; destruct H
           end.
  - rewrite length_map. apply andb_true_intro. split; [assumption|].
    apply forallb_forall. intros x Hx. apply in_map_iff in Hx.
    destruct Hx as (y & <- & Hy).
    apply (proj1 (Forall_forall _ _) H y Hy).
    match goal with
    | H : forallb _ _ = true |- _ =>
        exact (proj1 (forallb_forall _ _) H y Hy)
    end.
  - rewrite ensureRow_rows, ensureRow_rows; auto.
  - rewrite IHn1, ensureRow_rows; auto.
  - rewrite IHn1, ensureRow_rows; auto.
  - rewrite IHn1, ensureRow_rows, ensureRow_rows; auto.
  - rewrite ensureRow_rows by auto. simpl.
    apply (optSlot_rows i H). assumption.
  - apply ensureRow_rows; auto.
  - apply andb_true_intro. split; [apply (optSlot_rows arg H); assumption|].
    destruct lim as [[lo up]|]; [|reflexivity].
    destruct H0 as [Hlo Hup]. simpl in *.
    match goal with
    | H : _ && _ = true |- _ => apply andb_prop in H; destruct H
    end.
    apply andb_true_intro.
    split; [apply (optSlot_rows lo Hlo) | apply (optSlot_rows up Hup)];
      assumption.
  - apply forallb_forall. intros r Hr. apply in_map_iff in Hr.
    destruct Hr as (r0 & <- & Hr0).
    apply forallb_forall. intros x Hx. apply in_map_iff in Hx.
    destruct Hx as (y & <- & Hy).
    apply ensureRow_rows.
    apply (proj1 (Forall_forall _ _)
                 (proj1 (Forall_forall _ _) H r0 Hr0) y Hy).
    exact (proj1 (forallb_forall _ _)
                 (proj1 (forallb_forall _ _) E r0 Hr0) y Hy).
Qed.

(** X10.  [normalizeForEditor] returns a row with at least one child in
    which every editable slot is a row, whatever tree it is given; and
    when the tree has no empty row (as with parser output) the result is
    a normalized tree: rows non-empty, slots rows, root a row. *)
Theorem normalizeForEditor_normalizes ast :
  isRow (normalizeForEditor ast) = true /\
  slotsAreRows (normalizeForEditor ast) = true /\
  (exists c cs, normalizeForEditor ast = RowNode (c :: cs)) /\
  (rowsNonEmpty ast = true -> normalized (normalizeForEditor ast) = true).
Proof.
  pose proof (normalizeStructureSlots_slots ast) as Hs.
  pose proof (normalizeStructureSlots_rows ast) as Hr.
  unfold normalizeForEditor, normalized.
  destruct (normalizeStructureSlots ast)
    as [v|v|v|v|s| |[|c cs]|a b|a b|a b|a b d|a ix|o cl a s|nm arg lim|rows st cs'];
    repeat split; eauto;
    try (simpl in *; rewrite ?Hs; reflexivity);
    try (intros E; specialize (Hr E); simpl in *; rewrite ?Hs, ?Hr; reflexivity).
Qed.

Lemma normalizeForEditor_normalizes_witness :
  let raw := FractionNode (NumberNode "1") (NumberNode "2") in
  normalizeForEditor raw
  = RowNode [FractionNode (RowNode [NumberNode "1"]) (RowNode [NumberNode "2"])]
  /\ normalized (normalizeForEditor raw) = true.
Proof.
  split; [reflexivity|].
  apply (proj2 (proj2 (proj2 (normalizeForEditor_normalizes
           (FractionNode (NumberNode "1") (NumberNode "2")))))).
  reflexivity.
Defined.

Lemma ensureRow_fixed x :
  normalizeStructureSlots x = x ->
  normalizeStructureSlots (ensureRow x) = ensureRow x /\
  ensureRow (ensureRow x) = ensureRow x.
Proof.
  intros H.
  destruct x as [| | | | | |[|c cs]| | | | | | | |];
    (split; [simpl; simpl in H; rewrite ?H; reflexivity | reflexivity]).
Qed.

Lemma asSlot_idem x :
  normalizeStructureSlots (normalizeStructureSlots x)
  = normalizeStructureSlots x ->
  asSlot (asSlot x) = asSlot x.
Proof.
  intros H. unfold asSlot.
  destruct (ensureRow_fixed _ H) as [H1 H2]. rewrite H1. exact H2.
Qed.

Lemma optSlot_idem (o : option MathNode) :
  OptP (fun x => normalizeStructureSlots (normalizeStructureSlots x)
                 = normalizeStructureSlots x) o ->
  option_map asSlot (option_map asSlot o) = option_map asSlot o.
Proof.
  destruct o; simpl; [|reflexivity]. intros H. f_equal. apply asSlot_idem, H.
Qed.

Lemma normalizeStructureSlots_idem n :
  normalizeStructureSlots (normalizeStructureSlots n)
  = normalizeStructureSlots n.
Proof.
  induction n using MathNode_ind'; try reflexivity.
  - simpl. unfold node.row. f_equal. rewrite map_map.
    apply map_ext_in. intros x Hx.
    exact (proj1 (Forall_forall _ _) H x Hx).
  - change (normalizeStructureSlots (FractionNode n1 n2))
      with (FractionNode (asSlot n1) (asSlot n2)).
    change (normalizeStructureSlots (FractionNode (asSlot n1) (asSlot n2)))
      with (FractionNode (asSlot (asSlot n1)) (asSlot (asSlot n2))).
    rewrite !asSlot_idem by assumption. reflexivity.
  - change (normalizeStructureSlots (PowerNode n1 n2))
      with (PowerNode (normalizeStructureSlots n1) (asSlot n2)).
    change (normalizeStructureSlots
              (PowerNode (normalizeStructureSlots n1) (asSlot n2)))
      with (PowerNode (normalizeStructureSlots (normalizeStructureSlots n1))
                      (asSlot (asSlot n2))).
    rewrite IHn1, asSlot_idem by assumption. reflexivity.
  - change (normalizeStructureSlots (SubscriptNode n1 n2))
      with (SubscriptNode (normalizeStructureSlots n1) (asSlot n2)).
    change (normalizeStructureSlots
              (SubscriptNode (normalizeStructureSlots n1) (asSlot n2)))
      with (SubscriptNode (normalizeStructureSlots (normalizeStructureSlots n1))
                          (asSlot (asSlot n2))).
    rewrite IHn1, asSlot_idem by assumption. reflexivity.
  - change (normalizeStructureSlots (SubSupNode n1 n2 n3))
      with (SubSupNode (normalizeStructureSlots n1) (asSlot n2) (asSlot n3)).
    change (normalizeStructureSlots
              (SubSupNode (normalizeStructureSlots n1) (asSlot n2) (asSlot n3)))
      with (SubSupNode (normalizeStructureSlots (normalizeStructureSlots n1))
                       (asSlot (asSlot n2)) (asSlot (asSlot n3))).
    rewrite IHn1, !asSlot_idem by assumption. reflexivity.
  - change (normalizeStructureSlots (SqrtNode n i))
      with (SqrtNode (asSlot n) (option_map asSlot i)).
    change (normalizeStructureSlots (SqrtNode (asSlot n) (option_map asSlot i)))
      with (SqrtNode (asSlot (asSlot n))
                     (option_map asSlot (option_map asSlot i))).
    rewrite asSlot_idem, optSlot_idem by assumption. reflexivity.
  - change (normalizeStructureSlots (ParensNode o c n s))
      with (ParensNode o c (asSlot n) s).
    change (normalizeStructureSlots (ParensNode o c (asSlot n) s))
      with (ParensNode o c (asSlot (asSlot n)) s).
    rewrite asSlot_idem by assumption. reflexivity.
  - destruct lim as [[lo up]|].
    + destruct H0 as [Hlo Hup]. simpl in Hlo, Hup.
      change (normalizeStructureSlots (FunctionNode nm arg (Some (lo, up))))
        with (FunctionNode nm (option_map asSlot arg)
                (Some (option_map asSlot lo, option_map asSlot up))).
      change (normalizeStructureSlots
                (FunctionNode nm (option_map asSlot arg)
                   (Some (option_map asSlot lo, option_map asSlot up))))
        with (FunctionNode nm (option_map asSlot (option_map asSlot arg))
                (Some (option_map asSlot (option_map asSlot lo),
                       option_map asSlot (option_map asSlot up)))).
      rewrite !optSlot_idem by assumption. reflexivity.
    + change (normalizeStructureSlots (FunctionNode nm arg None))
        with (FunctionNode nm (option_map asSlot arg) None).
      change (normalizeStructureSlots
                (FunctionNode nm (option_map asSlot arg) None))
        with (FunctionNode nm (option_map asSlot (option_map asSlot arg)) None).
      rewrite optSlot_idem by assumption. reflexivity.
  - simpl. unfold node.matrix. f_equal.
    + rewrite map_map. apply map_ext_in. intros r Hr.
      rewrite map_map. apply map_ext_in. intros x Hx.
      apply asSlot_idem.
      exact (proj1 (Forall_forall _ _)
                   (proj1 (Forall_forall _ _) H r Hr) x Hx).
    + destruct cs as [[|a0 s0]|]; reflexivity.
Qed.

Lemma normalizeForEditor_row ast :
  exists c cs, normalizeForEditor ast = RowNode (c :: cs).
Proof.
  unfold normalizeForEditor.
  destruct (normalizeStructureSlots ast)
    as [v|v|v|v|s| |[|c cs]|a b|a b|a b|a b d|a ix|o cl a s|nm arg lim|rows st cs'];
    eauto.
Qed.

Lemma normalizeForEditor_fixed ast :
  normalizeStructureSlots (normalizeForEditor ast) = normalizeForEditor ast.
Proof.
  pose proof (normalizeStructureSlots_idem ast) as H.
  unfold normalizeForEditor.
  destruct (normalizeStructureSlots ast)
    as [v|v|v|v|s| |[|c cs]|a b|a b|a b|a b d|a ix|o cl a s|nm arg lim|rows st cs'];
    try exact H; try reflexivity;
    match goal with
    | |- normalizeStructureSlots (node.row [?X]) = _ =>
        change (normalizeStructureSlots (node.row [X]))
          with (RowNode [normalizeStructureSlots X]);
        rewrite H; reflexivity
    end.
Qed.

(** X11.  Normalizing twice is normalizing once. *)
Theorem normalizeForEditor_idempotent ast :
  normalizeForEditor (normalizeForEditor ast) = normalizeForEditor ast.
Proof.
  unfold normalizeForEditor at 1. rewrite normalizeForEditor_fixed.
  destruct (normalizeForEditor_row ast) as (c & cs & ->). reflexivity.
Qed.

End Normalization.

(* ================================================================== *)
(** ** The shape of tokens and maximal runs ([nextToken] and readers) *)
(* ================================================================== *)

Module TokensProps.
Import Tokens.

Definition chars (t : Token) : list ascii := list_ascii_of_string (value t).

(** What the text of a token of each type looks like. *)
Definition shape (t : Token) : bool :=
  match type t, chars t with
  | whitespace, c :: r => forallb isSpace (c :: r)
  | number, c :: r => isDigit c && forallb isDigitOrDot r
  | command, b :: name =>
      Ascii.eqb b backslash
      && (forallb isLetter name
          || match name with
             | [c] => negb (Ascii.eqb c backslash)
             | _ => false
             end)
  | newline, [b1; b2] => Ascii.eqb b1 backslash && Ascii.eqb b2 backslash
  | text, [c] =>
      negb (isSpace c) && negb (Ascii.eqb c backslash) && negb (isDigit c)
      && match special c with Some _ => false | None => true end
  | eof, [] => true
  | (whitespace | number | command | newline | text | eof), _ => false
  | ty, [c] =>
      match special c with
      | Some ty' => TokenType_eqb ty' ty
      | None => false
      end
  | _, _ => false
  end.

(** Whether the character [next] may directly follow the token: not a
    white space after a [whitespace] token, not a digit or dot after a
    [number], not a letter after a command spelled with letters. *)
Definition follows (t : Token) (next : option ascii) : bool :=
  match next with
  | None => true
  | Some c =>
      match type t, chars t with
      | whitespace, _ => negb (isSpace c)
      | number, _ => negb (isDigitOrDot c)
      | command, _ :: (l :: _) as name =>
          if isLetter l then negb (isLetter c) else true
      | _, _ => true
      end
  end.

Definition firstChar (t : Token) : option ascii := hd_error (chars t).

Fixpoint chained (toks : list Token) : bool :=
  match toks with
  | t1 :: (t2 :: _) as rest => follows t1 (firstChar t2) && chained rest
  | _ => true
  end.

Lemma span_forallb p l : forallb p (fst (span p l)) = true.
Proof.
  induction l as [|c t IH]; simpl; [reflexivity|].
  destruct (p c) eqn:E; [|reflexivity].
  destruct (span p t) as [tk rs]. simpl in *. rewrite E, IH. reflexivity.
Qed.

Lemma span_stops p l :
  match hd_error (snd (span p l)) with
  | Some c => p c = false
  | None => True
  end.
Proof.
  induction l as [|c t IH]; simpl; [exact I|].
  destruct (p c) eqn:E.
  - destruct (span p t) as [tk rs]. simpl in *. exact IH.
  - simpl. exact E.
Qed.

Lemma special_types c ty :
  special c = Some ty ->
  existsb (TokenType_eqb ty)
          [openBrace; closeBrace; openBracket; closeBracket; openParen;
           closeParen; superscript; subscript; ampersand; pipe; operator]
  = true.
Proof.
  unfold special.
  repeat match goal with
         | |- (if ?b then _ else _) = _ -> _ => destruct b
         end; intros H; inversion H; reflexivity.
Qed.

Lemma single_shape ty c rest start :
  special c = Some ty -> shape (fst (single ty c rest start)) = true.
Proof.
  intros E. pose proof (special_types c ty E) as T.
  unfold shape, chars. simpl.
  destruct ty; try discriminate; rewrite E; reflexivity.
Qed.

(** One call of [nextToken]: the token is well shaped, what follows it
    may follow it, and it starts with the character at the position. *)
Lemma nextToken_shape c rest start :
  shape (fst (nextToken c rest start)) = true /\
  follows (fst (nextToken c rest start))
          (hd_error (fst (snd (nextToken c rest start)))) = true /\
  firstChar (fst (nextToken c rest start)) = Some c.
Proof.
  unfold nextToken.
  destruct (isSpace c) eqn:Sp.
  { unfold readWhitespace.
    pose proof (span_forallb isSpace rest) as F.
    pose proof (span_stops isSpace rest) as St.
    destruct (span isSpace rest) as [tk rs]. simpl in *.
    unfold shape, follows, firstChar, chars. simpl.
    rewrite list_ascii_of_string_of_list_ascii, Sp, F.
    repeat split. destruct (hd_error rs); [rewrite St|]; reflexivity. }
  destruct (Ascii.eqb_spec c backslash) as [->|Hc].
  { unfold readCommand. destruct rest as [|n rest'].
    - repeat split.
    - destruct (Ascii.eqb_spec n backslash) as [->|Hn].
      + repeat split. unfold follows. simpl. destruct (hd_error rest'); reflexivity.
      + destruct (isLetter n) eqn:L; cbn [negb].
        * pose proof (span_forallb isLetter (n :: rest')) as F.
          pose proof (span_stops isLetter (n :: rest')) as St.
          simpl in F, St. rewrite L in F, St.
          cbn [span]. rewrite L.
          destruct (span isLetter rest') as [tk rs]. simpl in *.
          unfold shape, follows, firstChar, chars. simpl.
          rewrite list_ascii_of_string_of_list_ascii, L.
          apply andb_prop in F. destruct F as [_ F]. rewrite F.
          repeat split. destruct (hd_error rs); [rewrite St|]; reflexivity.
        * unfold shape, follows, firstChar, chars. simpl. rewrite L.
          replace (Ascii.eqb n backslash) with false
            by (symmetry; apply Ascii.eqb_neq; exact Hn).
          repeat split. destruct (hd_error rest'); reflexivity. }
  assert (Hb : Ascii.eqb c backslash = false) by (apply Ascii.eqb_neq; exact Hc).
  destruct (isDigit c) eqn:D.
  { unfold readNumber.
    pose proof (span_forallb isDigitOrDot rest) as F.
    pose proof (span_stops isDigitOrDot rest) as St.
    destruct (span isDigitOrDot rest) as [tk rs]. simpl in *.
    unfold shape, follows, firstChar, chars. simpl.
    rewrite list_ascii_of_string_of_list_ascii, D, F.
    repeat split. destruct (hd_error rs); [rewrite St|]; reflexivity. }
  destruct (special c) as [ty|] eqn:E.
  - split; [apply single_shape, E|].
    split; [|reflexivity].
    pose proof (special_types c ty E) as T.
    unfold follows. simpl. destruct (hd_error rest); [|reflexivity].
    destruct ty; try discriminate; reflexivity.
  - assert (Ht : shape (fst (single text c rest start)) = true).
    { unfold shape, chars. simpl. rewrite Sp, Hb, D, E. reflexivity. }
    destruct (isLetter c); (split; [exact Ht|]);
      (split; [|reflexivity]);
      unfold follows; simpl; destruct (hd_error rest); reflexivity.
Qed.

Lemma tokenizeLoop_shapes fuel : forall src pos toks,
  tokenizeLoop fuel src pos = Some toks ->
  Forall (fun t => shape t = true) toks /\
  chained toks = true /\
  hd_error src = match toks with t :: _ => firstChar t | [] => None end.
Proof.
  induction fuel as [|fuel IH]; intros src pos toks H.
  - destruct src; [|discriminate]. simpl in H. inversion H; subst.
    repeat split. repeat constructor.
  - destruct src as [|c rest].
    + simpl in H. inversion H; subst. repeat split. repeat constructor.
    + simpl in H.
      pose proof (nextToken_shape c rest pos) as (Hs & Hf & Hc).
      destruct (nextToken c rest pos) as [tok [rest' pos']]. simpl in *.
      destruct (tokenizeLoop fuel rest' pos') as [more|] eqn:E; [|discriminate].
      simpl in H. inversion H; subst; clear H.
      destruct (IH _ _ _ E) as (Hall & Hch & Hhd).
      repeat split.
      * constructor; assumption.
      * simpl. destruct more as [|t2 more'].
        -- reflexivity.
        -- rewrite <- Hhd, Hf. exact Hch.
      * simpl. symmetry. exact Hc.
Qed.

Lemma tokenize_returns source : exists toks, tokenize source = Some toks.
Proof.
  unfold tokenize.
  destruct (tokenizeLoop_spec (String.length source)
              (list_ascii_of_string source) 0) as (toks & H & _).
  { rewrite list_string_length. lia. }
  eexists. exact H.
Qed.

(** X12.  [tokenize] returns, and every token it returns has the text
    its type promises: a [whitespace] token is a non-empty run of white
    space, a [number] a digit followed by digits and dots, a [command] a
    backslash followed by letters only or by one other character, a
    [newline] two backslashes, a punctuation or operator token the one
    character of its type, a [text] token one character of no other
    class, and the end-of-input token is empty. *)
Theorem tokenize_shapes source :
  exists toks,
    tokenize source = Some toks /\
    Forall (fun t => shape t = true) toks.
Proof.
  destruct (tokenize_returns source) as (toks & H).
  exists toks. split; [exact H|].
  unfold tokenize in H.
  exact (proj1 (tokenizeLoop_shapes _ _ _ _ H)).
Qed.

(** X13.  Runs are maximal: in the token list [tokenize] returns, a
    [whitespace] token is never followed by a token starting with white
    space, a [number] never by one starting with a digit or a dot, and a
    command spelled with letters never by one starting with a letter. *)
Theorem tokenize_maximal_runs source :
  exists toks,
    tokenize source = Some toks /\ chained toks = true.
Proof.
  destruct (tokenize_returns source) as (toks & H).
  exists toks. split; [exact H|].
  unfold tokenize in H.
  exact (proj1 (proj2 (tokenizeLoop_shapes _ _ _ _ H))).
Qed.

End TokensProps.

(* ================================================================== *)
(** ** The matrix loop on a stray closing delimiter ([parseMatrix]) *)
(* ================================================================== *)

Module ParserLoops.
Import Ast Tokens Outcome Outcome.Notations Parser.

(** A closing brace, bracket or parenthesis: what ends [parseRow]
    whatever its stop tokens, and is none of the tokens the loop of
    [parseMatrix] consumes. *)
Definition closes (t : Token) : bool :=
  TokenType_eqb (type t) closeBrace
  || TokenType_eqb (type t) closeBracket
  || TokenType_eqb (type t) closeParen.

(** The tokens of [\begin{env}]. *)
Definition beginTokens (env : string) : list Token :=
  match tokenize (String.append "\begin{" (String.append env "}")) with
  | Some toks => removelast toks
  | None => []
  end.

Lemma closes_stopsAt stops t : closes t = true -> stopsAt stops t = true.
Proof.
  unfold closes, stopsAt. intros H.
  destruct (type t); try discriminate; simpl; rewrite ?orb_true_r; reflexivity.
Qed.

Lemma closes_head t rest :
  closes t = true ->
  isEof (t :: rest) = false /\
  skipWhitespace (t :: rest) = t :: rest /\
  isValue command "\end" (t :: rest) = false /\
  isType newline (t :: rest) = false /\
  isType ampersand (t :: rest) = false.
Proof.
  unfold closes, isEof, isType, isValue. simpl. intros H.
  destruct (type t); try discriminate; repeat split.
Qed.

Lemma parseRowLoop_closes fuel stops children t rest :
  closes t = true ->
  parseRowLoop (S fuel) stops children (t :: rest) = Ok (children, t :: rest).
Proof.
  intros H. destruct (closes_head t rest H) as (E1 & E2 & _).
  cbn [parseRowLoop]. rewrite E1, E2.
  change (peek (t :: rest)) with t. rewrite (closes_stopsAt stops t H).
  reflexivity.
Qed.

Lemma parseMatrixLoop_closes fuel : forall rows currentRow t rest,
  closes t = true ->
  parseMatrixLoop fuel rows currentRow (t :: rest) = OutOfFuel.
Proof.
  induction fuel as [|fuel IH]; intros rows currentRow t rest H.
  - reflexivity.
  - destruct (closes_head t rest H) as (E1 & E2 & E3 & E4 & E5).
    cbn [parseMatrixLoop]. rewrite E1, E2, E3, E4, E5.
    destruct fuel as [|fuel']; [reflexivity|].
    rewrite (parseRowLoop_closes fuel' _ [] t rest H).
    cbn [bind]. apply IH. exact H.
Qed.

Lemma parseMatrix_closes fuel style t rest :
  String.eqb style "array" = false ->
  closes t = true ->
  parseMatrix fuel style (t :: rest) = OutOfFuel.
Proof.
  intros Hs H. destruct fuel as [|fuel]; [reflexivity|].
  cbn [parseMatrix]. unfold parseColSpec. rewrite Hs. cbn [bind].
  rewrite (parseMatrixLoop_closes fuel [] [] t rest H). reflexivity.
Qed.

(** The matrix environments without a column specification. *)
Definition plainMatrix : list string :=
  ["matrix"; "pmatrix"; "bmatrix"; "Bmatrix"; "vmatrix"; "Vmatrix"].

Lemma plainMatrix_not_array env :
  In env plainMatrix -> String.eqb env "array" = false.
Proof.
  unfold plainMatrix. simpl. intuition (subst; reflexivity).
Qed.

(** The first round of [parseRow] on [\begin{env}]: through
    [parseAtom], [parseCommand] and [parseEnvironment] into
    [parseMatrix]. *)
Lemma parseRowLoop_begin fuel env s :
  In env plainMatrix ->
  parseRowLoop (S (S fuel)) [] [] (beginTokens env ++ s)
  = '(a, s) <- ('(n, s) <- parseMatrix fuel env s ;; Ok (Some n, s)) ;;
    parseRowLoop (S fuel) []
                 (match a with Some a => [] ++ [a] | None => [] end) s.
Proof.
  intros Henv. unfold plainMatrix in Henv. simpl in Henv.
  destruct Henv as [<-|[<-|[<-|[<-|[<-|[<-|[]]]]]]]; reflexivity.
Qed.

Lemma parse_begin_closes fuel env t rest :
  In env plainMatrix ->
  closes t = true ->
  parse fuel (beginTokens env ++ t :: rest) = OutOfFuel.
Proof.
  intros Henv H.
  destruct fuel as [|[|fuel]].
  - reflexivity.
  - unfold plainMatrix in Henv. simpl in Henv.
    destruct Henv as [<-|[<-|[<-|[<-|[<-|[<-|[]]]]]]]; reflexivity.
  - unfold parse, parseRow. rewrite (parseRowLoop_begin fuel env _ Henv).
    rewrite parseMatrix_closes; [reflexivity| |exact H].
    apply plainMatrix_not_array, Henv.
Qed.

(** X14.  On a closing brace, bracket or parenthesis where a cell or
    [\end] should be, the loop of [parseMatrix] never ends: [parseRow]
    returns an empty cell without consuming the token, the cell is
    pushed, and the loop goes round again.  No amount of fuel lets the
    loop, [parseMatrix], or [parse] of [\begin{env}] followed by such a
    token return a tree or an error. *)
Theorem parseMatrix_loops_on_closing_token fuel env t rest :
  closes t = true ->
  (forall rows currentRow,
      parseMatrixLoop fuel rows currentRow (t :: rest) = OutOfFuel) /\
  (In env plainMatrix ->
   parseMatrix fuel env (t :: rest) = OutOfFuel /\
   parse fuel (beginTokens env ++ t :: rest) = OutOfFuel).
Proof.
  intros H. split.
  - intros rows currentRow. apply parseMatrixLoop_closes, H.
  - intros Henv. split.
    + apply parseMatrix_closes; [apply plainMatrix_not_array, Henv|exact H].
    + apply parse_begin_closes; assumption.
Qed.

Lemma parseMatrix_loops_on_closing_token_witness :
  let t := {| type := closeBrace; value := "}"; position := 14 |} in
  let e := {| type := eof; value := ""; position := 15 |} in
  closes t = true /\
  In "matrix" plainMatrix /\
  tokenize "\begin{matrix}}" = Some (beginTokens "matrix" ++ [t; e]) /\
  parse 1000 (beginTokens "matrix" ++ [t; e]) = OutOfFuel.
Proof.
  intros t e.
  split; [reflexivity|]. split; [left; reflexivity|].
  split; [reflexivity|].
  apply (parseMatrix_loops_on_closing_token 1000 "matrix" t [e]).
  - reflexivity.
  - left; reflexivity.
Defined.

End ParserLoops.

(* ================================================================== *)
(** ** Valid cursors and the focusable searches ([src/core/cursor.ts]) *)
(* ================================================================== *)

Module CursorValidity.
Import Ast Cursor Outcome Outcome.Notations Focusable FocusableProps.

Definition isValidPath (root : MathNode) (path : list nat) : bool :=
  match getNodeAtPath root path with
  | Some _ => true
  | None => false
  end.

Definition isValidCursor (root : MathNode) (pos : CursorPosition) : bool :=
  match getNodeAtPath root (path pos) with
  | None => false
  | Some (RowNode children) =>
      (0 <=? offset pos) && (offset pos <=? length children)
  | Some _ => false
  end.

Lemma getNodeAtPath_snoc root p i n :
  getNodeAtPath root (p ++ [i]) = Some n ->
  exists parent, getNodeAtPath root p = Some parent /\
                 nth_error (getChildNodes parent) i = Some n.
Proof.
  revert root. induction p as [|j p IH]; intros root; simpl.
  - destruct (nth_error (getChildNodes root) i) as [c|] eqn:E; [|discriminate].
    intros H. exists root. split; [reflexivity|]. rewrite E. exact H.
  - destruct (nth_error (getChildNodes root) j) as [c|]; [|discriminate].
    apply IH.
Qed.

Lemma getNodeAtPath_child root p i parent n :
  getNodeAtPath root p = Some parent ->
  nth_error (getChildNodes parent) i = Some n ->
  getNodeAtPath root (p ++ [i]) = Some n.
Proof.
  revert root. induction p as [|j p IH]; intros root; simpl.
  - intros H E. inversion H; subst. rewrite E. reflexivity.
  - destruct (nth_error (getChildNodes root) j) as [c|]; [|discriminate].
    apply IH.
Qed.

(** Walking up from a node of a tree whose root is a row finds a row,
    and the cursor after the child the walk came from is valid. *)
Lemma nearestRowAbove_valid root : isRow root = true ->
  forall rpath n,
    rpath <> [] ->
    getNodeAtPath root (rev rpath) = Some n ->
    exists c, nearestRowAbove root rpath = Some c /\
              isValidCursor root c = true.
Proof.
  intros Hroot. induction rpath as [|i rparent IH]; intros n Hne Hn;
    [contradiction|].
  simpl in Hn. apply getNodeAtPath_snoc in Hn.
  destruct Hn as (parent & Hp & Hi). simpl. rewrite Hp.
  assert (Hup : isRow parent = false ->
                exists c, nearestRowAbove root rparent = Some c /\
                          isValidCursor root c = true).
  { intros Hnr. apply (IH parent); [|exact Hp].
    intros ->. simpl in Hp. inversion Hp; subst. congruence. }
  destruct parent
    as [v|v|v|v|s| |cs|a b|a b|a b|a b d|a ix|o cl a s|nm arg lim|rows st cl];
    try (apply Hup; reflexivity).
  eexists. split; [reflexivity|].
  unfold isValidCursor. simpl. rewrite Hp.
  assert (i < length cs) by (apply nth_error_Some; simpl in Hi; congruence).
  apply Nat.leb_le. lia.
Qed.

Lemma coerceToRowCursorIn_valid root fuel p off :
  isRow root = true ->
  isValidPath root p = true ->
  exists c, coerceToRowCursorIn (S fuel) root (cursor p off) = Ok c /\
            isValidCursor root c = true.
Proof.
  intros Hroot Hp. unfold isValidPath in Hp. simpl.
  destruct (getNodeAtPath root p) as [n|] eqn:Hn; [|discriminate].
  assert (Hup : isRow n = false ->
                exists c, nearestRowAbove root (rev p) = Some c /\
                          isValidCursor root c = true).
  { intros Hnr. apply (nearestRowAbove_valid root Hroot (rev p) n).
    - intros E. apply (f_equal (@rev nat)) in E. rewrite rev_involutive in E.
      simpl in E. subst p. simpl in Hn. inversion Hn; subst. congruence.
    - rewrite rev_involutive. exact Hn. }
  destruct n;
    try (destruct Hup as (c & -> & Hc); [reflexivity|]; eauto).
  eexists. split; [reflexivity|].
  unfold isValidCursor. simpl. rewrite Hn. apply Nat.leb_le. lia.
Qed.

Lemma firstWithRow_nth children : forall k i child,
  firstWithRow children k = Some (i, child) ->
  k <= i /\ nth_error children (i - k) = Some child.
Proof.
  induction children as [|c rest IH]; intros k i child; simpl; [discriminate|].
  destruct (isRow c || hasDescendantRow c).
  - intros H; inversion H; subst. rewrite Nat.sub_diag. split; [lia|reflexivity].
  - intros H. apply IH in H. destruct H as [Hle Hn].
    split; [lia|]. replace (i - k) with (S (i - S k)) by lia. exact Hn.
Qed.

Lemma findFirstFocusableIn_valid root :
  isRow root = true ->
  forall fuel basePath n,
    getNodeAtPath root basePath = Some n ->
    depth n + 2 <= fuel ->
    exists c, findFirstFocusableIn fuel root basePath = Ok c /\
              isValidCursor root c = true.
Proof.
  intros Hroot. induction fuel as [|fuel IH]; intros basePath n Hn Hfuel; [lia|].
  cbn [findFirstFocusableIn]. rewrite Hn. cbn [orRoot].
  assert (Hgo : isRow n = false ->
    exists c,
      match firstWithRow (getChildNodes n) 0 with
      | Some (i, RowNode _) => Ok (cursor (basePath ++ [i]) 0)
      | Some (i, _) => findFirstFocusableIn fuel root (basePath ++ [i])
      | None => coerceToRowCursorIn fuel root (cursor basePath 0)
      end = Ok c /\ isValidCursor root c = true).
  { intros Hnr.
    destruct (firstWithRow (getChildNodes n) 0) as [[i child]|] eqn:E.
    - apply firstWithRow_nth in E. destruct E as [_ E].
      rewrite Nat.sub_0_r in E.
      pose proof (getNodeAtPath_child root basePath i n child Hn E) as Hc.
      assert (Hd : depth child < depth n)
        by (apply depth_child; eapply nth_error_In; exact E).
      assert (Hrec : exists c,
                 findFirstFocusableIn fuel root (basePath ++ [i]) = Ok c /\
                 isValidCursor root c = true)
        by (apply (IH _ child Hc); lia).
      destruct child; try exact Hrec.
      eexists. split; [reflexivity|].
      unfold isValidCursor. simpl. rewrite Hc. reflexivity.
    - destruct fuel as [|fuel']; [lia|].
      apply coerceToRowCursorIn_valid; [exact Hroot|].
      unfold isValidPath. rewrite Hn. reflexivity. }
  destruct n; try (apply Hgo; reflexivity).
  eexists. split; [reflexivity|].
  unfold isValidCursor. simpl. rewrite Hn. reflexivity.
Qed.

Lemma findLastFocusableIn_valid root :
  isRow root = true ->
  forall fuel basePath n,
    getNodeAtPath root basePath = Some n ->
    depth n + 2 <= fuel ->
    exists c, findLastFocusableIn fuel root basePath = Ok c /\
              isValidCursor root c = true.
Proof.
  intros Hroot. induction fuel as [|fuel IH]; intros basePath n Hn Hfuel; [lia|].
  cbn [findLastFocusableIn]. rewrite Hn. cbn [orRoot].
  assert (Hgo : isRow n = false ->
    exists c,
      match lastWithRow (getChildNodes n) 0 with
      | Some (i, RowNode children) =>
          Ok (cursor (basePath ++ [i]) (length children))
      | Some (i, _) => findLastFocusableIn fuel root (basePath ++ [i])
      | None => coerceToRowCursorIn fuel root (cursor basePath 0)
      end = Ok c /\ isValidCursor root c = true).
  { intros Hnr.
    destruct (lastWithRow (getChildNodes n) 0) as [[i child]|] eqn:E.
    - apply lastWithRow_nth in E. destruct E as [_ E].
      rewrite Nat.sub_0_r in E.
      pose proof (getNodeAtPath_child root basePath i n child Hn E) as Hc.
      assert (Hd : depth child < depth n)
        by (apply depth_child; eapply nth_error_In; exact E).
      assert (Hrec : exists c,
                 findLastFocusableIn fuel root (basePath ++ [i]) = Ok c /\
                 isValidCursor root c = true)
        by (apply (IH _ child Hc); lia).
      destruct child; try exact Hrec.
      eexists. split; [reflexivity|].
      unfold isValidCursor. simpl. rewrite Hc.
      apply Nat.leb_le. lia.
    - destruct fuel as [|fuel']; [lia|].
      apply coerceToRowCursorIn_valid; [exact Hroot|].
      unfold isValidPath. rewrite Hn. reflexivity. }
  destruct n; try (apply Hgo; reflexivity).
  eexists. split; [reflexivity|].
  unfold isValidCursor. simpl. rewrite Hn. apply Nat.leb_le. lia.
Qed.

(** X15.  In a tree whose root is a row, [coerceToRowCursor] at a
    path that resolves, and [findFirstFocusable] and [findLastFocusable]
    from such a path, return, and what they return is a valid cursor: it
    addresses a row, with an offset within that row. *)
Theorem searches_return_valid_cursors root p off :
  isRow root = true ->
  isValidPath root p = true ->
  (exists c, coerceToRowCursor root (cursor p off) = Ok c /\
             isValidCursor root c = true) /\
  (exists c, findFirstFocusable root p = Ok c /\
             isValidCursor root c = true) /\
  (exists c, findLastFocusable root p = Ok c /\
             isValidCursor root c = true).
Proof.
  intros Hroot Hp. split; [|split].
  - unfold coerceToRowCursor, searchFuel.
    replace (2 * depth root + 4) with (S (2 * depth root + 3)) by lia.
    apply coerceToRowCursorIn_valid; assumption.
  - unfold isValidPath in Hp.
    destruct (getNodeAtPath root p) as [n|] eqn:Hn; [|discriminate].
    apply (findFirstFocusableIn_valid root Hroot _ p n Hn).
    apply depth_at_path in Hn. unfold searchFuel. lia.
  - unfold isValidPath in Hp.
    destruct (getNodeAtPath root p) as [n|] eqn:Hn; [|discriminate].
    apply (findLastFocusableIn_valid root Hroot _ p n Hn).
    apply depth_at_path in Hn. unfold searchFuel. lia.
Qed.

Lemma searches_return_valid_cursors_witness :
  let root := node.row [node.symbol "x";
                        node.fraction (node.row [node.number "1"])
                                      (node.row [node.number "2"])] in
  isRow root = true /\ isValidPath root [1] = true /\
  coerceToRowCursor root (cursor [1] 0) = Ok (cursor [] 2) /\
  findFirstFocusable root [1] = Ok (cursor [1; 0] 0) /\
  findLastFocusable root [1] = Ok (cursor [1; 1] 1) /\
  (exists c, coerceToRowCursor root (cursor [1] 0) = Ok c /\
             isValidCursor root c = true).
Proof.
  intros root. repeat (split; [reflexivity|]).
  apply (searches_return_valid_cursors root [1] 0); reflexivity.
Defined.

Lemma nearestRowAbove_shorter root : forall rpath c,
  nearestRowAbove root rpath = Some c -> length (path c) < length rpath.
Proof.
  induction rpath as [|i rparent IH]; intros c; simpl; [discriminate|].
  assert (Hup : nearestRowAbove root rparent = Some c ->
                length (path c) < S (length rparent))
    by (intros H; apply IH in H; lia).
  destruct (getNodeAtPath root (rev rparent)) as [[]|]; try exact Hup.
  intros H; inversion H; subst. simpl. rewrite length_rev. lia.
Qed.

(** X16.  In a tree whose root is a row, the cursors
    [coerceToRowCursor] leaves as they are are exactly the valid ones;
    and a valid cursor is left as it is whatever the root. *)
Theorem coerceToRowCursor_fixes_valid root c :
  (isValidCursor root c = true -> coerceToRowCursor root c = Ok c) /\
  (isRow root = true ->
   coerceToRowCursor root c = Ok c -> isValidCursor root c = true).
Proof.
  unfold coerceToRowCursor, searchFuel, isValidCursor.
  replace (2 * depth root + 4) with (S (2 * depth root + 3)) by lia.
  cbn [coerceToRowCursorIn]. destruct c as [p off]. cbn [path offset].
  split.
  - destruct (getNodeAtPath root p) as [[]|]; try discriminate.
    intros H. apply andb_prop in H. destruct H as [_ H].
    apply Nat.leb_le in H. do 2 f_equal. lia.
  - intros Hroot.
    assert (Hup :
      match nearestRowAbove root (rev p) with
      | Some c => Ok c
      | None =>
          match root with
          | RowNode _ => Ok (cursor [] 0)
          | _ => findFirstFocusableIn (2 * depth root + 3) root []
          end
      end = Ok (cursor p off) ->
      getNodeAtPath root p = Some root /\ p = []).
    { destruct (nearestRowAbove root (rev p)) as [c'|] eqn:E.
      - intros H. inversion H; subst. apply nearestRowAbove_shorter in E.
        rewrite length_rev in E. simpl in E. lia.
      - destruct root; try discriminate.
        intros H. inversion H; subst. split; reflexivity. }
    destruct (getNodeAtPath root p) as [n|] eqn:Hn.
    + destruct n;
        try (intros H; apply Hup in H; destruct H as [H ->];
             simpl in Hn; inversion Hn; subst; discriminate).
      intros H. inversion H as [E]. apply Nat.leb_le. lia.
    + intros H. apply Hup in H. destruct H as [H _]. discriminate.
Qed.

Lemma coerceToRowCursor_fixes_valid_witness :
  let root := node.row [node.symbol "x"; node.symbol "y"] in
  isValidCursor root (cursor [] 1) = true /\
  coerceToRowCursor root (cursor [] 1) = Ok (cursor [] 1) /\
  isValidCursor root (cursor [] 5) = false /\
  coerceToRowCursor root (cursor [] 5) = Ok (cursor [] 2).
Proof.
  intros root. split; [reflexivity|]. split.
  - apply (proj1 (coerceToRowCursor_fixes_valid root (cursor [] 1))).
    reflexivity.
  - split; reflexivity.
Defined.

(** *** A tree without rows *)

Lemma rowless_children n :
  hasDescendantRow n = false ->
  isRow n = false /\
  forall c, In c (getChildNodes n) ->
            isRow c || hasDescendantRow c = false.
Proof.
  rewrite hasDescendantRow_eq. intros H.
  apply orb_false_elim in H. destruct H as [Hr Hc]. split; [exact Hr|].
  intros c Hin.
  assert (Hd : hasDescendantRow c = false).
  { destruct (hasDescendantRow c) eqn:E; [|reflexivity].
    rewrite <- Hc. symmetry. apply existsb_exists. eauto. }
  rewrite Hd, orb_false_r.
  rewrite hasDescendantRow_eq in Hd. apply orb_false_elim in Hd. tauto.
Qed.

Lemma rowless_at_path p : forall root n,
  hasDescendantRow root = false ->
  getNodeAtPath root p = Some n -> hasDescendantRow n = false.
Proof.
  induction p as [|i p IH]; intros root n Hroot; simpl.
  - intros H; inversion H; subst. exact Hroot.
  - destruct (nth_error (getChildNodes root) i) as [c|] eqn:E; [|discriminate].
    apply IH. apply nth_error_In in E.
    apply (proj2 (rowless_children root Hroot)) in E.
    apply orb_false_elim in E. tauto.
Qed.

Lemma rowless_no_row root p :
  hasDescendantRow root = false ->
  match getNodeAtPath root p with
  | Some (RowNode _) => False
  | _ => True
  end.
Proof.
  intros Hroot. destruct (getNodeAtPath root p) as [n|] eqn:E; [|exact I].
  apply (rowless_at_path p root n Hroot) in E. destruct n; try exact I.
  discriminate.
Qed.

Lemma rowless_nearestRowAbove root rpath :
  hasDescendantRow root = false -> nearestRowAbove root rpath = None.
Proof.
  intros Hroot. induction rpath as [|i rparent IH]; [reflexivity|].
  simpl. pose proof (rowless_no_row root (rev rparent) Hroot) as H.
  destruct (getNodeAtPath root (rev rparent)) as [[]|]; try exact IH.
  contradiction.
Qed.

Lemma rowless_firstWithRow children : forall k,
  (forall c, In c children -> isRow c || hasDescendantRow c = false) ->
  firstWithRow children k = None.
Proof.
  induction children as [|c rest IH]; intros k H; [reflexivity|].
  simpl. rewrite (H c (or_introl eq_refl)).
  apply IH. intros c' Hin. apply H. right. exact Hin.
Qed.

Lemma rowless_lastWithRow children : forall k,
  (forall c, In c children -> isRow c || hasDescendantRow c = false) ->
  lastWithRow children k = None.
Proof.
  induction children as [|c rest IH]; intros k H; [reflexivity|].
  simpl. rewrite IH by (intros c' Hin; apply H; right; exact Hin).
  rewrite (H c (or_introl eq_refl)). reflexivity.
Qed.

Lemma rowless_orRoot root p :
  hasDescendantRow root = false ->
  hasDescendantRow (orRoot root (getNodeAtPath root p)) = false.
Proof.
  intros Hroot. destruct (getNodeAtPath root p) as [n|] eqn:E; simpl.
  - exact (rowless_at_path p root n Hroot E).
  - exact Hroot.
Qed.

Lemma rowless_searches root :
  hasDescendantRow root = false ->
  forall fuel,
    (forall pos, coerceToRowCursorIn fuel root pos = OutOfFuel) /\
    (forall basePath, findFirstFocusableIn fuel root basePath = OutOfFuel).
Proof.
  intros Hroot. induction fuel as [|fuel [IHc IHf]]; [split; reflexivity|].
  split.
  - intros pos. cbn [coerceToRowCursorIn].
    pose proof (rowless_no_row root (path pos) Hroot) as H.
    rewrite (rowless_nearestRowAbove root _ Hroot).
    assert (Hr : isRow root = false) by apply (rowless_children root Hroot).
    destruct (getNodeAtPath root (path pos)) as [[]|]; try contradiction;
      destruct root; try discriminate; apply IHf.
  - intros basePath. cbn [findFirstFocusableIn].
    pose proof (rowless_orRoot root basePath Hroot) as Hn.
    destruct (rowless_children _ Hn) as [Hr Hc].
    rewrite (rowless_firstWithRow _ 0 Hc).
    destruct (orRoot root (getNodeAtPath root basePath));
      try discriminate; apply IHc.
Qed.

(** X17.  On a tree with no row in it (a lone symbol or a fraction of
    two numbers as the root), [coerceToRowCursor], [findFirstFocusable]
    and [findLastFocusable] never return: each falls back on the next
    and the calls go round without end, whatever the cursor or the base
    path. *)
Theorem searches_loop_without_rows root fuel pos basePath :
  hasDescendantRow root = false ->
  coerceToRowCursorIn fuel root pos = OutOfFuel /\
  findFirstFocusableIn fuel root basePath = OutOfFuel /\
  findLastFocusableIn fuel root basePath = OutOfFuel.
Proof.
  intros Hroot.
  destruct (rowless_searches root Hroot fuel) as [Hc Hf].
  split; [apply Hc|]. split; [apply Hf|].
  destruct fuel as [|fuel]; [reflexivity|].
  cbn [findLastFocusableIn].
  pose proof (rowless_orRoot root basePath Hroot) as Hn.
  destruct (rowless_children _ Hn) as [Hr Hch].
  rewrite (rowless_lastWithRow _ 0 Hch).
  destruct (orRoot root (getNodeAtPath root basePath));
    try discriminate; apply (rowless_searches root Hroot fuel).
Qed.

Lemma searches_loop_without_rows_witness :
  let root := node.fraction (node.number "1") (node.number "2") in
  hasDescendantRow root = false /\
  coerceToRowCursorIn 1000 root (cursor [0] 0) = OutOfFuel /\
  findFirstFocusableIn 1000 root [] = OutOfFuel /\
  findLastFocusableIn 1000 root [] = OutOfFuel.
Proof.
  intros root. split; [reflexivity|].
  apply (searches_loop_without_rows root 1000 (cursor [0] 0) []).
  reflexivity.
Defined.

End CursorValidity.

(* ================================================================== *)
(** ** Rows in parser output ([src/parser/latex-to-ast.ts]) *)
(* ================================================================== *)

Module ParserRows.
Import Ast Cursor Selection Model Tokens Outcome Outcome.Notations Parser.
Import AstOps DeleteProps Normalization CursorValidity.

(** Every row of the tree has at least two children. *)
Fixpoint properRows (n : MathNode) : bool :=
  let opt (o : option MathNode) : bool :=
    match o with Some x => properRows x | None => true end in
  match n with
  | RowNode cs => (2 <=? length cs) && forallb properRows cs
  | FractionNode a b => properRows a && properRows b
  | PowerNode a b => properRows a && properRows b
  | SubscriptNode a b => properRows a && properRows b
  | SubSupNode a b c => properRows a && properRows b && properRows c
  | SqrtNode r i => properRows r && opt i
  | ParensNode _ _ c _ => properRows c
  | FunctionNode _ arg lim =>
      opt arg
      && match lim with
         | Some (lo, up) => opt lo && opt up
         | None => true
         end
  | MatrixNode rows _ _ => forallb (forallb properRows) rows
  | _ => true
  end.

Definition optProper (o : option MathNode) : bool :=
  match o with Some x => properRows x | None => true end.

(** A production is sound when the tree it returns, if it returns one,
    has proper rows. *)
Definition sound (r : PResult MathNode) : Prop :=
  forall n s, r = Ok (n, s) -> properRows n = true.

Ltac step :=
  match goal with
  | H : Ok _ = Ok _ |- _ => inversion H; subst; clear H
  | H : Throw _ = Ok _ |- _ => discriminate H
  | H : OutOfFuel = Ok _ |- _ => discriminate H
  | H : bind ?m _ = Ok _ |- _ =>
      let E := fresh "E" in
      destruct m as [[? ?]| |] eqn:E; cbn [bind] in H;
      [|discriminate H|discriminate H]
  | H : (let (_, _) := ?p in _) = Ok _ |- _ =>
      let E := fresh "E" in destruct p eqn:E
  | H : (if ?b then _ else _) = Ok _ |- _ =>
      let E := fresh "E" in destruct b eqn:E
  | H : match ?x with _ => _ end = Ok _ |- _ =>
      let E := fresh "E" in destruct x eqn:E
  end.

Lemma simplifyRow_proper cs :
  forallb properRows cs = true -> properRows (simplifyRow cs) = true.
Proof.
  destruct cs as [|c [|d cs]]; simpl; intros H.
  - reflexivity.
  - apply andb_prop in H. tauto.
  - exact H.
Qed.

Lemma matrix_proper rows style colSpec :
  forallb (forallb properRows) rows = true ->
  properRows (node.matrix rows style colSpec) = true.
Proof. intros H. exact H. Qed.

Section Productions.
Variable parseRow : list string -> TokenStream -> PResult MathNode.
Variable parseCommand : TokenStream -> PResult MathNode.
Variable parseMatrix : string -> TokenStream -> PResult MathNode.
Hypothesis Hrow : forall stops s, sound (parseRow stops s).
Hypothesis Hcmd : forall s, sound (parseCommand s).
Hypothesis Hmat : forall style s, sound (parseMatrix style s).

Ltac use_hyps :=
  repeat match goal with
         | E : parseRow _ _ = Ok (_, _) |- _ => apply Hrow in E
         | E : parseCommand _ = Ok (_, _) |- _ => apply Hcmd in E
         | E : parseMatrix _ _ = Ok (_, _) |- _ => apply Hmat in E
         end.

Lemma parseGroup_sound s : sound (parseGroup parseRow s).
Proof.
  unfold sound, parseGroup. intros n s' H. repeat step. use_hyps. assumption.
Qed.

Lemma parseScriptArg_sound s :
  sound (parseScriptArg parseRow parseCommand s).
Proof.
  unfold sound, parseScriptArg. intros n s' H.
  destruct (isType openBrace (skipWhitespace s)).
  - eapply parseGroup_sound, H.
  - repeat step; use_hyps; try reflexivity; assumption.
Qed.

Lemma scriptLoop_sound rounds : forall sup sub s sup' sub' s',
  optProper sup = true -> optProper sub = true ->
  scriptLoop parseRow parseCommand rounds sup sub s = Ok ((sup', sub'), s') ->
  optProper sup' = true /\ optProper sub' = true.
Proof.
  induction rounds as [|rounds IH]; intros sup sub s sup' sub' s' Hsup Hsub H.
  - simpl in H.
    destruct (isType superscript s); [destruct sup; [|discriminate]|].
    + inversion H; subst. tauto.
    + destruct (isType subscript s); [destruct sub; [|discriminate]|];
        inversion H; subst; tauto.
  - simpl in H.
    destruct (isType superscript s).
    + destruct sup.
      * inversion H; subst. tauto.
      * match type of H with
        | bind ?m _ = _ => destruct m as [[arg s1]| |] eqn:E
        end; cbn [bind] in H; try discriminate.
        apply parseScriptArg_sound in E.
        apply (IH (Some arg) sub _ _ _ _ E Hsub H).
    + destruct (isType subscript s).
      * destruct sub.
        -- inversion H; subst. tauto.
        -- match type of H with
           | bind ?m _ = _ => destruct m as [[arg s1]| |] eqn:E
           end; cbn [bind] in H; try discriminate.
           apply parseScriptArg_sound in E.
           apply (IH sup (Some arg) _ _ _ _ Hsup E H).
      * inversion H; subst. tauto.
Qed.

Lemma parseScript_sound base s :
  properRows base = true ->
  sound (parseScript parseRow parseCommand base s).
Proof.
  unfold sound, parseScript. intros Hb n s' H.
  destruct (scriptLoop parseRow parseCommand 3 None None (skipWhitespace s))
    as [[[sup sub] s1]| |] eqn:E; cbn [bind] in H; try discriminate.
  apply scriptLoop_sound in E; try reflexivity. destruct E as [Hsup Hsub].
  destruct sup, sub; inversion H; subst; simpl in *;
    rewrite ?Hb, ?Hsup, ?Hsub; reflexivity.
Qed.

Lemma parseDelimitedGroup_sound s :
  sound (parseDelimitedGroup parseRow parseCommand s).
Proof.
  unfold sound, parseDelimitedGroup. intros n s' H.
  repeat step; use_hyps;
    (eapply parseScript_sound; [|eassumption]); assumption.
Qed.

Lemma parseFraction_sound s :
  sound (parseFraction parseRow parseCommand s).
Proof.
  unfold sound, parseFraction. intros n s' H.
  repeat match goal with
         | H : bind (parseGroup _ _) _ = Ok _ |- _ =>
             let E := fresh "E" in
             destruct (parseGroup parseRow _) as [[? ?]| |] eqn:E in H;
             cbn [bind] in H; try discriminate H;
             apply parseGroup_sound in E
         end.
  eapply parseScript_sound; [|eassumption].
  simpl. rewrite E, E0. reflexivity.
Qed.

Lemma parseSqrt_sound s : sound (parseSqrt parseRow parseCommand s).
Proof.
  unfold sound, parseSqrt. intros n s' H.
  destruct (isType openBracket (skipWhitespace s)).
  - repeat match goal with
           | H : bind (parseGroup _ _) _ = Ok _ |- _ =>
               let E := fresh "G" in
               destruct (parseGroup parseRow _) as [[? ?]| |] eqn:E in H;
               cbn [bind] in H; try discriminate H;
               apply parseGroup_sound in E
           | _ => step
           end.
    use_hyps. eapply parseScript_sound; [|eassumption].
    simpl. rewrite G. assumption.
  - cbn [bind] in H.
    destruct (parseGroup parseRow _) as [[? ?]| |] eqn:G in H;
      cbn [bind] in H; try discriminate H.
    apply parseGroup_sound in G.
    eapply parseScript_sound; [|eassumption].
    simpl. rewrite G. reflexivity.
Qed.

Lemma parseLargeOperator_sound name s :
  sound (parseLargeOperator parseRow parseCommand name s).
Proof.
  unfold sound, parseLargeOperator. intros n s' H.
  repeat match goal with
         | H : context [bind (parseScriptArg _ _ ?x) _] |- _ =>
             let E := fresh "A" in
             destruct (parseScriptArg parseRow parseCommand x)
               as [[? ?]| |] eqn:E in H;
             cbn [bind] in H; try discriminate H;
             apply parseScriptArg_sound in E
         | H : context [if ?b then _ else _] |- _ =>
             destruct b; cbn [bind] in H
         | H : Ok _ = Ok _ |- _ => inversion H; subst; clear H
         end;
    simpl; rewrite ?A, ?A0, ?A1; reflexivity.
Qed.

Lemma parseLeftRight_sound s :
  sound (parseLeftRight parseRow parseCommand s).
Proof.
  unfold sound, parseLeftRight. intros n s' H.
  destruct (parseDelimiter s) as [[o s1]| |]; cbn [bind] in H;
    try discriminate.
  destruct (parseRow ["\right"] s1) as [[content s2]| |] eqn:E;
    cbn [bind] in H; try discriminate.
  destruct (expectValue Tokens.command "\right" s2) as [[t s3]| |];
    cbn [bind] in H; try discriminate.
  destruct (parseDelimiter s3) as [[c s4]| |]; cbn [bind] in H;
    try discriminate.
  use_hyps. eapply parseScript_sound; [|eassumption]. assumption.
Qed.

Lemma parseEnvironment_sound s : sound (parseEnvironment parseMatrix s).
Proof.
  unfold sound, parseEnvironment. intros n s' H.
  repeat step; use_hyps; assumption.
Qed.

Lemma parseText_sound s : sound (parseText s).
Proof.
  unfold sound, parseText. intros n s' H. repeat step. reflexivity.
Qed.

Lemma parseCommandBody_sound s :
  sound (parseCommandBody parseRow parseCommand parseMatrix s).
Proof.
  unfold sound, parseCommandBody, parseFunction. intros n s' H.
  destruct (next s) as [token s1].
  destruct (SPACE_COMMANDS (value token));
    [inversion H; subst; reflexivity|].
  repeat match goal with
         | H : (if ?b then _ else _) = Ok _ |- _ => destruct b
         end;
    try (inversion H; subst; reflexivity);
    try (eapply parseScript_sound; [|eassumption]; reflexivity).
  - eapply parseLargeOperator_sound, H.
  - eapply parseFraction_sound, H.
  - eapply parseSqrt_sound, H.
  - eapply parseText_sound, H.
  - eapply parseLeftRight_sound, H.
  - eapply parseEnvironment_sound, H.
Qed.

Lemma parseAtom_sound s atom s' :
  parseAtom parseRow parseCommand s = Ok (atom, s') ->
  optProper atom = true.
Proof.
  unfold parseAtom, parseNumber, parseSymbol, parseOperator.
  intros H.
  destruct (type (peek (skipWhitespace s)));
    try (inversion H; subst; reflexivity);
    match type of H with
    | bind ?m _ = _ => destruct m as [[n s1]| |] eqn:E
    end; cbn [bind] in H; try discriminate; inversion H; subst; simpl.
  all: unfold next in E; cbn beta iota in E.
  all: first [ eapply Hcmd, E
             | eapply parseGroup_sound, E
             | eapply parseDelimitedGroup_sound, E
             | inversion E; subst; reflexivity
             | eapply parseScript_sound; [|exact E]; reflexivity ].
Qed.

Lemma parseMatrixEnd_sound style colSpec rows currentRow s :
  forallb (forallb properRows) rows = true ->
  forallb properRows currentRow = true ->
  sound (parseMatrixEnd parseRow parseCommand style colSpec rows currentRow s).
Proof.
  unfold sound, parseMatrixEnd. intros Hrows Hcur n s' H.
  assert (Hall : forallb (forallb properRows)
                   match currentRow with
                   | [] => rows
                   | _ => rows ++ [currentRow]
                   end = true).
  { destruct currentRow; [exact Hrows|].
    rewrite forallb_app, Hrows. cbn [forallb andb] in *.
    rewrite andb_true_r. exact Hcur. }
  repeat match goal with
         | H : bind ?m _ = Ok _ |- _ =>
             destruct m as [[? ?]| |]; cbn [bind] in H;
             [|discriminate H|discriminate H]
         | H : (let (_, _) := ?p in _) = Ok _ |- _ => destruct p
         | H : (if ?b then _ else _) = Ok _ |- _ =>
             destruct b; [discriminate H|]
         end.
  eapply parseScript_sound; [|eassumption].
  apply matrix_proper. exact Hall.
Qed.

End Productions.

(** [parseRow] as the productions see it at one level of fuel. *)
Definition rowOf (fuel : nat) (stops : list string) (s : TokenStream)
  : PResult MathNode :=
  '(cs, s) <- parseRowLoop fuel stops [] s ;; Ok (simplifyRow cs, s).

Lemma pushed_proper children (atom : option MathNode) :
  forallb properRows children = true ->
  optProper atom = true ->
  forallb properRows
          (match atom with Some a => children ++ [a] | None => children end)
  = true.
Proof.
  intros Hc Ha. destruct atom as [a|]; [|exact Hc].
  rewrite forallb_app, Hc. simpl in *. rewrite Ha. reflexivity.
Qed.

Lemma loops_sound fuel :
  (forall stops children s cs s',
      forallb properRows children = true ->
      parseRowLoop fuel stops children s = Ok (cs, s') ->
      forallb properRows cs = true) /\
  (forall s, sound (Parser.parseCommand fuel s)) /\
  (forall rows cur s rows' cur' s',
      forallb (forallb properRows) rows = true ->
      forallb properRows cur = true ->
      parseMatrixLoop fuel rows cur s = Ok ((rows', cur'), s') ->
      forallb (forallb properRows) rows' = true /\
      forallb properRows cur' = true) /\
  (forall style s, sound (Parser.parseMatrix fuel style s)).
Proof.
  induction fuel as [|fuel (IHrow & IHcmd & IHloop & IHmat)].
  - repeat split; unfold sound; intros; discriminate.
  - assert (Hrow : forall stops s, sound (rowOf fuel stops s)).
    { intros stops s n s' H. unfold rowOf in H.
      destruct (parseRowLoop fuel stops [] s) as [[cs s1]| |] eqn:E;
        cbn [bind] in H; try discriminate.
      inversion H; subst. apply simplifyRow_proper.
      eapply IHrow; [|exact E]. reflexivity. }
    split; [|split; [|split]].
    + intros stops children s cs s' Hch H. cbn [parseRowLoop] in H.
      destruct (isEof s); [inversion H; subst; exact Hch|].
      destruct (stopsAt stops (peek (skipWhitespace s)));
        [inversion H; subst; exact Hch|].
      match type of H with
      | bind ?m _ = _ => destruct m as [[atom s1]| |] eqn:E
      end; cbn [bind] in H; try discriminate.
      apply (parseAtom_sound (rowOf fuel) (Parser.parseCommand fuel)
                             Hrow IHcmd) in E.
      eapply IHrow; [|exact H]. apply pushed_proper; assumption.
    + intros s. cbn [Parser.parseCommand].
      apply (parseCommandBody_sound (rowOf fuel) (Parser.parseCommand fuel)
                                    (Parser.parseMatrix fuel) Hrow IHcmd IHmat).
    + intros rows cur s rows' cur' s' Hrows Hcur H.
      cbn [parseMatrixLoop] in H.
      destruct (isEof s); [inversion H; subst; tauto|].
      destruct (isValue Tokens.command "\end" (skipWhitespace s));
        [inversion H; subst; tauto|].
      destruct (isType newline (skipWhitespace s)).
      { eapply IHloop; [| |exact H]; [|reflexivity].
        rewrite forallb_app, Hrows. simpl. rewrite Hcur. reflexivity. }
      destruct (isType ampersand (skipWhitespace s)).
      { eapply IHloop; [| |exact H]; assumption. }
      match type of H with
      | bind ?m _ = _ => destruct m as [[cs s1]| |] eqn:E
      end; cbn [bind] in H; try discriminate.
      eapply IHloop; [| |exact H]; [assumption|].
      rewrite forallb_app, Hcur. simpl. rewrite andb_true_r.
      apply simplifyRow_proper. eapply IHrow; [|exact E]. reflexivity.
    + intros style s n s' H. cbn [Parser.parseMatrix] in H.
      destruct (parseColSpec style s) as [[colSpec s1]| |];
        cbn [bind] in H; try discriminate.
      destruct (parseMatrixLoop fuel [] [] s1) as [[[rows cur] s2]| |] eqn:E;
        cbn [bind] in H; try discriminate.
      apply IHloop in E; try reflexivity. destruct E as [Hrows Hcur].
      eapply (parseMatrixEnd_sound (rowOf fuel) (Parser.parseCommand fuel)
                                   Hrow IHcmd); eassumption.
Qed.

Lemma parse_proper fuel tokens n :
  parse fuel tokens = Ok n -> properRows n = true.
Proof.
  unfold parse, Parser.parseRow. intros H.
  destruct (parseRowLoop fuel [] [] tokens) as [[cs s]| |] eqn:E;
    cbn [bind] in H; try discriminate.
  destruct (negb (isEof s)); [discriminate|]. inversion H; subst.
  apply simplifyRow_proper.
  eapply (proj1 (loops_sound fuel)); [|exact E]. reflexivity.
Qed.

Lemma optProper_nonEmpty (o : option MathNode) :
  OptP (fun x => properRows x = true -> rowsNonEmpty x = true) o ->
  optProper o = true ->
  match o with Some x => rowsNonEmpty x | None => true end = true.
Proof. destruct o; simpl; auto. Qed.

Lemma properRows_nonEmpty n : properRows n = true -> rowsNonEmpty n = true.
Proof.
  induction n using MathNode_ind'; simpl; try (intros; reflexivity);
    intros E;
    repeat match goal with
           | H : _ && _ = true |- _ => apply andb_prop in H; destruct H
           end.
  - apply andb_true_intro. split.
    + destruct cs; [discriminate|reflexivity].
    + apply forallb_forall. intros x Hx.
      apply (proj1 (Forall_forall _ _) H x Hx).
      match goal with
      | H : forallb _ _ = true |- _ =>
          exact (proj1 (forallb_forall _ _) H x Hx)
      end.
  - rewrite IHn1, IHn2; auto.
  - rewrite IHn1, IHn2; auto.
  - rewrite IHn1, IHn2; auto.
  - rewrite IHn1, IHn2, IHn3; auto.
  - rewrite IHn by auto. simpl. apply (optProper_nonEmpty i H). assumption.
  - auto.
  - apply andb_true_intro.
    split; [apply (optProper_nonEmpty arg H); assumption|].
    destruct lim as [[lo up]|]; [|reflexivity].
    destruct H0 as [Hlo Hup]. simpl in *.
    match goal with
    | H : _ && _ = true |- _ => apply andb_prop in H; destruct H
    end.
    apply andb_true_intro.
    split; [apply (optProper_nonEmpty lo Hlo)
           | apply (optProper_nonEmpty up Hup)]; assumption.
  - apply forallb_forall. intros r Hr.
    apply forallb_forall. intros x Hx.
    apply (proj1 (Forall_forall _ _)
                 (proj1 (Forall_forall _ _) H r Hr) x Hx).
    exact (proj1 (forallb_forall _ _)
                 (proj1 (forallb_forall _ _) E r Hr) x Hx).
Qed.

Lemma normalizeForEditor_normalized ast :
  rowsNonEmpty ast = true -> normalized (normalizeForEditor ast) = true.
Proof.
  intros E.
  pose proof (normalizeStructureSlots_slots ast) as Hs.
  pose proof (normalizeStructureSlots_rows ast E) as Hr.
  unfold normalizeForEditor, normalized.
  destruct (normalizeStructureSlots ast)
    as [v|v|v|v|s| |[|c cs]|a b|a b|a b|a b d|a ix|o cl a s|nm arg lim|rows st cs'];
    simpl in *; rewrite ?Hs, ?Hr; reflexivity.
Qed.

(** X18.  A tree the parser returns has no row with fewer than two
    children, whatever the tokens: [parseRow] wraps in a row only two
    children or more.  So it has no empty row, and the editor state
    [createStateFromAST] makes of it is normalized, with a valid
    cursor. *)
Theorem parse_rows_have_two_children fuel tokens ast :
  parse fuel tokens = Ok ast ->
  properRows ast = true /\
  rowsNonEmpty ast = true /\
  normalized (root (createStateFromAST ast)) = true /\
  isValidCursor (root (createStateFromAST ast))
                (focus (selection (createStateFromAST ast))) = true.
Proof.
  intros H. apply parse_proper in H.
  pose proof (properRows_nonEmpty ast H) as Hne.
  split; [exact H|]. split; [exact Hne|].
  split; [apply normalizeForEditor_normalized, Hne|].
  unfold createStateFromAST, isValidCursor. simpl.
  destruct (normalizeForEditor_row ast) as (c & cs & ->). reflexivity.
Qed.

Lemma parse_rows_have_two_children_witness :
  let tokens := match tokenize "\frac{a+b}{2}" with
                | Some t => t
                | None => []
                end in
  let ast := FractionNode
               (RowNode [SymbolNode "a"; OperatorNode "+"; SymbolNode "b"])
               (NumberNode "2") in
  parse (fuelFor tokens) tokens = Ok ast /\
  properRows ast = true /\
  root (createStateFromAST ast)
  = RowNode [FractionNode
               (RowNode [SymbolNode "a"; OperatorNode "+"; SymbolNode "b"])
               (RowNode [NumberNode "2"])] /\
  normalized (root (createStateFromAST ast)) = true.
Proof.
  intros tokens ast.
  destruct (parse_rows_have_two_children (fuelFor tokens) tokens ast eq_refl)
    as (H1 & _ & H3 & _).
  split; [reflexivity|]. split; [exact H1|]. split; [reflexivity|exact H3].
Defined.

End ParserRows.

(* ================================================================== *)
(** ** Typing and deleting ([insert.ts] with [delete.ts]) *)
(* ================================================================== *)

Module InsertProps.
Import Ast Cursor Selection Model Paths Outcome Outcome.Notations Navigate.
Import DeleteProps.

Lemma setAt_setAt {A} (i : nat) (a b : A) l :
  Js.setAt i b (Js.setAt i a l) = Js.setAt i b l.
Proof.
  revert i; induction l as [|h t IH]; intros [|i]; simpl; auto.
  rewrite IH. reflexivity.
Qed.

Lemma setAt_same {A} (i : nat) (c : A) l :
  nth_error l i = Some c -> Js.setAt i c l = l.
Proof.
  revert i; induction l as [|h t IH]; intros [|i]; simpl; auto.
  - intros H; inversion H; reflexivity.
  - intros H. rewrite (IH i H). reflexivity.
Qed.

(** On a parent other than a matrix or a function, the [replaceChild]
    of [insert.ts] and that of [delete.ts] are the same. *)
Lemma replaceChild_agree parent i c :
  rebuildable parent = true ->
  Insert.replaceChild parent i c = Delete.replaceChild parent i c.
Proof. destruct parent; simpl; try discriminate; reflexivity. Qed.

Lemma replaceChild_rebuildable parent i c :
  rebuildable (Delete.replaceChild parent i c) = rebuildable parent.
Proof.
  destruct parent; simpl; try reflexivity;
    repeat match goal with
           | |- context [if ?b then _ else _] => destruct b
           end; reflexivity.
Qed.

Lemma replaceChild_twice parent i a b :
  rebuildable parent = true ->
  i < length (getChildNodes parent) ->
  Delete.replaceChild (Delete.replaceChild parent i a) i b
  = Delete.replaceChild parent i b.
Proof.
  destruct parent
    as [v|v|v|v|s| |cs|x y|x y|x y|x y z|x ix|o cl x s|nm arg lim|rows st cl];
    simpl; intros Hr Hi; try lia; try discriminate; try reflexivity.
  - unfold node.row. rewrite setAt_setAt. reflexivity.
  - destruct i as [|[|i]]; simpl in *; try lia; reflexivity.
  - destruct i as [|[|i]]; simpl in *; try lia; reflexivity.
  - destruct i as [|[|i]]; simpl in *; try lia; reflexivity.
  - destruct i as [|[|[|i]]]; simpl in *; try lia; reflexivity.
  - destruct ix as [w|]; destruct i as [|[|i]]; simpl in *; try lia; reflexivity.
Qed.

Lemma replaceChild_same parent i c :
  rebuildable parent = true ->
  nth_error (getChildNodes parent) i = Some c ->
  Delete.replaceChild parent i c = parent.
Proof.
  destruct parent
    as [v|v|v|v|s| |cs|x y|x y|x y|x y z|x ix|o cl x s|nm arg lim|rows st cl];
    simpl; intros Hr Hi; try discriminate; try reflexivity.
  - unfold node.row. rewrite (setAt_same _ _ _ Hi). reflexivity.
  - destruct i as [|[|i]]; simpl in *; inversion Hi; try reflexivity.
    destruct i; discriminate.
  - destruct i as [|[|i]]; simpl in *; inversion Hi; try reflexivity.
    destruct i; discriminate.
  - destruct i as [|[|i]]; simpl in *; inversion Hi; try reflexivity.
    destruct i; discriminate.
  - destruct i as [|[|[|i]]]; simpl in *; inversion Hi; try reflexivity.
    destruct i; discriminate.
  - destruct ix as [w|]; destruct i as [|[|i]]; simpl in *; inversion Hi;
      try reflexivity; destruct i; discriminate.
  - destruct i as [|i]; simpl in *; inversion Hi; try reflexivity.
    destruct i; discriminate.
Qed.

Lemma rebuilds_snoc p : forall root i,
  rebuilds root (p ++ [i]) = true ->
  rebuilds root p = true /\
  exists parent, getNodeAtPath root p = Some parent /\
                 rebuildable parent = true /\
                 i < length (getChildNodes parent).
Proof.
  induction p as [|j p IH]; intros root i; simpl.
  - intros H. apply andb_prop in H. destruct H as [Hr Hc].
    split; [reflexivity|]. exists root. repeat split; auto.
    apply nth_error_Some. destruct (nth_error (getChildNodes root) i);
      congruence.
  - intros H. apply andb_prop in H. destruct H as [Hr Hc].
    destruct (nth_error (getChildNodes root) j) as [c|]; [|discriminate].
    destruct (IH c i Hc) as (Hp & parent & Hn & Hrb & Hi).
    rewrite Hr, Hp. split; [reflexivity|]. eauto.
Qed.

(** Along a path through rebuildable parents the two
    [replaceNodeAtPath] agree. *)
Lemma replaceNodeAtPath_agree p : forall root newNode,
  rebuilds root p = true ->
  Insert.replaceNodeAtPath root p newNode
  = Delete.replaceNodeAtPath root p newNode.
Proof.
  induction p as [|i p IH] using rev_ind; intros root newNode H.
  - reflexivity.
  - unfold Insert.replaceNodeAtPath, Delete.replaceNodeAtPath.
    rewrite !replaceNodeAtPath_snoc.
    apply rebuilds_snoc in H. destruct H as (Hp & parent & Hn & Hrb & Hi).
    rewrite Hn. rewrite (replaceChild_agree parent i newNode Hrb).
    apply IH. exact Hp.
Qed.

Lemma updateAt_twice p : forall root a b,
  rebuilds root p = true ->
  updateAt (updateAt root p a) p b = updateAt root p b.
Proof.
  induction p as [|i p IH]; intros root a b; simpl; [reflexivity|].
  intros H. apply andb_prop in H. destruct H as [Hr Hc].
  destruct (nth_error (getChildNodes root) i) as [c|] eqn:E; [|discriminate].
  assert (Hi : i < length (getChildNodes root))
    by (apply nth_error_Some; congruence).
  rewrite replaceChild_children by assumption.
  rewrite Js.setAt_nth by assumption.
  rewrite (IH c a b Hc). apply replaceChild_twice; assumption.
Qed.

Lemma updateAt_same p : forall root n,
  rebuilds root p = true ->
  getNodeAtPath root p = Some n ->
  updateAt root p n = root.
Proof.
  induction p as [|i p IH]; intros root n; simpl.
  - intros _ H; inversion H; reflexivity.
  - intros H. apply andb_prop in H. destruct H as [Hr Hc].
    destruct (nth_error (getChildNodes root) i) as [c|] eqn:E; [|discriminate].
    intros Hn. rewrite (IH c n Hc Hn).
    apply replaceChild_same; assumption.
Qed.

(** The nodes [insertCharacter], [insertGreek] and [insertOperator]
    insert. *)
Definition isLeaf (n : MathNode) : bool :=
  match n with
  | NumberNode _ | SymbolNode _ | OperatorNode _ => true
  | _ => false
  end.

Lemma classify_leaf ch : isLeaf (Insert.classify ch) = true.
Proof.
  unfold Insert.classify. destruct ch as [|c [|d r]]; try reflexivity.
  repeat match goal with
         | |- context [if ?b then _ else _] => destruct b
         end; reflexivity.
Qed.

Lemma splice_cut {A} off (v : A) l :
  off <= length l ->
  nth_error (Js.spliceIn off v l) off = Some v /\
  Js.slice 0 off (Js.spliceIn off v l)
  ++ Js.sliceFrom (off + 1) (Js.spliceIn off v l) = l.
Proof.
  intros H. unfold Js.spliceIn, Js.slice, Js.sliceFrom.
  assert (L : length (firstn off l) = off) by (apply firstn_length_le; exact H).
  split.
  - rewrite nth_error_app2 by lia. rewrite L, Nat.sub_diag. reflexivity.
  - simpl. rewrite Nat.sub_0_r.
    rewrite firstn_app, L, Nat.sub_diag, firstn_O, app_nil_r.
    rewrite firstn_firstn, Nat.min_id.
    rewrite skipn_app, L.
    replace (off + 1 - off) with 1 by lia.
    rewrite (skipn_all2 (firstn off l)) by lia. simpl.
    apply firstn_skipn.
Qed.

Lemma typed_then_deleted state newNode p off children :
  selection state = collapsedSelection (cursor p off) ->
  getNodeAtPath (root state) p = Some (RowNode children) ->
  rebuilds (root state) p = true ->
  off <= length children ->
  children <> [] ->
  isLeaf newNode = true ->
  exists st1 st2,
    Insert.insertWith newNode state = Ok (Some st1) /\
    Delete.deleteBackward st1 = Ok (Some st2) /\
    root st2 = root state /\
    (children <> [PlaceholderNode] -> st2 = state).
Proof.
  intros Hsel Hrow Hreb Hoff Hne Hleaf.
  destruct state as [rt sel]. simpl in *. subst sel.
  set (children' := match children with
                    | [PlaceholderNode] => [newNode]
                    | _ => Js.spliceIn off newNode children
                    end).
  set (off' := match children with
               | [PlaceholderNode] => 1
               | _ => off + 1
               end).
  assert (Hins : Insert.insertNodeAtPosition rt (cursor p off) newNode
                 = Some (updateAt rt p (RowNode children'), cursor p off')).
  { unfold Insert.insertNodeAtPosition. simpl. rewrite Hrow.
    rewrite (replaceNodeAtPath_agree p rt _ Hreb).
    rewrite (replaceNodeAtPath_agree p rt _ Hreb).
    rewrite !(replaceNodeAtPath_updateAt p rt _ _ Hrow).
    subst children' off'.
    destruct children as [|[] [|]]; reflexivity. }
  assert (Hcut : nth_error children' (off' - 1) = Some newNode /\
                 Delete.orPlaceholder
                   (Js.slice 0 (off' - 1) children'
                    ++ Js.sliceFrom (off' - 1 + 1) children') = children /\
                 (off' =? 0) = false /\
                 (children <> [PlaceholderNode] -> off' - 1 = off)).
  { assert (Hgen : nth_error (Js.spliceIn off newNode children) (off + 1 - 1)
                   = Some newNode /\
                   Delete.orPlaceholder
                     (Js.slice 0 (off + 1 - 1) (Js.spliceIn off newNode children)
                      ++ Js.sliceFrom (off + 1 - 1 + 1)
                           (Js.spliceIn off newNode children)) = children /\
                   (off + 1 =? 0) = false /\
                   (children <> [PlaceholderNode] -> off + 1 - 1 = off)).
    { replace (off + 1 - 1) with off by lia.
      destruct (splice_cut off newNode children Hoff) as [H1 H2].
      rewrite H2. repeat split; auto.
      - destruct children; [contradiction|reflexivity].
      - apply Nat.eqb_neq. lia. }
    subst children' off'.
    destruct children as [|[] [|]]; try exact Hgen.
    repeat split; auto. intros H; contradiction. }
  destruct Hcut as (Hnth & Hrest & Hz & Hback).
  assert (Hget : getNodeAtPath (updateAt rt p (RowNode children')) p
                 = Some (RowNode children'))
    by (apply updateAt_get; exact Hreb).
  assert (Hstruct : Delete.isStructuredNode newNode = false)
    by (destruct newNode; try discriminate; reflexivity).
  eexists. eexists. split.
  { unfold Insert.insertWith, Insert.deleteSelectionContent. simpl.
    rewrite isCollapsed_collapsed. simpl. rewrite Hins. reflexivity. }
  assert (Hdel : Delete.deleteAtPosition (updateAt rt p (RowNode children'))
                   (cursor p off') Delete.backward
                 = Ok (Some (rt, cursor p (off' - 1)))).
  { unfold Delete.deleteAtPosition. cbn [path offset]. rewrite Hget, Hz, Hnth, Hstruct.
    unfold Delete.removeChild, node.row. rewrite Hrest.
    rewrite (replaceNodeAtPath_updateAt p _ _ _ Hget).
    rewrite (updateAt_twice p rt _ _ Hreb).
    rewrite (updateAt_same p rt _ Hreb Hrow).
    rewrite Nat.max_0_l. reflexivity. }
  split.
  { unfold Delete.deleteBackward, updateState. cbn [root selection].
    rewrite isCollapsed_collapsed. cbn [negb].
    unfold collapsedSelection at 1. cbn [focus].
    rewrite Hdel. cbn [bind]. reflexivity. }
  split; [reflexivity|].
  intros H. unfold updateState. rewrite (Hback H). reflexivity.
Qed.

(** X19.  Typing and then pressing backspace restores the document.
    With a collapsed cursor in a non-empty row reached through parents
    other than a matrix or a function, [insertCharacter], [insertGreek]
    and [insertOperator] followed by [deleteBackward] give back the
    tree; and the cursor too, unless the row was a lone placeholder,
    where the cursor ends at offset 0. *)
Theorem typing_then_backspace state p off children cmd :
  selection state = collapsedSelection (cursor p off) ->
  getNodeAtPath (root state) p = Some (RowNode children) ->
  rebuilds (root state) p = true ->
  off <= length children ->
  children <> [] ->
  (exists ch, cmd = Insert.insertCharacter ch) \/
  (exists name, cmd = Insert.insertGreek name) \/
  (exists op, cmd = Insert.insertOperator op) ->
  exists st1 st2,
    cmd state = Ok (Some st1) /\
    Delete.deleteBackward st1 = Ok (Some st2) /\
    root st2 = root state /\
    (children <> [PlaceholderNode] -> st2 = state).
Proof.
  intros Hsel Hrow Hreb Hoff Hne [[ch ->]|[[name ->]|[op ->]]].
  - apply (typed_then_deleted state _ p off children); auto.
    apply classify_leaf.
  - apply (typed_then_deleted state _ p off children); auto.
  - apply (typed_then_deleted state _ p off children); auto.
Qed.

Lemma typing_then_backspace_witness :
  let tree := RowNode [SymbolNode "x";
                       FractionNode (RowNode [NumberNode "1"; NumberNode "2"])
                                    (RowNode [PlaceholderNode])] in
  let state := {| root := tree;
                  selection := collapsedSelection (cursor [1; 0] 1) |} in
  Insert.insertCharacter "+" state
  = Ok (Some {| root := RowNode
                          [SymbolNode "x";
                           FractionNode
                             (RowNode [NumberNode "1"; OperatorNode "+";
                                       NumberNode "2"])
                             (RowNode [PlaceholderNode])];
                selection := collapsedSelection (cursor [1; 0] 2) |}) /\
  exists st1 st2,
    Insert.insertCharacter "+" state = Ok (Some st1) /\
    Delete.deleteBackward st1 = Ok (Some st2) /\
    root st2 = tree /\
    (([NumberNode "1"; NumberNode "2"] : list MathNode) <> [PlaceholderNode]
     -> st2 = state).
Proof.
  intros tree state. split; [reflexivity|].
  apply (typing_then_backspace state [1; 0] 1
           [NumberNode "1"; NumberNode "2"] (Insert.insertCharacter "+"));
    try reflexivity.
  - simpl. lia.
  - discriminate.
  - left. exists "+". reflexivity.
Defined.

End InsertProps.

(* ================================================================== *)
(** ** Deleting below a matrix or a function ([delete.ts]) *)
(* ================================================================== *)

Module DeleteEdges.
Import Ast Cursor Selection Model Paths Outcome Outcome.Notations Navigate.
Import Delete DeleteProps InsertProps.

(** [replaceChild] of [delete.ts] returns a matrix or a function as it
    is. *)
Lemma replaceChild_blocked parent i c :
  rebuildable parent = false -> replaceChild parent i c = parent.
Proof. destruct parent; simpl; try discriminate; reflexivity. Qed.

Lemma updateAt_blocked p : forall root n x,
  getNodeAtPath root p = Some x ->
  rebuilds root p = false ->
  updateAt root p n = root.
Proof.
  induction p as [|i p IH]; intros root n x; simpl; [discriminate|].
  destruct (nth_error (getChildNodes root) i) as [c|] eqn:E; [|discriminate].
  intros Hx Hr. destruct (rebuildable root) eqn:Hroot; simpl in Hr.
  - rewrite (IH c n x Hx Hr). apply replaceChild_same; assumption.
  - apply replaceChild_blocked. exact Hroot.
Qed.

Lemma replaceNodeAtPath_blocked root p n x :
  getNodeAtPath root p = Some x ->
  rebuilds root p = false ->
  replaceNodeAtPath root p n = root.
Proof.
  intros Hx Hr. rewrite (replaceNodeAtPath_updateAt p root n x Hx).
  apply (updateAt_blocked p root n x Hx Hr).
Qed.

(** X20.  Below a matrix or a function nothing is deleted.  When an
    ancestor of the cursor's row is a matrix or a function node,
    [deleteBackward] on a plain child moves the cursor back over it and
    leaves the tree as it is, and [deleteForward] returns the state
    unchanged: [replaceChild] of [delete.ts] has no case for these two
    kinds, so the rebuilt row never reaches the root. *)
Theorem delete_below_matrix_keeps_tree state p off children target :
  selection state = collapsedSelection (cursor p off) ->
  getNodeAtPath (root state) p = Some (RowNode children) ->
  rebuilds (root state) p = false ->
  isStructuredNode target = false ->
  (0 < off -> nth_error children (off - 1) = Some target ->
   deleteBackward state
   = Ok (Some {| root := root state;
                 selection := collapsedSelection (cursor p (off - 1)) |})) /\
  (nth_error children off = Some target ->
   deleteForward state = Ok (Some state)).
Proof.
  intros Hsel Hrow Hreb Hleaf.
  destruct state as [rt sel]. simpl in *. subst sel.
  split.
  - intros Hoff Hnth.
    unfold deleteBackward. cbn [root selection].
    rewrite isCollapsed_collapsed. cbn [negb].
    unfold collapsedSelection at 1. cbn [focus].
    unfold deleteAtPosition. cbn [path offset]. rewrite Hrow.
    replace (off =? 0) with false by (symmetry; apply Nat.eqb_neq; lia).
    rewrite Hnth, Hleaf. unfold removeChild.
    rewrite (replaceNodeAtPath_blocked rt p _ _ Hrow Hreb).
    rewrite Nat.max_0_l. reflexivity.
  - intros Hnth.
    unfold deleteForward. cbn [root selection].
    rewrite isCollapsed_collapsed. cbn [negb].
    unfold collapsedSelection at 1. cbn [focus].
    unfold deleteAtPosition. cbn [path offset]. rewrite Hrow.
    assert (Hlt : off < length children)
      by (apply nth_error_Some; congruence).
    replace (length children <=? off) with false
      by (symmetry; apply Nat.leb_gt; exact Hlt).
    rewrite Hnth, Hleaf. unfold removeChild.
    rewrite (replaceNodeAtPath_blocked rt p _ _ Hrow Hreb).
    reflexivity.
Qed.

Lemma delete_below_matrix_keeps_tree_witness :
  let tree := RowNode [MatrixNode [[RowNode [SymbolNode "a"; SymbolNode "b"]]]
                                  "pmatrix" None] in
  let state := {| root := tree;
                  selection := collapsedSelection (cursor [0; 0] 1) |} in
  rebuilds tree [0; 0] = false /\
  deleteBackward state
  = Ok (Some {| root := tree;
                selection := collapsedSelection (cursor [0; 0] 0) |}) /\
  deleteForward state = Ok (Some state).
Proof.
  intros tree state. split; [reflexivity|].
  destruct (delete_below_matrix_keeps_tree
              state [0; 0] 1 [SymbolNode "a"; SymbolNode "b"] (SymbolNode "a")
              eq_refl eq_refl eq_refl eq_refl) as [Hb _].
  destruct (delete_below_matrix_keeps_tree
              state [0; 0] 1 [SymbolNode "a"; SymbolNode "b"] (SymbolNode "b")
              eq_refl eq_refl eq_refl eq_refl) as [_ Hf].
  split.
  - apply Hb; [lia|reflexivity].
  - apply Hf. reflexivity.
Defined.

End DeleteEdges.

(* ================================================================== *)
(** ** Selections under edits ([selection.ts], [insert.ts], [delete.ts]) *)
(* ================================================================== *)

Module SelectionEdits.
Import Ast Cursor Selection Model Paths Outcome Outcome.Notations Navigate.
Import CursorOrder.

(** [extractSelectedNodes] of [selection.ts]. *)
Definition extractSelectedNodes (root : MathNode) (sel : Selection)
  : option MathNode :=
  if isCollapsed sel then None
  else
    let comparison := compareCursors (anchor sel) (focus sel) in
    let (start, end_) :=
      if (comparison <=? 0)%Z then (anchor sel, focus sel)
      else (focus sel, anchor sel) in
    if samePath (path start) (path end_) then
      match getNodeAtPath root (path start) with
      | Some (RowNode children) =>
          match Js.slice (offset start) (offset end_) children with
          | [] => None
          | selectedChildren => Some (node.row selectedChildren)
          end
      | _ => None
      end
    else
      let commonPath := findCommonAncestorPath (path start) (path end_) in
      match getNodeAtPath root commonPath with
      | None => None
      | Some (RowNode children) =>
          let startIdx :=
            if length commonPath <? length (path start)
            then nth (length commonPath) (path start) 0
            else offset start in
          let endIdx :=
            if length commonPath <? length (path end_)
            then nth (length commonPath) (path end_) 0 + 1
            else offset end_ in
          match Js.slice startIdx endIdx children with
          | [] => None
          | selectedChildren => Some (node.row selectedChildren)
          end
      | Some commonAncestor => Some commonAncestor
      end.



Lemma samePath_true a : forall b, samePath a b = true -> a = b.
Proof.
  unfold samePath.
  induction a as [|x a IH]; intros [|y b]; simpl; intros H;
    try discriminate; try reflexivity.
  apply andb_prop in H. destruct H as [Hl H].
  apply andb_prop in H. destruct H as [Hxy H].
  apply Nat.eqb_eq in Hxy. subst y. f_equal. apply IH.
  rewrite Hl, H. reflexivity.
Qed.

Lemma samePath_refl a : samePath a a = true.
Proof.
  unfold samePath. rewrite Nat.eqb_refl. simpl.
  induction a as [|x a IH]; simpl; [reflexivity|].
  rewrite Nat.eqb_refl. exact IH.
Qed.




(** In a selection that is not collapsed the start is strictly before
    the end, and they are the pair [extractSelectedNodes] works with. *)
Lemma open_selection sel :
  isCollapsed sel = false ->
  (compareCursors (getStart sel) (getEnd sel) < 0)%Z /\
  (if (compareCursors (anchor sel) (focus sel) <=? 0)%Z
   then (anchor sel, focus sel) else (focus sel, anchor sel))
  = (getStart sel, getEnd sel).
Proof.
  unfold isCollapsed, cursorsEqual, getStart, getEnd. intros H.
  apply Z.eqb_neq in H.
  destruct (compare_anchor_focus_cases sel) as [[H1 H2]|[[E [H1 H2]]|[H1 H2]]];
    try contradiction; rewrite H1; simpl; rewrite ?H1, ?H2; split;
    try reflexivity; lia.
Qed.






Lemma reversed_ends sel :
  getStart (reversed sel) = getStart sel /\
  getEnd (reversed sel) = getEnd sel /\
  isCollapsed (reversed sel) = isCollapsed sel.
Proof.
  unfold getStart, getEnd, isCollapsed, cursorsEqual, reversed. simpl.
  destruct (compare_anchor_focus_cases sel) as [[H1 H2]|[[E [H1 H2]]|[H1 H2]]];
    rewrite H1, H2; simpl; rewrite ?E; repeat split; reflexivity.
Qed.

Lemma collapsed_reversed sel : isCollapsed sel = true -> reversed sel = sel.
Proof.
  unfold isCollapsed, cursorsEqual. intros H. apply Z.eqb_eq in H.
  destruct (compare_anchor_focus_cases sel) as [[H1 H2]|[[E [H1 H2]]|[H1 H2]]];
    try congruence.
  destruct sel as [a f]. unfold reversed. simpl in *. subst. reflexivity.
Qed.

(** X22.  The direction of a selection makes no difference to an edit:
    with anchor and focus exchanged, [deleteSelection], [deleteBackward],
    [deleteForward], [insertCharacter], [insertGreek], [insertOperator],
    [moveLeft] and [moveRight] without extension, and
    [extractSelectedNodes] return the same. *)
Theorem edits_ignore_direction state :
  let flipped := updateSelection state (reversed (selection state)) in
  Delete.deleteSelection flipped = Delete.deleteSelection state /\
  Delete.deleteBackward flipped = Delete.deleteBackward state /\
  Delete.deleteForward flipped = Delete.deleteForward state /\
  (forall ch, Insert.insertCharacter ch flipped
              = Insert.insertCharacter ch state) /\
  (forall name, Insert.insertGreek name flipped
                = Insert.insertGreek name state) /\
  (forall op, Insert.insertOperator op flipped
              = Insert.insertOperator op state) /\
  moveLeft false flipped = moveLeft false state /\
  moveRight false flipped = moveRight false state /\
  extractSelectedNodes (root state) (reversed (selection state))
  = extractSelectedNodes (root state) (selection state).
Proof.
  intros flipped. destruct state as [rt sel]. subst flipped.
  unfold updateSelection. cbn [root selection].
  destruct (isCollapsed sel) eqn:Hc.
  - rewrite (collapsed_reversed sel Hc). repeat split; reflexivity.
  - destruct (reversed_ends sel) as (Hs & He & Hcr). rewrite Hc in Hcr.
    assert (Hdel : Delete.deleteSelection {| root := rt; selection := reversed sel |}
                   = Delete.deleteSelection {| root := rt; selection := sel |}).
    { unfold Delete.deleteSelection, Delete.deleteRange. cbn [root selection].
      rewrite Hcr, Hc, Hs, He. reflexivity. }
    assert (Hins : forall n,
               Insert.insertWith n {| root := rt; selection := reversed sel |}
               = Insert.insertWith n {| root := rt; selection := sel |}).
    { intros n. unfold Insert.insertWith, Insert.deleteSelectionContent.
      cbn [root selection]. rewrite Hcr, Hc, Hs, He. reflexivity. }
    split; [exact Hdel|].
    split; [unfold Delete.deleteBackward; cbn [root selection];
            rewrite Hcr, Hc; exact Hdel|].
    split; [unfold Delete.deleteForward; cbn [root selection];
            rewrite Hcr, Hc; exact Hdel|].
    split; [intros ch; apply Hins|].
    split; [intros name; apply Hins|].
    split; [intros op; apply Hins|].
    split; [unfold moveLeft, updateSelection; cbn [root selection];
            rewrite Hcr, Hc, Hs; reflexivity|].
    split; [unfold moveRight, updateSelection; cbn [root selection];
            rewrite Hcr, Hc, He; reflexivity|].
    unfold extractSelectedNodes. rewrite Hcr, Hc.
    rewrite (proj2 (open_selection sel Hc)).
    pose proof (proj2 (open_selection (reversed sel) Hcr)) as Hp.
    rewrite Hs, He in Hp. unfold reversed in Hp. cbn [anchor focus] in Hp.
    unfold reversed. cbn [anchor focus]. rewrite Hp. reflexivity.
Qed.

End SelectionEdits.

(* ================================================================== *)
(** ** Moving the cursor ([src/core/commands/navigate.ts]) *)
(* ================================================================== *)

Module NavigateProps.
Import Ast Cursor Selection Model Outcome Outcome.Notations.
Import Focusable FocusableProps Navigate CursorValidity.

Lemma findFirstFocusable_valid root p n :
  isRow root = true ->
  getNodeAtPath root p = Some n ->
  exists c, findFirstFocusable root p = Ok c /\ isValidCursor root c = true.
Proof.
  intros Hroot Hn. apply (findFirstFocusableIn_valid root Hroot _ p n Hn).
  apply depth_at_path in Hn. unfold searchFuel. lia.
Qed.

Lemma findLastFocusable_valid root p n :
  isRow root = true ->
  getNodeAtPath root p = Some n ->
  exists c, findLastFocusable root p = Ok c /\ isValidCursor root c = true.
Proof.
  intros Hroot Hn. apply (findLastFocusableIn_valid root Hroot _ p n Hn).
  apply depth_at_path in Hn. unfold searchFuel. lia.
Qed.

(** A step that returns a valid cursor. *)
Definition steps (root : MathNode) (r : outcome (option CursorPosition)) : Prop :=
  exists c, r = Ok (Some c) /\ isValidCursor root c = true.

Lemma steps_bind root (m : outcome CursorPosition) :
  (exists c, m = Ok c /\ isValidCursor root c = true) ->
  steps root (c <- m ;; Ok (Some c)).
Proof. intros (c & -> & H). exists c. split; [reflexivity|exact H]. Qed.

Lemma nth_child_path root p parent i :
  getNodeAtPath root p = Some parent ->
  i < length (getChildNodes parent) ->
  exists c, getNodeAtPath root (p ++ [i]) = Some c.
Proof.
  intros Hp Hi. destruct (nth_error (getChildNodes parent) i) as [c|] eqn:E.
  - exists c. apply (getNodeAtPath_child root p i parent c Hp E).
  - apply nth_error_None in E. lia.
Qed.

Lemma exitNodeLeftUp_steps root : isRow root = true ->
  forall rpath n,
    rpath <> [] ->
    getNodeAtPath root (rev rpath) = Some n ->
    steps root (exitNodeLeftUp root rpath).
Proof.
  intros Hroot. induction rpath as [|i rparent IH]; intros n Hne Hn;
    [contradiction|].
  simpl in Hn. apply getNodeAtPath_snoc in Hn.
  destruct Hn as (parent & Hp & Hi). cbn [exitNodeLeftUp]. rewrite Hp.
  assert (Hlt : i < length (getChildNodes parent))
    by (apply nth_error_Some; congruence).
  assert (Hup : isRow parent = false -> steps root (exitNodeLeftUp root rparent)).
  { intros Hnr. apply (IH parent); [|exact Hp].
    intros ->. simpl in Hp. inversion Hp; subst. congruence. }
  destruct parent
    as [v|v|v|v|s| |cs|a b|a b|a b|a b d|a ix|o cl a s|nm arg lim|rows st cl];
    try (apply Hup; reflexivity).
  - exists (cursor (rev rparent) i). split; [reflexivity|].
    unfold isValidCursor. simpl. rewrite Hp. apply Nat.leb_le. simpl in Hlt. lia.
  - destruct (Nat.ltb_spec 0 i); [|apply Hup; reflexivity].
    apply steps_bind.
    destruct (nth_child_path root (rev rparent) _ (i - 1) Hp) as (c & Hc);
      [lia|].
    apply (findLastFocusable_valid root _ c Hroot Hc).
Qed.

(** On the way up from [path], every matrix has at least as many cells
    as [exitNodeRight] counts ([rows.length * rows[0].length]). *)
Fixpoint gridsOn (root : MathNode) (path : list nat) : bool :=
  match path with
  | [] => true
  | i :: rest =>
      match root with
      | MatrixNode rows _ _ =>
          length rows * matrixCols rows <=? length (concat rows)
      | _ => true
      end
      && match nth_error (getChildNodes root) i with
         | Some child => gridsOn child rest
         | None => true
         end
  end.

Lemma gridsOn_snoc p : forall root i parent,
  gridsOn root (p ++ [i]) = true ->
  getNodeAtPath root p = Some parent ->
  gridsOn root p = true /\
  match parent with
  | MatrixNode rows _ _ => length rows * matrixCols rows <= length (concat rows)
  | _ => True
  end.
Proof.
  induction p as [|j p IH]; intros root i parent; simpl.
  - intros H Hp. inversion Hp; subst. split; [reflexivity|].
    apply andb_prop in H. destruct H as [H _].
    destruct parent; try exact I. apply Nat.leb_le. exact H.
  - intros H Hp. apply andb_prop in H. destruct H as [Hm H].
    destruct (nth_error (getChildNodes root) j) as [c|]; [|discriminate].
    destruct (IH c i parent H Hp) as [H1 H2]. rewrite Hm, H1. auto.
Qed.

Lemma exitNodeRightUp_steps root : isRow root = true ->
  forall rpath n,
    rpath <> [] ->
    getNodeAtPath root (rev rpath) = Some n ->
    gridsOn root (rev rpath) = true ->
    steps root (exitNodeRightUp root rpath).
Proof.
  intros Hroot. induction rpath as [|i rparent IH]; intros n Hne Hn Hg;
    [contradiction|].
  simpl in Hn, Hg. apply getNodeAtPath_snoc in Hn.
  destruct Hn as (parent & Hp & Hi). cbn [exitNodeRightUp]. rewrite Hp.
  destruct (gridsOn_snoc _ _ _ _ Hg Hp) as [Hg' Hm].
  assert (Hlt : i < length (getChildNodes parent))
    by (apply nth_error_Some; congruence).
  assert (Hup : isRow parent = false -> steps root (exitNodeRightUp root rparent)).
  { intros Hnr. apply (IH parent); [|exact Hp|exact Hg'].
    intros ->. simpl in Hp. inversion Hp; subst. congruence. }
  destruct parent
    as [v|v|v|v|s| |cs|a b|a b|a b|a b d|a ix|o cl a s|nm arg lim|rows st cl];
    try (apply Hup; reflexivity).
  - exists (cursor (rev rparent) (i + 1)). split; [reflexivity|].
    unfold isValidCursor. simpl. rewrite Hp. apply Nat.leb_le. simpl in Hlt. lia.
  - destruct (Nat.ltb_spec (i + 1) (length rows * matrixCols rows));
      [|apply Hup; reflexivity].
    apply steps_bind.
    destruct (nth_child_path root (rev rparent) _ (i + 1) Hp) as (c & Hc);
      [simpl; lia|].
    apply (findFirstFocusable_valid root _ c Hroot Hc).
Qed.

Lemma valid_cursor_row root pos :
  isValidCursor root pos = true ->
  exists children, getNodeAtPath root (path pos) = Some (RowNode children) /\
                   offset pos <= length children.
Proof.
  unfold isValidCursor.
  destruct (getNodeAtPath root (path pos)) as [[]|]; try discriminate.
  intros H. apply andb_prop in H. destruct H as [_ H]. apply Nat.leb_le in H.
  eauto.
Qed.

Lemma moveCursorLeft_steps root pos :
  isRow root = true ->
  isValidCursor root pos = true ->
  (pos = cursor [] 0 /\ moveCursorLeft root pos = Ok None) \/
  (pos <> cursor [] 0 /\ steps root (moveCursorLeft root pos)).
Proof.
  intros Hroot Hv. destruct (valid_cursor_row root pos Hv) as (children & Hn & Ho).
  destruct pos as [p o]. cbn [path offset] in *.
  unfold moveCursorLeft. cbn [path offset]. rewrite Hn.
  destruct (Nat.ltb_spec 0 o) as [Hpos|Hz].
  - right. split; [intros E; inversion E; lia|].
    assert (Hplain : steps root (Ok (Some (cursor p (o - 1))))).
    { eexists. split; [reflexivity|]. unfold isValidCursor. cbn [path offset].
      rewrite Hn. apply Nat.leb_le. lia. }
    destruct (nth_error children (o - 1)) as [prev|] eqn:E; [|exact Hplain].
    destruct (isStructure prev && hasDescendantRow prev); [|exact Hplain].
    apply steps_bind.
    apply (findLastFocusable_valid root _ prev Hroot).
    apply (getNodeAtPath_child root p (o - 1) _ prev Hn E).
  - assert (o = 0) by lia. subst o.
    destruct p as [|i p'] eqn:Ep.
    + left. split; reflexivity.
    + right. split; [discriminate|].
      unfold exitNodeLeft.
      apply (exitNodeLeftUp_steps root Hroot (rev (i :: p')) (RowNode children)).
      * intros E. apply (f_equal (@rev nat)) in E.
        rewrite rev_involutive in E. discriminate.
      * rewrite rev_involutive. exact Hn.
Qed.

Lemma moveCursorRight_steps root pos rootChildren :
  root = RowNode rootChildren ->
  isValidCursor root pos = true ->
  gridsOn root (path pos) = true ->
  (pos = cursor [] (length rootChildren) /\ moveCursorRight root pos = Ok None) \/
  (pos <> cursor [] (length rootChildren) /\ steps root (moveCursorRight root pos)).
Proof.
  intros Hrc Hv Hg.
  assert (Hroot : isRow root = true) by (subst root; reflexivity).
  destruct (valid_cursor_row root pos Hv) as (children & Hn & Ho).
  destruct pos as [p o]. cbn [path offset] in *.
  unfold moveCursorRight. cbn [path offset]. rewrite Hn.
  destruct (Nat.ltb_spec o (length children)) as [Hlt|Hge].
  - right. split.
    { intros E. inversion E; subst. simpl in Hn. inversion Hn; subst. lia. }
    assert (Hplain : steps root (Ok (Some (cursor p (o + 1))))).
    { eexists. split; [reflexivity|]. unfold isValidCursor. cbn [path offset].
      rewrite Hn. apply Nat.leb_le. lia. }
    destruct (nth_error children o) as [nxt|] eqn:E; [|exact Hplain].
    destruct (isStructure nxt && hasDescendantRow nxt); [|exact Hplain].
    apply steps_bind.
    apply (findFirstFocusable_valid root _ nxt Hroot).
    apply (getNodeAtPath_child root p o _ nxt Hn E).
  - assert (o = length children) by lia. subst o.
    destruct p as [|i p'] eqn:Ep.
    + left. subst root. simpl in Hn. inversion Hn; subst. split; reflexivity.
    + right. split; [discriminate|].
      unfold exitNodeRight.
      apply (exitNodeRightUp_steps root Hroot (rev (i :: p')) (RowNode children)).
      * intros E. apply (f_equal (@rev nat)) in E.
        rewrite rev_involutive in E. discriminate.
      * rewrite rev_involutive. exact Hn.
      * rewrite rev_involutive. exact Hg.
Qed.

(** X23.  In a tree whose root is a row, [moveLeft] from a valid cursor
    (collapsed, or extending) returns [null] exactly at the start of the
    document, offset 0 of the root row; everywhere else it returns a
    state with the same tree and a valid cursor, collapsed unless
    extending, where the anchor stays. *)
Theorem moveLeft_keeps_cursor_valid state extend :
  isRow (root state) = true ->
  isValidCursor (root state) (focus (selection state)) = true ->
  isCollapsed (selection state) || extend = true ->
  (focus (selection state) = cursor [] 0 /\ moveLeft extend state = Ok None) \/
  (focus (selection state) <> cursor [] 0 /\
   exists state',
     moveLeft extend state = Ok (Some state') /\
     root state' = root state /\
     anchor (selection state')
     = (if extend then anchor (selection state)
        else focus (selection state')) /\
     isValidCursor (root state') (focus (selection state')) = true).
Proof.
  intros Hroot Hv Hmode. unfold moveLeft.
  replace (negb (isCollapsed (selection state)) && negb extend) with false
    by (destruct (isCollapsed (selection state)), extend; simpl in *;
        congruence).
  destruct (moveCursorLeft_steps (root state) _ Hroot Hv)
    as [[Hs H]|[Hs (c & H & Hc)]]; rewrite H; cbn [bind].
  - left. split; [exact Hs|reflexivity].
  - right. split; [exact Hs|]. eexists. split; [reflexivity|].
    destruct extend; simpl; auto.
Qed.

(** X24.  [moveRight] from a valid cursor returns [null] exactly at the
    end of the document, after the last child of the root row; and
    everywhere else a state with the same tree and a valid cursor,
    provided every matrix above the cursor has at least the
    [rows.length * rows[0].length] cells the exit counts. *)
Theorem moveRight_keeps_cursor_valid state extend rootChildren :
  root state = RowNode rootChildren ->
  isValidCursor (root state) (focus (selection state)) = true ->
  gridsOn (root state) (path (focus (selection state))) = true ->
  isCollapsed (selection state) || extend = true ->
  (focus (selection state) = cursor [] (length rootChildren) /\
   moveRight extend state = Ok None) \/
  (focus (selection state) <> cursor [] (length rootChildren) /\
   exists state',
     moveRight extend state = Ok (Some state') /\
     root state' = root state /\
     anchor (selection state')
     = (if extend then anchor (selection state)
        else focus (selection state')) /\
     isValidCursor (root state') (focus (selection state')) = true).
Proof.
  intros Hroot Hv Hg Hmode. unfold moveRight.
  replace (negb (isCollapsed (selection state)) && negb extend) with false
    by (destruct (isCollapsed (selection state)), extend; simpl in *;
        congruence).
  destruct (moveCursorRight_steps (root state) _ rootChildren Hroot Hv Hg)
    as [[Hs H]|[Hs (c & H & Hc)]]; rewrite H; cbn [bind].
  - left. split; [exact Hs|reflexivity].
  - right. split; [exact Hs|]. eexists. split; [reflexivity|].
    destruct extend; simpl; auto.
Qed.

(** X25.  At the end of the last cell of a matrix with fewer cells than
    [rows.length * rows[0].length] (a later row shorter than the first),
    [moveRight] does not leave the matrix: it puts the cursor on the
    cell after the last, a path that addresses nothing, so the cursor
    it returns is not valid. *)
Theorem moveRight_past_ragged_matrix state rootChildren mp i rows st cs cell :
  root state = RowNode rootChildren ->
  selection state = collapsedSelection (cursor (mp ++ [i]) (length cell)) ->
  getNodeAtPath (root state) mp = Some (MatrixNode rows st cs) ->
  getNodeAtPath (root state) (mp ++ [i]) = Some (RowNode cell) ->
  length (concat rows) <= i + 1 ->
  i + 1 < length rows * matrixCols rows ->
  moveRight false state
  = Ok (Some {| root := root state;
                selection := collapsedSelection (cursor (mp ++ [i + 1]) 0) |})
  /\ isValidCursor (root state) (cursor (mp ++ [i + 1]) 0) = false.
Proof.
  intros Hroot Hsel Hm Hcell Hshort Htotal.
  destruct state as [rt sel]. cbn [root selection] in *. subst sel.
  assert (Hnone : getNodeAtPath rt (mp ++ [i + 1]) = None).
  { rewrite Paths.getNodeAtPath_app, Hm. simpl.
    replace (nth_error (concat rows) (i + 1)) with (@None MathNode);
      [reflexivity|].
    symmetry. apply nth_error_None. exact Hshort. }
  split.
  - unfold moveRight. cbn [root selection].
    rewrite isCollapsed_collapsed. cbn [negb andb].
    unfold collapsedSelection at 1. cbn [focus].
    unfold moveCursorRight. cbn [path offset]. rewrite Hcell.
    rewrite Nat.ltb_irrefl. rewrite exitNodeRight_snoc, Hm.
    replace (i + 1 <? length rows * matrixCols rows) with true
      by (symmetry; apply Nat.ltb_lt; exact Htotal).
    unfold findFirstFocusable, searchFuel.
    replace (2 * depth rt + 4) with (S (2 * depth rt + 3)) by lia.
    cbn [findFirstFocusableIn]. rewrite Hnone. cbn [orRoot].
    rewrite Hroot. reflexivity.
  - unfold isValidCursor. cbn [path]. rewrite Hnone. reflexivity.
Qed.

Lemma moveRight_past_ragged_matrix_witness :
  let tree := RowNode [MatrixNode [[RowNode [SymbolNode "a"];
                                    RowNode [SymbolNode "b"]];
                                   [RowNode [SymbolNode "c"]]]
                                  "matrix" None] in
  let state := {| root := tree;
                  selection := collapsedSelection (cursor [0; 2] 1) |} in
  isValidCursor tree (cursor [0; 2] 1) = true /\
  moveRight false state
  = Ok (Some {| root := tree;
                selection := collapsedSelection (cursor [0; 3] 0) |}) /\
  isValidCursor tree (cursor [0; 3] 0) = false.
Proof.
  intros tree state. split; [reflexivity|].
  apply (moveRight_past_ragged_matrix
           state
           [MatrixNode [[RowNode [SymbolNode "a"]; RowNode [SymbolNode "b"]];
                        [RowNode [SymbolNode "c"]]] "matrix" None]
           [0] 2
           [[RowNode [SymbolNode "a"]; RowNode [SymbolNode "b"]];
            [RowNode [SymbolNode "c"]]] "matrix" None [SymbolNode "c"]);
    try reflexivity; simpl; lia.
Defined.

Lemma moveLeft_keeps_cursor_valid_witness :
  let tree := RowNode [SymbolNode "x";
                       FractionNode (RowNode [NumberNode "1"])
                                    (RowNode [NumberNode "2"])] in
  let state := {| root := tree;
                  selection := collapsedSelection (cursor [] 2) |} in
  moveLeft false state
  = Ok (Some {| root := tree;
                selection := collapsedSelection (cursor [1; 1] 1) |}) /\
  ((focus (selection state) = cursor [] 0 /\ moveLeft false state = Ok None) \/
   (focus (selection state) <> cursor [] 0 /\
    exists state',
      moveLeft false state = Ok (Some state') /\
      root state' = root state /\
      anchor (selection state') = focus (selection state') /\
      isValidCursor (root state') (focus (selection state')) = true)).
Proof.
  intros tree state. split; [reflexivity|].
  apply (moveLeft_keeps_cursor_valid state false); reflexivity.
Defined.

Lemma moveRight_keeps_cursor_valid_witness :
  let tree := RowNode [SymbolNode "x";
                       FractionNode (RowNode [NumberNode "1"])
                                    (RowNode [NumberNode "2"])] in
  let state := {| root := tree;
                  selection := collapsedSelection (cursor [1; 1] 1) |} in
  moveRight false state
  = Ok (Some {| root := tree;
                selection := collapsedSelection (cursor [] 2) |}) /\
  ((focus (selection state) = cursor [] 2 /\ moveRight false state = Ok None) \/
   (focus (selection state) <> cursor [] 2 /\
    exists state',
      moveRight false state = Ok (Some state') /\
      root state' = root state /\
      anchor (selection state') = focus (selection state') /\
      isValidCursor (root state') (focus (selection state')) = true)).
Proof.
  intros tree state. split; [reflexivity|].
  apply (moveRight_keeps_cursor_valid
           state false
           [SymbolNode "x";
            FractionNode (RowNode [NumberNode "1"])
                         (RowNode [NumberNode "2"])]); reflexivity.
Defined.

End NavigateProps.

(* ================================================================== *)
(** ** Well-formed states under edits ([delete.ts], [insert.ts],
       [navigate.ts], [model.ts]) *)
(* ================================================================== *)

Module EditingProps.
Import Ast Cursor Selection Model Paths Outcome Outcome.Notations.
Import Focusable Navigate Delete DeleteProps DeleteEdges.
Import CursorValidity NavigateProps InsertProps.

(** A state a command may leave: the root a row, the selection
    collapsed, the cursor valid. *)
Definition wellFormed (state : EditorState) : Prop :=
  isRow (root state) = true /\
  isCollapsed (selection state) = true /\
  isValidCursor (root state) (focus (selection state)) = true.

Lemma replaced_row_valid rt p children newChildren k st :
  isRow rt = true ->
  getNodeAtPath rt p = Some (RowNode children) ->
  k <= length newChildren ->
  k <= length children ->
  wellFormed (updateState st
                (replaceNodeAtPath rt p (RowNode newChildren))
                (collapsedSelection (cursor p k))).
Proof.
  intros Hroot Hn Hk Hk'. unfold wellFormed, updateState. cbn [root selection].
  rewrite isCollapsed_collapsed. unfold collapsedSelection. cbn [focus].
  destruct (rebuilds rt p) eqn:Hr.
  - split; [|split; [reflexivity|]].
    + rewrite (replaceNodeAtPath_updateAt p rt _ _ Hn).
      destruct p as [|i rest]; [reflexivity|]. simpl.
      destruct (nth_error (getChildNodes rt) i); [|exact Hroot].
      destruct rt; try discriminate. reflexivity.
    + unfold isValidCursor. cbn [path offset].
      rewrite (replaceNodeAtPath_get rt p _ Hr). apply Nat.leb_le. exact Hk.
  - rewrite (replaceNodeAtPath_blocked rt p _ _ Hn Hr).
    split; [exact Hroot|]. split; [reflexivity|].
    unfold isValidCursor. cbn [path offset]. rewrite Hn.
    apply Nat.leb_le. exact Hk'.
Qed.

(** What a command may return from a well-formed state: [null], or a
    well-formed state. *)
Definition keeps (r : outcome (option EditorState)) : Prop :=
  exists o, r = Ok o /\
            match o with
            | Some state' => wellFormed state'
            | None => True
            end.

Lemma keeps_none : keeps (Ok None).
Proof. exists None. split; [reflexivity|exact I]. Qed.

Lemma keeps_some st : wellFormed st -> keeps (Ok (Some st)).
Proof. intros H. exists (Some st). split; [reflexivity|exact H]. Qed.

Lemma moveLeft_keeps state : wellFormed state -> keeps (moveLeft false state).
Proof.
  intros (Hroot & Hc & Hv). unfold moveLeft. rewrite Hc. cbn [negb andb].
  destruct (moveCursorLeft_steps (root state) _ Hroot Hv)
    as [[Hs H]|[Hs (c & H & Hcv)]]; rewrite H; cbn [bind].
  - apply keeps_none.
  - apply keeps_some. unfold wellFormed, updateSelection. cbn [root selection].
    rewrite isCollapsed_collapsed. auto.
Qed.

Lemma orPlaceholder_length l : length l <= length (orPlaceholder l).
Proof. destruct l; simpl; lia. Qed.

Lemma flatten_keeps state p children idx structure :
  isRow (root state) = true ->
  getNodeAtPath (root state) p = Some (RowNode children) ->
  idx <= length children ->
  match flattenStructureBackward (root state) p idx structure with
  | Some (newRoot, newPos) =>
      wellFormed (updateState state newRoot (collapsedSelection newPos))
  | None => True
  end.
Proof.
  intros Hroot Hn Hidx. unfold flattenStructureBackward. rewrite Hn.
  destruct (getMainContent structure) as [main|]; [|exact I].
  apply (replaced_row_valid (root state) p children);
    [exact Hroot | exact Hn | | exact Hidx].
  unfold Js.slice. rewrite length_app, length_firstn, length_skipn. simpl. lia.
Qed.

Lemma removed_keeps state p children idx k :
  isRow (root state) = true ->
  getNodeAtPath (root state) p = Some (RowNode children) ->
  idx < length children ->
  k <= idx ->
  wellFormed (updateState state (removeChild (root state) p children idx)
                          (collapsedSelection (cursor p k))).
Proof.
  intros Hroot Hn Hidx Hk. unfold removeChild.
  apply (replaced_row_valid (root state) p children);
    [exact Hroot | exact Hn | | lia].
  pose proof (orPlaceholder_length
                (Js.slice 0 idx children ++ Js.sliceFrom (idx + 1) children))
    as H.
  assert (L : idx <= length (Js.slice 0 idx children
                             ++ Js.sliceFrom (idx + 1) children)).
  { unfold Js.slice, Js.sliceFrom.
    rewrite length_app, length_firstn, !length_skipn. simpl. lia. }
  lia.
Qed.

Lemma rebuilt_row_valid rt p children newChildren k st :
  isRow rt = true ->
  getNodeAtPath rt p = Some (RowNode children) ->
  rebuilds rt p = true ->
  k <= length newChildren ->
  wellFormed (updateState st
                (replaceNodeAtPath rt p (RowNode newChildren))
                (collapsedSelection (cursor p k))).
Proof.
  intros Hroot Hn Hr Hk. unfold wellFormed, updateState. cbn [root selection].
  rewrite isCollapsed_collapsed. unfold collapsedSelection. cbn [focus].
  split; [|split; [reflexivity|]].
  - rewrite (replaceNodeAtPath_updateAt p rt _ _ Hn).
    destruct p as [|i rest]; [reflexivity|]. simpl.
    destruct (nth_error (getChildNodes rt) i); [|exact Hroot].
    destruct rt; try discriminate. reflexivity.
  - unfold isValidCursor. cbn [path offset].
    rewrite (replaceNodeAtPath_get rt p _ Hr). apply Nat.leb_le. exact Hk.
Qed.

Lemma typing_keeps state newNode :
  wellFormed state ->
  rebuilds (root state) (path (focus (selection state))) = true ->
  exists state', Insert.insertWith newNode state = Ok (Some state') /\
                 wellFormed state'.
Proof.
  intros (Hroot & Hc & Hv) Hr.
  destruct (valid_cursor_row _ _ Hv) as (children & Hn & Ho).
  unfold Insert.insertWith, Insert.deleteSelectionContent. rewrite Hc.
  unfold Insert.insertNodeAtPosition. rewrite Hn.
  rewrite !(replaceNodeAtPath_agree _ _ _ Hr).
  assert (Hgen : exists state',
    Ok (Some (updateState state
                (replaceNodeAtPath (root state)
                   (path (focus (selection state)))
                   (node.row (Js.spliceIn (offset (focus (selection state)))
                                          newNode children)))
                (collapsedSelection
                   (cursor (path (focus (selection state)))
                           (offset (focus (selection state)) + 1)))))
    = Ok (Some state') /\ wellFormed state').
  { eexists. split; [reflexivity|].
    apply (rebuilt_row_valid _ _ children); auto.
    unfold Js.spliceIn. rewrite length_app, length_firstn. simpl.
    rewrite length_skipn. lia. }
  destruct children as [|[] [|]]; try exact Hgen.
  eexists. split; [reflexivity|].
  apply (rebuilt_row_valid _ _ [PlaceholderNode]); auto.
Qed.

Lemma delete_keeps state :
  wellFormed state ->
  keeps (deleteBackward state) /\ keeps (deleteForward state).
Proof.
  intros Hwf. pose proof Hwf as (Hroot & Hc & Hv).
  destruct (valid_cursor_row _ _ Hv) as (children & Hn & Ho).
  split.
  - unfold deleteBackward. rewrite Hc. cbn [negb].
    unfold deleteAtPosition. rewrite Hn.
    destruct (Nat.eqb_spec (offset (focus (selection state))) 0) as [Hz|Hnz].
    + destruct (0 <? length (path (focus (selection state)))) eqn:Hp.
      * cbn [bind]. apply moveLeft_keeps, Hwf.
      * apply Nat.ltb_ge in Hp.
        destruct (path (focus (selection state))) as [|] eqn:Epath;
          [|simpl in Hp; lia].
        destruct children as [|target rest].
        { cbn [bind]. apply moveLeft_keeps, Hwf. }
        assert (Hgen :
          keeps (result <-
                   (if isStructuredNode target
                    then Ok (flattenStructureForward (root state) [] 0 target)
                    else Ok (Some (replaceNodeAtPath (root state) []
                                     (node.row (orPlaceholder
                                        (Js.sliceFrom 1 (target :: rest)))),
                                   cursor [] 0))) ;;
                 match result with
                 | None => moveLeft false state
                 | Some (newRoot, newPos) =>
                     Ok (Some (updateState state newRoot
                                 (collapsedSelection newPos)))
                 end)).
        { destruct (isStructuredNode target); cbn [bind].
          - pose proof (flatten_keeps state [] (target :: rest) 0 target
                          Hroot Hn (Nat.le_0_l _)) as Hf.
            unfold flattenStructureForward.
            destruct (flattenStructureBackward (root state) [] 0 target)
              as [[newRoot newPos]|].
            + apply keeps_some, Hf.
            + apply moveLeft_keeps, Hwf.
          - apply keeps_some.
            apply (replaced_row_valid (root state) [] (target :: rest));
              auto; lia. }
        destruct target; try exact Hgen.
        destruct rest; [|exact Hgen].
        cbn [bind]. apply moveLeft_keeps, Hwf.
    + destruct (nth_error children (offset (focus (selection state)) - 1))
        as [target|] eqn:E.
      * assert (Hidx : offset (focus (selection state)) - 1 < length children)
          by (apply nth_error_Some; congruence).
        destruct (isStructuredNode target); cbn [bind].
        -- pose proof (flatten_keeps state _ children
                         (offset (focus (selection state)) - 1) target
                         Hroot Hn (Nat.lt_le_incl _ _ Hidx)) as Hf.
           destruct (flattenStructureBackward (root state)
                       (path (focus (selection state)))
                       (offset (focus (selection state)) - 1) target)
             as [[newRoot newPos]|].
           ++ apply keeps_some, Hf.
           ++ apply moveLeft_keeps, Hwf.
        -- apply keeps_some. apply removed_keeps; auto; lia.
      * apply nth_error_None in E. lia.
  - unfold deleteForward. rewrite Hc. cbn [negb].
    unfold deleteAtPosition. rewrite Hn.
    destruct (Nat.leb_spec (length children) (offset (focus (selection state))))
      as [Hend|Hin].
    + cbn [bind]. apply keeps_none.
    + destruct (nth_error children (offset (focus (selection state))))
        as [target|] eqn:E.
      * destruct (isStructuredNode target); cbn [bind].
        -- pose proof (flatten_keeps state _ children
                         (offset (focus (selection state))) target
                         Hroot Hn Ho) as Hf.
           unfold flattenStructureForward.
           destruct (flattenStructureBackward (root state)
                       (path (focus (selection state)))
                       (offset (focus (selection state))) target)
             as [[newRoot newPos]|].
           ++ apply keeps_some, Hf.
           ++ apply keeps_none.
        -- apply keeps_some. apply removed_keeps; auto; lia.
      * apply nth_error_None in E. lia.
Qed.

(** X26.  Editing keeps the cursor valid.  From a state whose root is a
    row and whose selection is a collapsed, valid cursor,
    [deleteBackward] and [deleteForward] return, without raising, either
    [null] or a state of that kind again; and so do [insertCharacter],
    [insertGreek] and [insertOperator], which always return a state,
    when the row is reached through parents other than a matrix or a
    function. *)
Theorem edits_keep_cursor_valid state :
  wellFormed state ->
  keeps (deleteBackward state) /\
  keeps (deleteForward state) /\
  (rebuilds (root state) (path (focus (selection state))) = true ->
   forall cmd,
     (exists ch, cmd = Insert.insertCharacter ch) \/
     (exists name, cmd = Insert.insertGreek name) \/
     (exists op, cmd = Insert.insertOperator op) ->
     exists state', cmd state = Ok (Some state') /\ wellFormed state').
Proof.
  intros Hwf. destruct (delete_keeps state Hwf) as [Hb Hf].
  split; [exact Hb|]. split; [exact Hf|].
  intros Hr cmd [[ch ->]|[[name ->]|[op ->]]];
    apply typing_keeps; assumption.
Qed.

Lemma edits_keep_cursor_valid_witness :
  let tree := RowNode [SymbolNode "x";
                       FractionNode (RowNode [NumberNode "1"])
                                    (RowNode [NumberNode "2"])] in
  let state := {| root := tree;
                  selection := collapsedSelection (cursor [] 2) |} in
  wellFormed state /\
  deleteBackward state
  = Ok (Some {| root := RowNode [SymbolNode "x"; NumberNode "1"];
                selection := collapsedSelection (cursor [] 1) |}) /\
  keeps (deleteBackward state).
Proof.
  intros tree state.
  assert (Hwf : wellFormed state) by (repeat split).
  split; [exact Hwf|]. split; [reflexivity|].
  exact (proj1 (edits_keep_cursor_valid state Hwf)).
Defined.

(** [isEmpty] of [model.ts]. *)
Definition isEmpty (state : EditorState) : bool :=
  match root state with
  | PlaceholderNode => true
  | RowNode children =>
      (length children =? 0)
      || ((length children =? 1)
          && match children with
             | PlaceholderNode :: _ => true
             | _ => false
             end)
  | _ => false
  end.

Definition moveToDocumentStart (extend : bool) : Command := fun state =>
  newPos <- findFirstFocusable (root state) [] ;;
  let newSelection :=
    if extend then extendTo (selection state) newPos
    else collapsedSelection newPos in
  Ok (Some (updateSelection state newSelection)).

Definition moveToDocumentEnd (extend : bool) : Command := fun state =>
  newPos <- findLastFocusable (root state) [] ;;
  let newSelection :=
    if extend then extendTo (selection state) newPos
    else collapsedSelection newPos in
  Ok (Some (updateSelection state newSelection)).

Definition selectAll : Command := fun state =>
  start <- findFirstFocusable (root state) [] ;;
  end_ <- findLastFocusable (root state) [] ;;
  Ok (Some (updateSelection state {| anchor := start; focus := end_ |})).

Lemma row_bounds children :
  findFirstFocusable (RowNode children) [] = Ok (cursor [] 0) /\
  findLastFocusable (RowNode children) [] = Ok (cursor [] (length children)).
Proof.
  unfold findFirstFocusable, findLastFocusable, searchFuel.
  replace (2 * depth (RowNode children) + 4)
    with (S (2 * depth (RowNode children) + 3)) by lia.
  split; reflexivity.
Qed.

(** X27.  The bounds of a document whose root is a row:
    [moveToDocumentStart] puts the cursor at offset 0 of the root, where
    [moveLeft] returns [null]; [moveToDocumentEnd] puts it after the
    last child, where [moveRight] returns [null]; [selectAll] selects
    from the one to the other, and deleting that selection of a
    non-empty document, with [deleteSelection] or [deleteBackward],
    gives the empty state of [createEmptyState]. *)
Theorem document_bounds state children :
  root state = RowNode children ->
  (exists s0,
      moveToDocumentStart false state = Ok (Some s0) /\
      selection s0 = collapsedSelection (cursor [] 0) /\
      moveLeft false s0 = Ok None) /\
  (exists s1,
      moveToDocumentEnd false state = Ok (Some s1) /\
      selection s1 = collapsedSelection (cursor [] (length children)) /\
      moveRight false s1 = Ok None) /\
  (exists s2,
      selectAll state = Ok (Some s2) /\
      selection s2 = {| anchor := cursor [] 0;
                        focus := cursor [] (length children) |} /\
      (children <> [] ->
       Delete.deleteSelection s2 = Ok (Some createEmptyState) /\
       deleteBackward s2 = Ok (Some createEmptyState) /\
       isEmpty createEmptyState = true)).
Proof.
  intros Hroot. destruct state as [rt sel]. cbn [root] in Hroot. subst rt.
  destruct (row_bounds children) as [Hf Hl].
  unfold moveToDocumentStart, moveToDocumentEnd, selectAll.
  cbn [root selection]. rewrite Hf, Hl. cbn [bind].
  split; [|split].
  - eexists. split; [reflexivity|]. split; [reflexivity|].
    unfold moveLeft, updateSelection. cbn [root selection].
    rewrite isCollapsed_collapsed. reflexivity.
  - eexists. split; [reflexivity|]. split; [reflexivity|].
    unfold moveRight, updateSelection. cbn [root selection].
    rewrite isCollapsed_collapsed. cbn [negb andb]. 
    unfold collapsedSelection. cbn [focus].
    unfold moveCursorRight. cbn [path offset getNodeAtPath].
    rewrite Nat.ltb_irrefl. reflexivity.
  - eexists. split; [reflexivity|]. split; [reflexivity|].
    intros Hne.
    assert (Hopen : isCollapsed {| anchor := cursor [] 0;
                                   focus := cursor [] (length children) |}
                    = false).
    { unfold isCollapsed, cursorsEqual. cbn [anchor focus].
      rewrite compare_same_path.
      destruct children; [contradiction|]. reflexivity. }
    assert (Hdel : Delete.deleteSelection
                     (updateSelection {| root := RowNode children; selection := sel |}
                        {| anchor := cursor [] 0;
                           focus := cursor [] (length children) |})
                   = Ok (Some createEmptyState)).
    { unfold Delete.deleteSelection, updateSelection. cbn [root selection].
      rewrite Hopen. unfold Delete.deleteRange, getStart, getEnd.
      cbn [anchor focus]. rewrite compare_same_path.
      destruct children as [|c cs]; [contradiction|].
      cbn [length Nat.ltb Nat.leb Z.leb Z.geb Z.compare path offset].
      simpl. rewrite skipn_all. reflexivity. }
    split; [exact Hdel|]. split; [|reflexivity].
    unfold deleteBackward. unfold updateSelection at 1. cbn [selection].
    rewrite Hopen. exact Hdel.
Qed.

Lemma document_bounds_witness :
  let state := {| root := RowNode [SymbolNode "x"; SymbolNode "y"];
                  selection := collapsedSelection (cursor [] 1) |} in
  exists s2,
    selectAll state = Ok (Some s2) /\
    selection s2 = {| anchor := cursor [] 0; focus := cursor [] 2 |} /\
    Delete.deleteSelection s2 = Ok (Some createEmptyState).
Proof.
  intros state.
  destruct (document_bounds state [SymbolNode "x"; SymbolNode "y"] eq_refl)
    as (_ & _ & s2 & H1 & H2 & H3).
  exists s2. split; [exact H1|]. split; [exact H2|].
  apply H3. discriminate.
Defined.

End EditingProps.

(* ================================================================== *)
(** ** Named slots ([getSlots] and [getSlotName] of [cursor.ts]) *)
(* ================================================================== *)

Module Slots.
Import Ast Cursor.

Inductive SlotName :=
| numerator | denominator
| base | exponent | subscript | superscript
| radicand | index
| content
| argument | lower | upper
| cell.

Record SlotInfo :=
  { slotName : SlotName; slotPath : list nat; slotNode : MathNode }.

(** The inner and the outer loop of the matrix case of [getSlots];
    [offset] is the number of cells in the rows before. *)
Fixpoint rowSlots (basePath : list nat) (cells : list MathNode)
         (offset colIdx : nat) : list SlotInfo :=
  match cells with
  | [] => []
  | c :: rest =>
      {| slotName := cell; slotPath := basePath ++ [offset + colIdx];
         slotNode := c |}
      :: rowSlots basePath rest offset (S colIdx)
  end.

Fixpoint matrixSlots (basePath : list nat) (rows : list (list MathNode))
         (offset : nat) : list SlotInfo :=
  match rows with
  | [] => []
  | cells :: rest =>
      rowSlots basePath cells offset 0
      ++ matrixSlots basePath rest (offset + length cells)
  end.

Definition getSlots (n : MathNode) (basePath : list nat) : list SlotInfo :=
  let slot nm i x :=
    {| slotName := nm; slotPath := basePath ++ [i]; slotNode := x |} in
  match n with
  | FractionNode num den => [slot numerator 0 num; slot denominator 1 den]
  | PowerNode b e => [slot base 0 b; slot exponent 1 e]
  | SubscriptNode b s => [slot base 0 b; slot subscript 1 s]
  | SubSupNode b s p =>
      [slot base 0 b; slot subscript 1 s; slot superscript 2 p]
  | SqrtNode r ix =>
      slot radicand 0 r
      :: match ix with
         | Some i => [slot index 1 i]
         | None => []
         end
  | ParensNode _ _ c _ => [slot content 0 c]
  | MatrixNode rows _ _ => matrixSlots basePath rows 0
  | _ => []
  end.

Definition getSlotName (parent : MathNode) (childIndex : nat)
  : option SlotName :=
  match parent with
  | FractionNode _ _ =>
      Some (if childIndex =? 0 then numerator else denominator)
  | PowerNode _ _ => Some (if childIndex =? 0 then base else exponent)
  | SubscriptNode _ _ => Some (if childIndex =? 0 then base else subscript)
  | SubSupNode _ _ _ =>
      Some (if childIndex =? 0 then base
            else if childIndex =? 1 then subscript else superscript)
  | SqrtNode _ _ => Some (if childIndex =? 0 then radicand else index)
  | ParensNode _ _ _ _ => Some content
  | MatrixNode _ _ _ => Some cell
  | _ => None
  end.

(** The slots one expects of the children of [n]: the [i]-th child at
    path [basePath ++ [i]], under the name [getSlotName] gives it. *)
Definition childSlots (n : MathNode) (basePath : list nat)
  : list (option SlotName * list nat * MathNode) :=
  map (fun ic => (getSlotName n (fst ic), basePath ++ [fst ic], snd ic))
      (combine (seq 0 (length (getChildNodes n))) (getChildNodes n)).

Definition described (s : SlotInfo) : option SlotName * list nat * MathNode :=
  (Some (slotName s), slotPath s, slotNode s).

Lemma rowSlots_described basePath cells : forall offset colIdx,
  map described (rowSlots basePath cells offset colIdx)
  = map (fun ic => (Some cell, basePath ++ [fst ic], snd ic))
        (combine (seq (offset + colIdx) (length cells)) cells).
Proof.
  induction cells as [|c rest IH]; intros offset colIdx; simpl; [reflexivity|].
  rewrite IH. replace (offset + S colIdx) with (S (offset + colIdx)) by lia.
  reflexivity.
Qed.

Lemma combine_seq_app {A} (l1 l2 : list A) k :
  combine (seq k (length (l1 ++ l2))) (l1 ++ l2)
  = combine (seq k (length l1)) l1
    ++ combine (seq (k + length l1) (length l2)) l2.
Proof.
  revert k. induction l1 as [|x l1 IH]; intros k; simpl.
  - rewrite Nat.add_0_r. reflexivity.
  - rewrite IH. replace (S k + length l1) with (k + S (length l1)) by lia.
    reflexivity.
Qed.

Lemma matrixSlots_described basePath rows : forall offset,
  map described (matrixSlots basePath rows offset)
  = map (fun ic => (Some cell, basePath ++ [fst ic], snd ic))
        (combine (seq offset (length (concat rows))) (concat rows)).
Proof.
  induction rows as [|cells rest IH]; intros offset; simpl; [reflexivity|].
  rewrite map_app, rowSlots_described, IH, Nat.add_0_r.
  rewrite combine_seq_app, map_app. reflexivity.
Qed.

Lemma getSlots_described n basePath :
  getSlotName n 0 <> None ->
  map described (getSlots n basePath) = childSlots n basePath.
Proof.
  intros H. unfold childSlots.
  destruct n
    as [v|v|v|v|s| |cs|a b|a b|a b|a b d|a ix|o cl a s|nm arg lim|rows st cl];
    try (exfalso; apply H; reflexivity); try reflexivity.
  - destruct ix; reflexivity.
  - simpl. apply matrixSlots_described.
Qed.

Lemma combine_seq_nth {A} (l : list A) : forall k i c,
  In (i, c) (combine (seq k (length l)) l) ->
  k <= i /\ nth_error l (i - k) = Some c.
Proof.
  induction l as [|x l IH]; intros k i c H; simpl in H; [contradiction|].
  destruct H as [H|H].
  - inversion H; subst. rewrite Nat.sub_diag. split; [lia|reflexivity].
  - apply IH in H. destruct H as [Hle Hn]. split; [lia|].
    replace (i - k) with (S (i - S k)) by lia. exact Hn.
Qed.

(** X28.  [getSlots] lists the children.  For a fraction, a power, a
    subscript, a sub-superscript, a root, parentheses and a matrix, the
    slots are the children of [getChildNodes] in order, the [i]-th at
    path [basePath ++ [i]] and under the name [getSlotName] gives index
    [i], also in a matrix whose rows differ in length; for every other
    node, a function with its argument and limits included, there are
    no slots.  So each slot's path, from the node, leads to the slot's
    node. *)
Theorem getSlots_are_the_children n basePath :
  (getSlotName n 0 <> None ->
   map described (getSlots n basePath) = childSlots n basePath) /\
  (getSlotName n 0 = None -> getSlots n basePath = []) /\
  Forall (fun s => getNodeAtPath n (slotPath s) = Some (slotNode s))
         (getSlots n []).
Proof.
  split; [apply getSlots_described|]. split.
  - destruct n; simpl; try discriminate; reflexivity.
  - apply Forall_forall. intros s Hin.
    destruct (getSlotName n 0) eqn:E.
    + assert (Hm : In (described s) (childSlots n [])).
      { rewrite <- getSlots_described by congruence. apply in_map. exact Hin. }
      unfold childSlots in Hm. apply in_map_iff in Hm.
      destruct Hm as ([i c] & Heq & Hic). unfold described in Heq.
      simpl in Heq. injection Heq as Hname Hpath Hnode.
      apply combine_seq_nth in Hic. rewrite Nat.sub_0_r in Hic.
      rewrite <- Hpath. destruct Hic as [_ Hic].
      cbn [getNodeAtPath]. rewrite Hic, Hnode. reflexivity.
    + destruct n; simpl in *; try discriminate; contradiction.
Qed.

Lemma getSlots_are_the_children_witness :
  let m := MatrixNode [[SymbolNode "a"; SymbolNode "b"]; [SymbolNode "c"]]
                      "matrix" None in
  getSlotName m 0 <> None /\
  map described (getSlots m [4])
  = [(Some cell, [4; 0], SymbolNode "a");
     (Some cell, [4; 1], SymbolNode "b");
     (Some cell, [4; 2], SymbolNode "c")] /\
  map described (getSlots m [4]) = childSlots m [4].
Proof.
  intros m. split; [discriminate|]. split; [reflexivity|].
  apply (proj1 (getSlots_are_the_children m [4])). discriminate.
Defined.

End Slots.

(* ================================================================== *)
(** ** From placeholder to placeholder ([findNextPlaceholder] of
       [navigate.ts]) *)
(* ================================================================== *)

Module Placeholders.
Import Ast Cursor Selection Model Paths Outcome Navigate AstOps.

Inductive Direction := forward | backward.

(** The [for] loops of [collectPlaceholders]: [f] on each child with
    its index, from index [i] on; and the same over the cells of a
    matrix, whose children are its rows one after the other. *)
Section Indexed.
Variable f : MathNode -> nat -> list CursorPosition.

Fixpoint eachChild (i : nat) (children : list MathNode)
  : list CursorPosition :=
  match children with
  | [] => []
  | child :: rest => f child i ++ eachChild (S i) rest
  end.

Fixpoint eachCell (i : nat) (rows : list (list MathNode))
  : list CursorPosition :=
  match rows with
  | [] => []
  | cells :: rest => eachChild i cells ++ eachCell (i + length cells) rest
  end.

End Indexed.

Fixpoint collectPlaceholders (n : MathNode) (path : list nat) {struct n}
  : list CursorPosition :=
  let into (child : MathNode) (i : nat) : list CursorPosition :=
    collectPlaceholders child (path ++ [i]) in
  let opt (o : option MathNode) (i : nat) : list CursorPosition :=
    match o with
    | Some child => collectPlaceholders child (path ++ [i])
    | None => []
    end in
  let count (o : option MathNode) : nat :=
    match o with Some _ => 1 | None => 0 end in
  match n with
  | RowNode children =>
      eachChild (fun child i =>
                   match child with
                   | PlaceholderNode => [cursor path i]
                   | _ => collectPlaceholders child (path ++ [i])
                   end) 0 children
  | FractionNode a b => into a 0 ++ into b 1
  | PowerNode a b => into a 0 ++ into b 1
  | SubscriptNode a b => into a 0 ++ into b 1
  | SubSupNode a b c => into a 0 ++ into b 1 ++ into c 2
  | SqrtNode r ix => into r 0 ++ opt ix 1
  | ParensNode _ _ c _ => into c 0
  | FunctionNode _ arg lim =>
      opt arg 0
      ++ match lim with
         | Some (lo, up) =>
             opt lo (count arg) ++ opt up (count arg + count lo)
         | None => []
         end
  | MatrixNode rows _ _ =>
      eachCell (fun child i => collectPlaceholders child (path ++ [i])) 0 rows
  | _ => []
  end.

Lemma eachChild_app f l1 : forall i l2,
  eachChild f i (l1 ++ l2)
  = eachChild f i l1 ++ eachChild f (i + length l1) l2.
Proof.
  induction l1 as [|x l1 IH]; intros i l2; simpl.
  - rewrite Nat.add_0_r. reflexivity.
  - rewrite IH, <- app_assoc.
    replace (S i + length l1) with (i + S (length l1)) by lia. reflexivity.
Qed.

Lemma eachCell_concat f rows : forall i,
  eachCell f i rows = eachChild f i (concat rows).
Proof.
  induction rows as [|cells rest IH]; intros i; simpl; [reflexivity|].
  rewrite eachChild_app, IH. reflexivity.
Qed.

(** The equation of the source: a row looks at each child, every other
    node goes into each of its [getChildNodes]. *)
Lemma collectPlaceholders_eq n path :
  collectPlaceholders n path
  = match n with
    | RowNode children =>
        eachChild (fun child i =>
                     match child with
                     | PlaceholderNode => [cursor path i]
                     | _ => collectPlaceholders child (path ++ [i])
                     end) 0 children
    | _ =>
        eachChild (fun child i => collectPlaceholders child (path ++ [i]))
                  0 (getChildNodes n)
    end.
Proof.
  destruct n
    as [v|v|v|v|s| |cs|a b|a b|a b|a b d|a ix|o cl a s|nm arg lim|rows st cl];
    simpl; rewrite ?app_nil_r; try reflexivity.
  - destruct ix; simpl; rewrite ?app_nil_r; reflexivity.
  - destruct arg as [x|]; destruct lim as [[[lo|] [up|]]|]; simpl;
      rewrite ?app_nil_r; reflexivity.
  - apply eachCell_concat.
Qed.

Lemma eachChild_In f l : forall i c,
  In c (eachChild f i l) <->
  exists k x, nth_error l k = Some x /\ In c (f x (i + k)).
Proof.
  induction l as [|y l IH]; intros i c; simpl.
  - split; [contradiction|]. intros (k & x & H & _). destruct k; discriminate.
  - rewrite in_app_iff, IH. split.
    + intros [H|(k & x & Hk & H)].
      * exists 0, y. rewrite Nat.add_0_r. auto.
      * exists (S k), x. replace (i + S k) with (S i + k) by lia. auto.
    + intros ([|k] & x & Hk & H).
      * simpl in Hk. inversion Hk; subst. rewrite Nat.add_0_r in H. auto.
      * right. exists k, x. replace (S i + k) with (i + S k) by lia. auto.
Qed.

(** [c] is the position directly before a placeholder child of the row
    at path [q] below [n], with [base] for the path of [n]. *)
Definition beforePlaceholder (n : MathNode) (base : list nat)
           (c : CursorPosition) : Prop :=
  exists q children,
    path c = base ++ q /\
    getNodeAtPath n q = Some (RowNode children) /\
    nth_error children (offset c) = Some PlaceholderNode.

Lemma children_ind (P : MathNode -> Prop) :
  (forall n, (forall child, In child (getChildNodes n) -> P child) -> P n) ->
  forall n, P n.
Proof.
  intros H n. remember (Focusable.depth n) as d eqn:Hd. revert n Hd.
  induction d as [d IH] using lt_wf_ind. intros n Hd.
  apply H. intros child Hin.
  apply (IH (Focusable.depth child)); [|reflexivity].
  subst d. apply FocusableProps.depth_child, Hin.
Qed.

Lemma collected_sound n : forall base pos,
  In pos (collectPlaceholders n base) -> beforePlaceholder n base pos.
Proof.
  induction n as [n IH] using children_ind. intros base pos.
  rewrite collectPlaceholders_eq.
  assert (Hinto : forall k x,
             nth_error (getChildNodes n) k = Some x ->
             In pos (collectPlaceholders x (base ++ [k])) ->
             beforePlaceholder n base pos).
  { intros k x Hk Hin.
    destruct (IH x (nth_error_In _ _ Hk) _ _ Hin) as (q & cs & Hp & Hq & Ho).
    exists (k :: q), cs. rewrite Hp, <- app_assoc. simpl. rewrite Hk. auto. }
  assert (Hgen :
    In pos (eachChild (fun child i => collectPlaceholders child (base ++ [i]))
                      0 (getChildNodes n)) ->
    beforePlaceholder n base pos).
  { intros H. apply eachChild_In in H. destruct H as (k & x & Hk & H).
    exact (Hinto k x Hk H). }
  destruct n as [v|v|v|v|s| |cs|a b|a b|a b|a b d|a ix|o cl a s|nm arg lim|rows st cl];
    try exact Hgen.
  intros H. apply eachChild_In in H. destruct H as (k & x & Hk & H).
  simpl in H.
  destruct x; try exact (Hinto k _ Hk H).
  destruct H as [<-|[]].
  exists [], cs. simpl. rewrite app_nil_r. auto.
Qed.

Lemma collected_complete q : forall n base children o,
  getNodeAtPath n q = Some (RowNode children) ->
  nth_error children o = Some PlaceholderNode ->
  In (cursor (base ++ q) o) (collectPlaceholders n base).
Proof.
  induction q as [|i q IH]; intros n base children o Hq Ho;
    rewrite collectPlaceholders_eq.
  - simpl in Hq. inversion Hq; subst. apply eachChild_In.
    exists o, PlaceholderNode. split; [exact Ho|].
    rewrite app_nil_r. left. reflexivity.
  - simpl in Hq.
    destruct (nth_error (getChildNodes n) i) as [x|] eqn:Hi; [|discriminate].
    pose proof (IH x (base ++ [i]) children o Hq Ho) as Hin.
    rewrite <- app_assoc in Hin. simpl in Hin.
    assert (Hgen :
      In (cursor (base ++ i :: q) o)
         (eachChild (fun child k => collectPlaceholders child (base ++ [k]))
                    0 (getChildNodes n))).
    { apply eachChild_In. exists i, x. auto. }
    destruct n as [v|v|v|v|s| |cs|a b|a b|a b|a b d|a ix|op cl a s|nm arg lim|rows st cl];
      try exact Hgen.
    apply eachChild_In. exists i, x. split; [exact Hi|].
    destruct x; try exact Hin.
    destruct q; simpl in Hq; [discriminate|].
    destruct n; discriminate.
Qed.

(** [placeholders.findIndex(p => ...)], [None] for [-1]. *)
Fixpoint findIndex {A} (p : A -> bool) (l : list A) (i : nat) : option nat :=
  match l with
  | [] => None
  | x :: t => if p x then Some i else findIndex p t (S i)
  end.

Definition findNextPlaceholder (root : MathNode) (currentPos : CursorPosition)
           (direction : Direction) : option CursorPosition :=
  let placeholders := collectPlaceholders root [] in
  match placeholders with
  | [] => None
  | first :: _ =>
      let currentIndex :=
        findIndex (fun p => samePath (path p) (path currentPos)
                            && (offset p =? offset currentPos))
                  placeholders 0 in
      match direction, currentIndex with
      | forward, None =>
          match find (fun p => (0 <? compareCursors p currentPos)%Z)
                     placeholders with
          | Some p => Some p
          | None => Some first
          end
      | forward, Some idx =>
          nth_error placeholders ((idx + 1) mod length placeholders)
      | backward, None =>
          match find (fun p => (compareCursors p currentPos <? 0)%Z)
                     (rev placeholders) with
          | Some p => Some p
          | None => Some (last placeholders first)
          end
      | backward, Some idx =>
          nth_error placeholders
                    ((idx + length placeholders - 1) mod length placeholders)
      end
  end.

Definition moveToNextPlaceholder : Command := fun state =>
  match findNextPlaceholder (root state) (focus (selection state)) forward with
  | None => Ok None
  | Some nextPlaceholder =>
      Ok (Some (updateSelection state (collapsedSelection nextPlaceholder)))
  end.

Definition moveToPreviousPlaceholder : Command := fun state =>
  match findNextPlaceholder (root state) (focus (selection state)) backward with
  | None => Ok None
  | Some prevPlaceholder =>
      Ok (Some (updateSelection state (collapsedSelection prevPlaceholder)))
  end.

Lemma findNextPlaceholder_In root pos dir :
  match findNextPlaceholder root pos dir with
  | Some c => In c (collectPlaceholders root [])
  | None => collectPlaceholders root [] = []
  end.
Proof.
  unfold findNextPlaceholder.
  destruct (collectPlaceholders root []) as [|first rest] eqn:E;
    [reflexivity|].
  set (l := first :: rest).
  assert (Hlen : length l <> 0) by discriminate.
  assert (Hnth : forall k, match nth_error l (k mod length l) with
                           | Some c => In c l
                           | None => False
                           end).
  { intros k. pose proof (Nat.mod_upper_bound k (length l) Hlen) as Hb.
    destruct (nth_error l (k mod length l)) eqn:En.
    - eapply nth_error_In, En.
    - apply nth_error_None in En. lia. }
  destruct dir;
    destruct (findIndex _ l 0) as [idx|].
  - pose proof (Hnth (idx + 1)) as H.
    destruct (nth_error l ((idx + 1) mod length l)); [exact H|contradiction].
  - destruct (find _ l) eqn:Ef.
    + apply find_some in Ef. tauto.
    + left. reflexivity.
  - pose proof (Hnth (idx + length l - 1)) as H.
    destruct (nth_error l ((idx + length l - 1) mod length l));
      [exact H|contradiction].
  - destruct (find _ (rev l)) eqn:Ef.
    + apply find_some in Ef. apply in_rev. tauto.
    + destruct (exists_last (l := l)) as (l' & x & Hx); [discriminate|].
      rewrite Hx, last_last. apply in_or_app. right. left. reflexivity.
Qed.

(** Where the positions collected below child [k] of a node at [base]
    lie: before child [k] of that node, or on a path through it. *)
Definition under (base : list nat) (k : nat) (pos : CursorPosition) : Prop :=
  (path pos = base /\ offset pos = k) \/
  (exists q, path pos = base ++ k :: q).

Lemma under_disjoint base k1 k2 pos :
  k1 <> k2 -> under base k1 pos -> under base k2 pos -> False.
Proof.
  intros Hne [[Hp1 Ho1]|[q1 Hq1]] [[Hp2 Ho2]|[q2 Hq2]].
  - congruence.
  - rewrite Hp1 in Hq2. apply (f_equal (@length nat)) in Hq2.
    rewrite length_app in Hq2. simpl in Hq2. lia.
  - rewrite Hp2 in Hq1. apply (f_equal (@length nat)) in Hq1.
    rewrite length_app in Hq1. simpl in Hq1. lia.
  - rewrite Hq1 in Hq2. apply app_inv_head in Hq2. congruence.
Qed.

Lemma eachChild_NoDup f l : forall i,
  (forall k x, nth_error l k = Some x -> NoDup (f x (i + k))) ->
  (forall k1 k2 x1 x2 pos,
      k1 <> k2 ->
      nth_error l k1 = Some x1 -> nth_error l k2 = Some x2 ->
      In pos (f x1 (i + k1)) -> In pos (f x2 (i + k2)) -> False) ->
  NoDup (eachChild f i l).
Proof.
  induction l as [|y l IH]; intros i Hnd Hdis; simpl; [constructor|].
  apply NoDup_app.
  - specialize (Hnd 0 y eq_refl). rewrite Nat.add_0_r in Hnd. exact Hnd.
  - apply IH.
    + intros k x Hk. specialize (Hnd (S k) x Hk).
      replace (S i + k) with (i + S k) by lia. exact Hnd.
    + intros k1 k2 x1 x2 pos Hne H1 H2 I1 I2.
      apply (Hdis (S k1) (S k2) x1 x2 pos); auto;
        [replace (i + S k1) with (S i + k1) by lia; exact I1
        |replace (i + S k2) with (S i + k2) by lia; exact I2].
  - intros pos I1 I2. apply eachChild_In in I2.
    destruct I2 as (k & x & Hk & I2).
    apply (Hdis 0 (S k) y x pos); auto.
    + rewrite Nat.add_0_r. exact I1.
    + replace (i + S k) with (S i + k) by lia. exact I2.
Qed.

Lemma collected_under x base k pos :
  In pos (collectPlaceholders x (base ++ [k])) -> under base k pos.
Proof.
  intros H. apply collected_sound in H. destruct H as (q & cs & Hp & _).
  right. exists q. rewrite Hp, <- app_assoc. reflexivity.
Qed.

Lemma collected_NoDup n : forall base, NoDup (collectPlaceholders n base).
Proof.
  induction n as [n IH] using children_ind. intros base.
  rewrite collectPlaceholders_eq.
  assert (Hgen :
    NoDup (eachChild (fun child i => collectPlaceholders child (base ++ [i]))
                     0 (getChildNodes n))).
  { apply eachChild_NoDup.
    - intros k x Hk. apply (IH x (nth_error_In _ _ Hk)).
    - intros k1 k2 x1 x2 pos Hne H1 H2 I1 I2. simpl in I1, I2.
      apply (under_disjoint base k1 k2 pos Hne);
        eapply collected_under; eassumption. }
  destruct n as [v|v|v|v|s| |cs|a b|a b|a b|a b d|a ix|o cl a s|nm arg lim|rows st cl];
    try exact Hgen.
  assert (Hu : forall k x pos,
             In pos match x with
                    | PlaceholderNode => [cursor base k]
                    | _ => collectPlaceholders x (base ++ [k])
                    end -> under base k pos).
  { intros k x pos H.
    destruct x; try (eapply collected_under; exact H).
    destruct H as [<-|[]]. left. split; reflexivity. }
  apply eachChild_NoDup.
  - intros k x Hk. simpl.
    destruct x; try apply (IH _ (nth_error_In _ _ Hk)).
    constructor; [intros []|constructor].
  - intros k1 k2 x1 x2 pos Hne H1 H2 I1 I2. simpl in I1, I2.
    apply (under_disjoint base k1 k2 pos Hne); eapply Hu; eassumption.
Qed.

Definition samePosition (currentPos p : CursorPosition) : bool :=
  samePath (path p) (path currentPos) && (offset p =? offset currentPos).

Lemma samePosition_eq c p : samePosition c p = true <-> p = c.
Proof.
  unfold samePosition. split.
  - intros H. apply andb_prop in H. destruct H as [Hp Ho].
    apply SelectionEdits.samePath_true in Hp. apply Nat.eqb_eq in Ho.
    destruct p, c. simpl in *. congruence.
  - intros ->. rewrite SelectionEdits.samePath_refl, Nat.eqb_refl. reflexivity.
Qed.

Lemma findIndex_NoDup l : forall i k x,
  NoDup l -> nth_error l k = Some x ->
  findIndex (samePosition x) l i = Some (i + k).
Proof.
  induction l as [|y l IH]; intros i k x Hnd Hk; [destruct k; discriminate|].
  inversion Hnd as [|? ? Hy Hnd']; subst. simpl.
  destruct k as [|k]; simpl in Hk.
  - inversion Hk; subst.
    rewrite (proj2 (samePosition_eq x x) eq_refl), Nat.add_0_r. reflexivity.
  - destruct (samePosition x y) eqn:E.
    + apply samePosition_eq in E. subst y. exfalso. apply Hy.
      eapply nth_error_In, Hk.
    + rewrite (IH (S i) k x Hnd' Hk). f_equal. lia.
Qed.

Lemma wrap_forward_back k n :
  k < n -> ((k + 1) mod n + n - 1) mod n = k.
Proof.
  intros H. destruct (Nat.eq_dec (k + 1) n) as [E|E].
  - rewrite E, Nat.Div0.mod_same. simpl. rewrite Nat.mod_small; lia.
  - rewrite (Nat.mod_small (k + 1)) by lia.
    replace (k + 1 + n - 1) with (k + 1 * n) by lia.
    rewrite Nat.Div0.mod_add. apply Nat.mod_small. exact H.
Qed.

Lemma wrap_back_forward k n :
  k < n -> ((k + n - 1) mod n + 1) mod n = k.
Proof.
  intros H. destruct k as [|k].
  - simpl. rewrite (Nat.mod_small (n - 1)) by lia.
    replace (n - 1 + 1) with n by lia. apply Nat.Div0.mod_same.
  - replace (S k + n - 1) with (k + 1 * n) by lia.
    rewrite Nat.Div0.mod_add, (Nat.mod_small k) by lia.
    rewrite Nat.mod_small by lia. lia.
Qed.

Lemma step_at_index root pos k dir :
  nth_error (collectPlaceholders root []) k = Some pos ->
  findNextPlaceholder root pos dir
  = nth_error (collectPlaceholders root [])
              (match dir with
               | forward => (k + 1) mod length (collectPlaceholders root [])
               | backward =>
                   (k + length (collectPlaceholders root []) - 1)
                     mod length (collectPlaceholders root [])
               end).
Proof.
  intros Hk. unfold findNextPlaceholder.
  pose proof (collected_NoDup root []) as Hnd.
  pose proof (findIndex_NoDup _ 0 k pos Hnd Hk) as Hi. simpl in Hi.
  unfold samePosition in Hi.
  destruct (collectPlaceholders root []) as [|first rest] eqn:E;
    [destruct k; discriminate|].
  rewrite Hi. destruct dir; reflexivity.
Qed.

Lemma there_and_back root pos :
  In pos (collectPlaceholders root []) ->
  exists nxt prv,
    findNextPlaceholder root pos forward = Some nxt /\
    findNextPlaceholder root nxt backward = Some pos /\
    findNextPlaceholder root pos backward = Some prv /\
    findNextPlaceholder root prv forward = Some pos.
Proof.
  intros Hin. apply In_nth_error in Hin. destruct Hin as [k Hk].
  set (l := collectPlaceholders root []) in *.
  assert (Hlt : k < length l) by (apply nth_error_Some; congruence).
  assert (Hj : (k + 1) mod length l < length l)
    by (apply Nat.mod_upper_bound; lia).
  assert (Hi : (k + length l - 1) mod length l < length l)
    by (apply Nat.mod_upper_bound; lia).
  destruct (nth_error l ((k + 1) mod length l)) as [nxt|] eqn:En;
    [|apply nth_error_None in En; lia].
  destruct (nth_error l ((k + length l - 1) mod length l)) as [prv|] eqn:Ep;
    [|apply nth_error_None in Ep; lia].
  exists nxt, prv.
  rewrite (step_at_index root pos k forward Hk).
  rewrite (step_at_index root pos k backward Hk).
  rewrite (step_at_index root nxt _ backward En).
  rewrite (step_at_index root prv _ forward Ep).
  fold l. rewrite wrap_forward_back, wrap_back_forward by exact Hlt.
  auto.
Qed.

Definition atPlaceholder (root : MathNode) (pos : CursorPosition) : Prop :=
  exists children,
    getNodeAtPath root (path pos) = Some (RowNode children) /\
    nth_error children (offset pos) = Some PlaceholderNode.

Lemma collected_iff root pos :
  In pos (collectPlaceholders root []) <-> atPlaceholder root pos.
Proof.
  split.
  - intros H. apply collected_sound in H.
    destruct H as (q & cs & Hp & Hq & Ho). simpl in Hp. subst q.
    exists cs. auto.
  - intros (cs & Hq & Ho). destruct pos as [p o]. simpl in *.
    apply (collected_complete p root [] cs o Hq Ho).
Qed.

(** X29.  [findNextPlaceholder] steps between the placeholders of the
    rows.  What it returns is a position directly before a placeholder
    child of a row, and it returns [null] exactly when no row has a
    placeholder child.  From such a position, stepping forward and then
    backward, or backward and then forward, comes back to it (the
    positions are collected without repetition and the steps wrap
    around). *)
Theorem findNextPlaceholder_steps root pos dir :
  match findNextPlaceholder root pos dir with
  | Some found => atPlaceholder root found
  | None => forall c, ~ atPlaceholder root c
  end /\
  (atPlaceholder root pos ->
   exists nxt prv,
     findNextPlaceholder root pos forward = Some nxt /\
     findNextPlaceholder root nxt backward = Some pos /\
     findNextPlaceholder root pos backward = Some prv /\
     findNextPlaceholder root prv forward = Some pos).
Proof.
  split.
  - pose proof (findNextPlaceholder_In root pos dir) as H.
    destruct (findNextPlaceholder root pos dir) as [found|].
    + apply collected_iff, H.
    + intros c Hc. apply collected_iff in Hc. rewrite H in Hc. exact Hc.
  - intros H. apply there_and_back, collected_iff, H.
Qed.

Lemma findNextPlaceholder_steps_witness :
  let tree := RowNode [FractionNode (RowNode [PlaceholderNode])
                                    (RowNode [SymbolNode "x"; PlaceholderNode]);
                       PlaceholderNode] in
  collectPlaceholders tree [] = [cursor [0; 0] 0; cursor [0; 1] 1; cursor [] 1]
  /\ atPlaceholder tree (cursor [] 1)
  /\ findNextPlaceholder tree (cursor [] 1) forward = Some (cursor [0; 0] 0)
  /\ exists nxt prv,
       findNextPlaceholder tree (cursor [] 1) forward = Some nxt /\
       findNextPlaceholder tree nxt backward = Some (cursor [] 1) /\
       findNextPlaceholder tree (cursor [] 1) backward = Some prv /\
       findNextPlaceholder tree prv forward = Some (cursor [] 1).
Proof.
  intros tree.
  assert (Hat : atPlaceholder tree (cursor [] 1))
    by (eexists; split; reflexivity).
  split; [reflexivity|]. split; [exact Hat|]. split; [reflexivity|].
  exact (proj2 (findNextPlaceholder_steps tree (cursor [] 1) forward) Hat).
Defined.

End Placeholders.

(* ================================================================== *)
(** ** Plain words through tokenizer, parser and serializer *)
(* ================================================================== *)

Module PlainWords.
Import Ast Tokens Outcome Outcome.Notations Parser.

(** A letter, or one of the thirteen operator characters. *)
Definition plainChar (c : ascii) : bool :=
  isLetter c
  || match special c with
     | Some operator => true
     | _ => false
     end.

(** The node a plain character stands for. *)
Definition nodeOf (c : ascii) : MathNode :=
  if isLetter c then node.symbol (String c EmptyString)
  else node.operator (String c EmptyString).

Definition tokenOf (c : ascii) (pos : nat) : Token :=
  {| type := if isLetter c then text else operator;
     value := String c EmptyString;
     position := Z.of_nat pos |}.

Fixpoint tokensOf (cs : list ascii) (pos : nat) : list Token :=
  match cs with
  | [] => [{| type := eof; value := ""; position := Z.of_nat pos |}]
  | c :: rest => tokenOf c pos :: tokensOf rest (pos + 1)
  end.

Lemma plain_nextToken c rest pos :
  plainChar c = true ->
  nextToken c rest pos = (tokenOf c pos, (rest, pos + 1)).
Proof.
  intros H. revert rest pos.
  destruct c as [[] [] [] [] [] [] [] []]; try discriminate H;
    intros rest pos; reflexivity.
Qed.

Lemma plain_tokenizeLoop cs : forall fuel pos,
  forallb plainChar cs = true ->
  length cs <= fuel ->
  tokenizeLoop fuel cs pos = Some (tokensOf cs pos).
Proof.
  induction cs as [|c cs IH]; intros fuel pos Hp Hf.
  - destruct fuel; reflexivity.
  - simpl in Hp. apply andb_prop in Hp. destruct Hp as [Hc Hp].
    destruct fuel as [|fuel]; [simpl in Hf; lia|].
    cbn [tokenizeLoop]. rewrite (plain_nextToken c cs pos Hc).
    rewrite (IH fuel (pos + 1) Hp) by (simpl in Hf; lia). reflexivity.
Qed.

(** A stream at which [parseScript] stops at once: not at white space,
    not at a script mark. *)
Definition calm (s : TokenStream) : Prop :=
  skipWhitespace s = s /\
  isType superscript s = false /\
  isType subscript s = false.

Lemma tokensOf_calm cs pos : calm (tokensOf cs pos).
Proof.
  destruct cs as [|c cs]; simpl.
  - repeat split.
  - unfold calm, isType, tokenOf. simpl.
    destruct (isLetter c); repeat split.
Qed.

Lemma tokensOf_head c cs pos :
  isEof (tokensOf (c :: cs) pos) = false /\
  skipWhitespace (tokensOf (c :: cs) pos) = tokensOf (c :: cs) pos /\
  stopsAt [] (peek (tokensOf (c :: cs) pos)) = false.
Proof.
  unfold isEof, isType, stopsAt. simpl. destruct (isLetter c); repeat split.
Qed.

Section Atom.
Variable parseRow : list string -> TokenStream -> PResult MathNode.
Variable parseCommand : TokenStream -> PResult MathNode.

Lemma plain_parseAtom c pos rest :
  calm rest ->
  parseAtom parseRow parseCommand (tokenOf c pos :: rest)
  = Ok (Some (nodeOf c), rest).
Proof.
  intros (Hw & Hsup & Hsub). unfold parseAtom, tokenOf, nodeOf.
  destruct (isLetter c); simpl.
  - unfold parseSymbol, parseScript. simpl. rewrite Hw.
    unfold scriptLoop. rewrite Hsup, Hsub. reflexivity.
  - reflexivity.
Qed.

End Atom.

Lemma plain_parseRowLoop cs : forall fuel children pos,
  length cs < fuel ->
  parseRowLoop fuel [] children (tokensOf cs pos)
  = Ok (children ++ map nodeOf cs,
        [{| type := eof; value := "";
            position := Z.of_nat (pos + length cs) |}]).
Proof.
  induction cs as [|c cs IH]; intros fuel children pos Hf;
    (destruct fuel as [|fuel]; [lia|]).
  - simpl. rewrite app_nil_r, Nat.add_0_r. reflexivity.
  - destruct (tokensOf_head c cs pos) as (H1 & H2 & H3).
    cbn [parseRowLoop]. rewrite H1, H2, H3.
    cbn [tokensOf]. rewrite plain_parseAtom by apply tokensOf_calm.
    cbn [bind]. rewrite IH by (simpl in Hf; lia).
    rewrite <- app_assoc. simpl.
    replace (pos + 1 + length cs) with (pos + S (length cs)) by lia.
    reflexivity.
Qed.

Lemma tokensOf_length cs : forall pos, length (tokensOf cs pos) = S (length cs).
Proof.
  induction cs as [|c cs IH]; intros pos; simpl; [reflexivity|].
  rewrite IH. reflexivity.
Qed.

Lemma plain_parseLatex cs :
  forallb plainChar cs = true ->
  parseLatex (string_of_list_ascii cs) = Ok (simplifyRow (map nodeOf cs)).
Proof.
  intros Hp. unfold parseLatex, tokenize.
  rewrite list_ascii_of_string_of_list_ascii.
  rewrite (plain_tokenizeLoop cs _ 0 Hp)
    by (rewrite string_list_length; lia).
  unfold parse, parseRow, fuelFor.
  rewrite plain_parseRowLoop by (rewrite tokensOf_length; lia).
  reflexivity.
Qed.

Lemma plain_serialize c :
  plainChar c = true ->
  Serializer.serializeNode Serializer.defaultOptions (nodeOf c)
  = String c EmptyString.
Proof.
  intros H.
  destruct c as [[] [] [] [] [] [] [] []]; try discriminate H; reflexivity.
Qed.

Lemma plain_serializeRow cs :
  forallb plainChar cs = true ->
  Serializer.cat (map (Serializer.serializeNode Serializer.defaultOptions)
                      (map nodeOf cs))
  = string_of_list_ascii cs.
Proof.
  unfold Serializer.cat.
  induction cs as [|c cs IH]; intros Hp; [reflexivity|].
  simpl in Hp. apply andb_prop in Hp. destruct Hp as [Hc Hp].
  cbn [map]. rewrite (plain_serialize c Hc).
  specialize (IH Hp).
  destruct cs as [|d cs]; [reflexivity|].
  cbn [map String.concat] in *. rewrite IH. reflexivity.
Qed.

(** X30.  The round trip holds on plain words.  A source of letters
    and operator characters only parses to the row of its characters,
    each letter a symbol and each operator character an operator (to
    the one node for a single character, to a placeholder for none);
    that tree serializes, with the default options, to the source
    again; so parsing what was serialized gives the same tree. *)
Theorem plain_words_round_trip cs :
  forallb plainChar cs = true ->
  parseLatex (string_of_list_ascii cs) = Ok (simplifyRow (map nodeOf cs)) /\
  (cs <> [] ->
   Serializer.serializeToLatex (simplifyRow (map nodeOf cs))
                               Serializer.defaultOptions
   = string_of_list_ascii cs /\
   parseLatex (Serializer.serializeToLatex (simplifyRow (map nodeOf cs))
                                           Serializer.defaultOptions)
   = parseLatex (string_of_list_ascii cs)).
Proof.
  intros Hp. split; [apply plain_parseLatex, Hp|].
  intros Hne.
  assert (Hs : Serializer.serializeToLatex (simplifyRow (map nodeOf cs))
                                           Serializer.defaultOptions
               = string_of_list_ascii cs).
  { unfold Serializer.serializeToLatex.
    destruct cs as [|c [|d cs]]; [contradiction| |].
    - simpl in Hp. rewrite andb_true_r in Hp. apply plain_serialize, Hp.
    - apply (plain_serializeRow (c :: d :: cs) Hp). }
  split; [exact Hs|]. rewrite Hs. reflexivity.
Qed.

Lemma plain_words_round_trip_witness :
  parseLatex "a+b=c"
  = Ok (RowNode [SymbolNode "a"; OperatorNode "+"; SymbolNode "b";
                 OperatorNode "="; SymbolNode "c"]) /\
  Serializer.serializeToLatex
    (RowNode [SymbolNode "a"; OperatorNode "+"; SymbolNode "b";
              OperatorNode "="; SymbolNode "c"]) Serializer.defaultOptions
  = "a+b=c".
Proof.
  destruct (plain_words_round_trip (list_ascii_of_string "a+b=c") eq_refl)
    as [H1 H2].
  split; [exact H1|]. apply H2. discriminate.
Defined.

End PlainWords.
